(** * slashc: the slash-command compiler and runner (tools/slashc.py)

    A shallow embedding of [tools/slashc.py] and the properties its
    specification states about it.

    Text is modelled as [list ascii]; a character is a code point in
    U+0000..U+00FF, classified the way Python classifies it for [str]
    patterns and [str.strip].  The regular expressions of the source are
    written in a small abstract syntax and run by a backtracking matcher
    with the search order of Python's [re].  The YAML loader, the schema
    validator and the container runtime are outside the repository and
    are Section variables. *)

From Stdlib Require Import List String Ascii ZArith Lia Bool DecimalString.
From stdpp Require Import gmap strings.
Import ListNotations.

Local Open Scope list_scope.
Local Open Scope bool_scope.

(** ** Characters and text *)

Abbreviation str := (list ascii).

Definition s (x : string) : str := list_ascii_of_string x.

Definition nl : ascii := ascii_of_nat 10.

Definition is_nl (c : ascii) : bool := Ascii.eqb c nl.

Definition in_range (lo hi : N) (c : ascii) : bool :=
  (lo <=? N_of_ascii c)%N && (N_of_ascii c <=? hi)%N.

(** [\s] on [str], and the characters [str.strip] removes: Python's
    [Py_UNICODE_ISSPACE] below U+0100. *)
Definition is_space (c : ascii) : bool :=
  in_range 9 13 c || in_range 28 32 c || in_range 133 133 c
  || in_range 160 160 c.

(** [\w] on [str]: alphanumeric in the Unicode sense, or underscore. *)
Definition is_word (c : ascii) : bool :=
  in_range 48 57 c || in_range 65 90 c || in_range 95 95 c
  || in_range 97 122 c || in_range 170 170 c || in_range 178 179 c
  || in_range 181 181 c || in_range 185 186 c || in_range 188 190 c
  || in_range 192 214 c || in_range 216 246 c || in_range 248 255 c.

(** [[A-Za-z0-9_]] *)
Definition is_ascii_word (c : ascii) : bool :=
  in_range 48 57 c || in_range 65 90 c || in_range 95 95 c
  || in_range 97 122 c.

Definition any_char (c : ascii) : bool := true.

Fixpoint drop_ws (t : str) : str :=
  match t with
  | c :: t' => if is_space c then drop_ws t' else t
  | [] => []
  end.

Definition rstrip (t : str) : str := rev (drop_ws (rev t)).

(** [str.strip()] *)
Definition strip (t : str) : str := rstrip (drop_ws t).

Definition blank (t : str) : bool :=
  match strip t with [] => true | _ => false end.

(** [str.startswith] *)
Fixpoint startswith (p t : str) : bool :=
  match p, t with
  | [], _ => true
  | a :: p', b :: t' => Ascii.eqb a b && startswith p' t'
  | _ :: _, [] => false
  end.

(** ['\n'.join] *)
Fixpoint join_lines (l : list str) : str :=
  match l with
  | [] => []
  | [x] => x
  | x :: rest => x ++ nl :: join_lines rest
  end.

(** ** Regular expressions *)

Module Re.

Inductive regex : Type :=
| Eps
| Cls (p : ascii -> bool)
| Bol
| Seq (r1 r2 : regex)
| Alt (r1 r2 : regex)
| Star (greedy : bool) (p : ascii -> bool)
| Grp (r : regex).

Fixpoint lit (t : str) : regex :=
match t with
| [] => Eps
| c :: t' => Seq (Cls (Ascii.eqb c)) (lit t')
end.

Definition plus (p : ascii -> bool) : regex := Seq (Cls p) (Star true p).

Fixpoint seqs (l : list regex) : regex :=
match l with
| [] => Eps
| [r] => r
| r :: l' => Seq r (seqs l')
end.

Section Matcher.
Context {R : Type}.

(** [p*]: the longest run first, then shorter ones. *)
Fixpoint star_greedy (p : ascii -> bool) (b : bool) (t : str)
  (k : bool -> str -> option R) : option R :=
match t with
| c :: t' =>
    if p c then
      match star_greedy p (is_nl c) t' k with
      | Some r => Some r
      | None => k b t
      end
    else k b t
| [] => k b t
end.

(** [p*?]: the shortest run first, then longer ones. *)
Fixpoint star_lazy (p : ascii -> bool) (b : bool) (t : str)
  (k : bool -> str -> option R) : option R :=
match k b t with
| Some r => Some r
| None =>
    match t with
    | c :: t' => if p c then star_lazy p (is_nl c) t' k else None
    | [] => None
    end
end.

(** [rmatch r b t g k]: match [r] at the head of [t]; [b] says whether
  the position is the start of a line, [g] holds the groups captured
  so far, and [k] is the rest of the pattern.  The first success in
  backtracking order is returned. *)
Fixpoint rmatch (r : regex) (b : bool) (t : str) (g : list str)
  (k : bool -> str -> list str -> option R) : option R :=
match r with
| Eps => k b t g
| Cls p =>
    match t with
    | c :: t' => if p c then k (is_nl c) t' g else None
    | [] => None
    end
| Bol => if b then k b t g else None
| Seq r1 r2 => rmatch r1 b t g (fun b' t' g' => rmatch r2 b' t' g' k)
| Alt r1 r2 =>
    match rmatch r1 b t g k with
    | Some x => Some x
    | None => rmatch r2 b t g k
    end
| Star true p => star_greedy p b t (fun b' t' => k b' t' g)
| Star false p => star_lazy p b t (fun b' t' => k b' t' g)
| Grp r1 =>
    rmatch r1 b t g
      (fun b' t' g' => k b' t' (g' ++ [firstn (length t - length t') t]))
end.
End Matcher.

(** A match at the head of [t]: what follows the match, and the groups. *)
Definition match_at (r : regex) (b : bool) (t : str) : option (str * list str) :=
rmatch r b t [] (fun _ t' g => Some (t', g)).

(** Length of the match at the head of [t], when there is one. *)
Definition match_len (r : regex) (b : bool) (t : str) : option nat :=
match match_at r b t with
| Some (t', _) => Some (length t - length t')
| None => None
end.

(** [re.search]: the groups of the leftmost match. *)
Fixpoint search_from (r : regex) (b : bool) (t : str) : option (list str) :=
match match_at r b t with
| Some (_, g) => Some g
| None =>
    match t with
    | c :: t' => search_from r (is_nl c) t'
    | [] => None
    end
end.

Definition search (r : regex) (t : str) : option (list str) :=
search_from r true t.

(** [re.sub(r, '', t)] for a pattern that never matches the empty string:
  [skip] counts the characters of a match still to be dropped. *)
Fixpoint sub_from (r : regex) (b : bool) (skip : nat) (t : str) : str :=
match t with
| [] => []
| c :: t' =>
    match skip with
    | S n => sub_from r (is_nl c) n t'
    | O =>
        match match_len r b t with
        | Some (S n) => sub_from r (is_nl c) n t'
        | _ => c :: sub_from r (is_nl c) 0 t'
        end
    end
end.

Definition sub (r : regex) (t : str) : str := sub_from r true 0 t.

Definition cons_hd (c : ascii) (l : list str) : list str :=
match l with
| h :: rest => (c :: h) :: rest
| [] => [[c]]
end.

(** [re.split(r, t)] for a pattern without groups that never matches the
  empty string. *)
Fixpoint split_from (r : regex) (b : bool) (skip : nat) (t : str) : list str :=
match t with
| [] => [[]]
| c :: t' =>
    match skip with
    | S n => split_from r (is_nl c) n t'
    | O =>
        match match_len r b t with
        | Some (S n) => [] :: split_from r (is_nl c) n t'
        | _ => cons_hd c (split_from r (is_nl c) 0 t')
        end
    end
end.

Definition split (r : regex) (t : str) : list str := split_from r true 0 t.

End Re.

Import Re.

(** ** The patterns of [parse_markdown] *)

Definition dashes : str := s "---".
Definition ticks : str := s "```".

(** [r'^(?:---\s*\n|\s*```)'] with [re.MULTILINE] *)
Definition marker_re : regex :=
  Seq Bol (Alt (seqs [lit dashes; Star true is_space; Cls is_nl])
               (seqs [Star true is_space; lit ticks])).

(** [r'^\s*---\s*.*?^\s*---\s*'] with [re.MULTILINE | re.DOTALL] *)
Definition front_matter_re : regex :=
  seqs [Bol; Star true is_space; lit dashes; Star true is_space;
        Star false any_char;
        Bol; Star true is_space; lit dashes; Star true is_space].

(** [r'^\s*```.*?^\s*```\s*'] with [re.MULTILINE | re.DOTALL] *)
Definition fence_re : regex :=
  seqs [Bol; Star true is_space; lit ticks;
        Star false any_char;
        Bol; Star true is_space; lit ticks; Star true is_space].

(** [r'name=(\w+)'] *)
Definition name_re : regex := Seq (lit (s "name=")) (Grp (plus is_word)).

(** ** Document parser: the text-level part of [parse_markdown] *)

Inductive stray_site : Type :=
| NonBlockProse      (* the whole-document prose check *)
| UnexpectedSegment. (* the segment walk *)

Inductive parse_error : Type :=
| MissingFrontMatter
| StrayContent (site : stray_site)
| YamlParseError (msg : str)
| IncompleteBashBlock
| MissingBlockName
| DuplicateBlockName (name : str)
| NoExecutableBlocks.

(** [m.group(1)] *)
Definition group1 (g : list str) : str := nth 0 g [].

(** The [while i < len(parts)] loop; [ps] is [parts[i:]], [names] is
    [block_names] and [blocks] is [bash_blocks]. *)
Fixpoint walk (names : gset str) (blocks : list str) (ps : list str)
    : parse_error + (gset str * list str) :=
  match ps with
  | [] => inr (names, blocks)
  | p :: rest =>
      if startswith (s "yaml") (strip p) then
        match rest with
        | [] => inr (names, blocks)
        | _ :: rest' => walk names blocks rest'
        end
      else if startswith (s "bash") (strip p) then
        let header := strip p in
        match rest with
        | [] => inl IncompleteBashBlock
        | q :: rest' =>
            let bash_content := strip q in
            match search name_re header with
            | None => inl MissingBlockName
            | Some g =>
                let block_name := group1 g in
                if decide (block_name ∈ names)
                then inl (DuplicateBlockName block_name)
                else walk ({[block_name]} ∪ names) (blocks ++ [bash_content]) rest'
            end
        end
      else if blank p then walk names blocks rest
      else inl (StrayContent UnexpectedSegment)
  end.

Definition prose_check (content : str) : str :=
  sub fence_re (sub front_matter_re content).

Section Parser.
(** [yaml.safe_load]: the loaded value, or the text of the [YAMLError]. *)
Context {Y : Type}.
Variable safe_load : str -> str + Y.

Definition parse_text (content : str) : parse_error + (Y * list str) :=
  let parts := split marker_re content in
  if (length parts <? 3) || blank (nth 1 parts []) then inl MissingFrontMatter
  else if negb (blank (prose_check content))
  then inl (StrayContent NonBlockProse)
  else
    match safe_load (nth 1 parts []) with
    | inl e => inl (YamlParseError e)
    | inr front_matter =>
        match walk ∅ [] (skipn 2 parts) with
        | inl e => inl e
        | inr (_, []) => inl NoExecutableBlocks
        | inr (_, bash_blocks) => inr (front_matter, bash_blocks)
        end
    end.
End Parser.

(** ** Paths ([pathlib.PurePosixPath]) *)

Module Path.

Record t : Type := mk { root : str; parts : list str }.

Definition slash : ascii := ascii_of_nat 47.

Fixpoint components (x : str) : list str :=
  match x with
  | [] => [[]]
  | c :: x' =>
      if Ascii.eqb c slash then [] :: components x'
      else cons_hd c (components x')
  end.

Fixpoint leading_slashes (x : str) : nat :=
  match x with
  | c :: x' => if Ascii.eqb c slash then S (leading_slashes x') else 0
  | [] => 0
  end.

Definition keep (x : str) : bool :=
  match x with
  | [] => false
  | [c] => negb (Ascii.eqb c (ascii_of_nat 46))
  | _ => true
  end.

(** [Path(x)]: empty and [.] components are dropped; exactly two
    leading slashes are kept as they are. *)
Definition of_str (x : str) : t :=
  {| root := match leading_slashes x with
             | 0 => []
             | 2 => [slash; slash]
             | _ => [slash]
             end;
     parts := List.filter keep (components x) |}.

Fixpoint join_parts (l : list str) : str :=
  match l with
  | [] => []
  | [x] => x
  | x :: rest => x ++ slash :: join_parts rest
  end.

(** [str(p)] *)
Definition to_str (p : t) : str :=
  match root p, parts p with
  | [], [] => [ascii_of_nat 46]
  | r, l => r ++ join_parts l
  end.

(** [a / b] *)
Definition join (a b : t) : t :=
  match root b with
  | [] => {| root := root a; parts := parts a ++ parts b |}
  | _ => b
  end.

(** [p.name] *)
Definition name (p : t) : str := List.last (parts p) [].

(** [p.parent] *)
Definition parent (p : t) : t :=
  {| root := root p; parts := List.removelast (parts p) |}.

End Path.

(** ** The process and its file system *)

Inductive node : Type :=
| File (content : str) (mode : N)
| Dir.

Inductive exn : Type :=
| FileNotFoundError
| FileExistsError
| IsADirectoryError
| NotADirectoryError
| CalledProcessError (returncode : Z)
| LookupError.

(** The file system maps the text of an absolute path to what is there;
    [stdout] holds the printed lines, oldest first. *)
Record world : Type := mkWorld {
  cwd : Path.t;
  fs : gmap str node;
  stdout : list str
}.

Inductive outcome (A : Type) : Type :=
| Ret (a : A)
| Exit (code : Z)      (* [sys.exit(code)] *)
| Raise (e : exn).     (* an exception on its way up *)
Arguments Ret {A} a.
Arguments Exit {A} code.
Arguments Raise {A} e.

(** The exit status the operating system sees: [sys.exit(n)] ends the
    process with the low eight bits of [n], an exception that is not
    caught with status 1. *)
Definition process_status {A} (o : outcome A) : Z :=
  match o with
  | Ret _ => 0
  | Exit code => code mod 256
  | Raise _ => 1
  end.

Definition M (A : Type) : Type := world -> outcome A * world.

Definition ret {A} (a : A) : M A := fun w => (Ret a, w).

Definition bind {A B} (m : M A) (f : A -> M B) : M B :=
  fun w =>
    match m w with
    | (Ret a, w') => f a w'
    | (Exit c, w') => (Exit c, w')
    | (Raise e, w') => (Raise e, w')
    end.

Notation "'let*' x ':=' m 'in' k" := (bind m (fun x => k))
  (at level 10, x pattern, m at level 100, k at level 200, only parsing).
Notation "'run' m 'then' k" := (bind m (fun _ => k))
  (at level 10, m at level 100, k at level 200, only parsing).

Definition sys_exit {A} (code : Z) : M A := fun w => (Exit code, w).

Definition raise {A} (e : exn) : M A := fun w => (Raise e, w).

(** [try: body  except ...: handler], for the exceptions [handler] takes. *)
Definition try_except {A} (body : M A) (handler : exn -> option (M A)) : M A :=
  fun w =>
    match body w with
    | (Raise e, w') =>
        match handler e with
        | Some h => h w'
        | None => (Raise e, w')
        end
    | r => r
    end.

Definition print (line : str) : M unit :=
  fun w => (Ret tt, mkWorld (cwd w) (fs w) (stdout w ++ [line])).

Definition get_cwd : M Path.t := fun w => (Ret (cwd w), w).

(** The key of a path in the file system: the path as written, under the
    working directory when it is relative.  The key is lexical: a [..]
    component is kept, where the operating system would step to the parent
    directory, and links are not followed.  It names the file the code
    reaches for the tool's own paths, for the script and log of a name
    without [/], and for paths without a [..] component; the properties
    about other paths say so in their hypotheses.  Permissions are not
    modelled beyond the mode bits [chmod] stores: no operation is refused
    for want of a permission. *)
Definition key (w : world) (p : Path.t) : str := Path.to_str (Path.join (cwd w) p).

Definition set_fs (w : world) (f : gmap str node) : world :=
  mkWorld (cwd w) f (stdout w).

Definition is_dir (w : world) (p : Path.t) : bool :=
  match fs w !! key w p with Some Dir => true | _ => false end.

(** [p.exists()] *)
Definition path_exists (p : Path.t) : M bool :=
  fun w => (Ret (bool_decide (is_Some (fs w !! key w p))), w).

Definition cr : ascii := ascii_of_nat 13.

(** What a read in text mode returns for the stored characters [t]: a
    carriage return followed by a newline, and a carriage return alone,
    both come out as one newline. *)
Fixpoint text_mode (t : str) : str :=
  match t with
  | [] => []
  | c :: t' =>
      if Ascii.eqb c cr then
        nl :: match t' with
              | d :: t'' => if is_nl d then text_mode t'' else text_mode t'
              | [] => []
              end
      else c :: text_mode t'
  end.

(** [p.read_text()] *)
Definition read_text (p : Path.t) : M str :=
  fun w =>
    match fs w !! key w p with
    | Some (File c _) => (Ret (text_mode c), w)
    | Some Dir => (Raise IsADirectoryError, w)
    | None => (Raise FileNotFoundError, w)
    end.

Definition default_mode : N := 420. (* 0o644 *)

(** The mode of the file at [p] once it is open for writing: its own when
    it was there, that of a new file otherwise. *)
Definition mode_of (w : world) (p : Path.t) : N :=
  match fs w !! key w p with
  | Some (File _ mode) => mode
  | _ => default_mode
  end.

(** [open(p, 'w')] followed by writing [content]: the file is created or
    truncated, an existing file keeping its mode; its directory has to be
    there.  The file system is taken to be a tree: a path that leads
    through a regular file higher up than its directory is not told
    apart from one whose directory is missing. *)
Definition write_file (p : Path.t) (content : str) : M unit :=
  fun w =>
    match fs w !! key w p with
    | Some Dir => (Raise IsADirectoryError, w)
    | Some (File _ mode) => (Ret tt, set_fs w (<[key w p := File content mode]> (fs w)))
    | None =>
        match fs w !! key w (Path.parent p) with
        | Some Dir => (Ret tt, set_fs w (<[key w p := File content default_mode]> (fs w)))
        | Some (File _ _) => (Raise NotADirectoryError, w)
        | None => (Raise FileNotFoundError, w)
        end
    end.

(** [os.chmod(p, mode)] *)
Definition chmod (p : Path.t) (mode : N) : M unit :=
  fun w =>
    match fs w !! key w p with
    | Some (File c _) => (Ret tt, set_fs w (<[key w p := File c mode]> (fs w)))
    | Some Dir => (Ret tt, w)
    | None => (Raise FileNotFoundError, w)
    end.

(** [p.mkdir(exist_ok=True)] *)
Definition mkdir_exist_ok (p : Path.t) : M unit :=
  fun w =>
    match fs w !! key w p with
    | Some Dir => (Ret tt, w)
    | Some (File _ _) => (Raise FileExistsError, w)
    | None =>
        match fs w !! key w (Path.parent p) with
        | Some Dir => (Ret tt, set_fs w (<[key w p := Dir]> (fs w)))
        | Some (File _ _) => (Raise NotADirectoryError, w)
        | None => (Raise FileNotFoundError, w)
        end
    end.

(** [p.unlink()] *)
Definition unlink (p : Path.t) : M unit :=
  fun w =>
    match fs w !! key w p with
    | Some (File _ _) => (Ret tt, set_fs w (delete (key w p) (fs w)))
    | Some Dir => (Raise IsADirectoryError, w)
    | None => (Raise FileNotFoundError, w)
    end.

(** ** The tool *)

Definition TEMP_DIR : Path.t := Path.of_str (s ".out/tmp").
Definition LOG_DIR : Path.t := Path.of_str (s ".out/logs").

(** Decimal text of an integer, as an f-string formats it. *)
Definition decimal (z : Z) : str := s (DecimalString.NilZero.string_of_int (Z.to_int z)).

Definition parse_message (e : parse_error) (file_path : str) : str :=
  match e with
  | MissingFrontMatter => s "Error: Missing YAML front-matter in " ++ file_path
  | StrayContent NonBlockProse =>
      s "Validation Error: Found non-block prose in " ++ file_path
      ++ s ". Only YAML front-matter and fenced ```bash blocks are allowed."
  | YamlParseError msg => s "YAML Parsing Error in " ++ file_path ++ s ": " ++ msg
  | IncompleteBashBlock => s "Validation Error: Incomplete bash block in " ++ file_path
  | MissingBlockName =>
      s "Validation Error: Bash block missing 'name=' attribute in " ++ file_path
  | DuplicateBlockName block_name =>
      s "Validation Error: Duplicate bash block name '" ++ block_name ++ s "' in "
      ++ file_path
  | StrayContent UnexpectedSegment =>
      s "Validation Error: Found non-bash code fence or unexpected content in "
      ++ file_path
  | NoExecutableBlocks => s "Validation Error: No bash code blocks found in " ++ file_path
  end.

(** The lines of the compiled script, before they are joined. *)
Definition script_content (bash_blocks : list str) : list str :=
  [s "#!/bin/bash"; s "set -euxo pipefail"; []]
  ++ flat_map (fun block => [block; []]) bash_blocks.

Definition script_text (bash_blocks : list str) : str :=
  join_lines (script_content bash_blocks).

Definition script_path (slash_name : str) : Path.t :=
  Path.join TEMP_DIR (Path.of_str (slash_name ++ s ".sh")).

Definition compile_script (slash_name : str) (bash_blocks : list str) : M Path.t :=
  let compiled_script_path := script_path slash_name in
  run write_file compiled_script_path (script_text bash_blocks) then
  run chmod compiled_script_path 493 then
  ret compiled_script_path.

Definition docker_cmd (cwd : Path.t) (image : str) (compiled_script_path : Path.t)
    : list str :=
  [ s "docker"; s "run"; s "--rm";
    s "-v"; Path.to_str cwd ++ s ":/src:ro";
    s "-v"; Path.to_str (Path.join cwd (Path.of_str (s ".out"))) ++ s ":/out";
    s "-w"; s "/src";
    s "--entrypoint"; s "/bin/sh";
    image;
    s "/tmp/" ++ Path.name compiled_script_path ].

Definition log_path (slash_name : str) : Path.t :=
  Path.join LOG_DIR (Path.of_str (slash_name ++ s ".log")).

Definition missing_line (output : str) : str :=
  s "Output Verification Failed: Declared output '" ++ output ++ s "' does not exist.".

Definition verified_line (output : str) : str :=
  s "Output Verified: '" ++ output ++ s "' exists.".

(** The [for output in outputs] loop; the flag is [all_outputs_exist]. *)
Fixpoint verify_outputs (outputs : list str) (all_outputs_exist : bool) : M bool :=
  match outputs with
  | [] => ret all_outputs_exist
  | output :: rest =>
      let* present := path_exists (Path.of_str output) in
      if negb present then
        run print (missing_line output) then
        verify_outputs rest false
      else
        run print (verified_line output) then
        verify_outputs rest all_outputs_exist
  end.

Section Tool.
Context {Y Schema : Type}.
(** [yaml.safe_load] and [jsonschema.validate] (the text of the
    exception when one is raised). *)
Variable safe_load : str -> str + Y.
Variable validate : Y -> Schema -> option str.
(** The subscripts [front_matter['slash']], [['image']] and
    [['outputs']]; [None] when the subscript raises. *)
Variable slash_of image_of : Y -> option str.
Variable outputs_of : Y -> option (list str).
(** The container runtime, started by [subprocess.run]: from the
    argument vector and the file system to the exit code, the combined
    output and the file system it leaves; [None] when the executable is
    not on the search path. *)
Variable runtime : list str -> gmap str node -> option (Z * str * gmap str node).

Definition parse_markdown (file_path : Path.t) : M (Y * list str) :=
  let* content := read_text file_path in
  match parse_text safe_load content with
  | inl e =>
      run print (parse_message e (Path.to_str file_path)) then
      sys_exit 1
  | inr r => ret r
  end.

Definition validate_front_matter (data : Y) (schema : Schema) : M unit :=
  match validate data schema with
  | Some e =>
      run print (s "Schema Validation Error: " ++ e) then
      sys_exit 1
  | None => ret tt
  end.

(** [subprocess.run(argv, check=True, stdout=log, stderr=STDOUT)] with
    [log] the open log file: what the process prints becomes the content
    of the log, whose mode stays what it was when the log was opened. *)
Definition subprocess_run (argv : list str) (log_file : Path.t) : M unit :=
  fun w =>
    match runtime argv (fs w) with
    | None => (Raise FileNotFoundError, w)
    | Some (returncode, output, fs') =>
        let w' := set_fs w (<[key w log_file := File output (mode_of w log_file)]> fs') in
        if (returncode =? 0)%Z then (Ret tt, w')
        else (Raise (CalledProcessError returncode), w')
    end.

Definition run_docker (image : str) (compiled_script_path : Path.t)
    (slash_name : str) (outputs : list str) : M unit :=
  run print (s "--- Running /" ++ slash_name ++ s " in Docker ---") then
  run mkdir_exist_ok (Path.of_str (s ".out")) then
  let* here := get_cwd in
  let log_file := log_path slash_name in
  try_except
    (run write_file log_file [] then
     run subprocess_run (docker_cmd here image compiled_script_path) log_file then
     run print (s "Docker run successful. Logs written to " ++ Path.to_str log_file) then
     run print (s "--- Verifying Outputs ---") then
     let* all_outputs_exist := verify_outputs outputs true in
     if negb all_outputs_exist then
       run print (s "Error: One or more declared outputs are missing for /"
                  ++ slash_name ++ s ".") then
       sys_exit 1
     else ret tt)
    (fun e =>
       match e with
       | CalledProcessError returncode =>
           Some (run print (s "Docker run failed for /" ++ slash_name
                            ++ s ". Exit code: " ++ decimal returncode) then
                 run print (s "Check logs at " ++ Path.to_str log_file
                            ++ s " for details.") then
                 sys_exit returncode)
       | FileNotFoundError =>
           Some (run print (s "Error: 'docker' command not found. Is Docker installed and in your PATH?") then
                 sys_exit 1)
       | _ => None
       end).

Definition subscript {A} (v : option A) : M A :=
  match v with
  | Some a => ret a
  | None => raise LookupError
  end.

Definition handle_file (file_path : Path.t) (schema : Schema) (mode : str) : M unit :=
  run print (s "Processing file: " ++ Path.to_str file_path
             ++ s " (Mode: " ++ mode ++ s ")") then
  let* (front_matter, bash_blocks) := parse_markdown file_path in
  run validate_front_matter front_matter schema then
  if bool_decide (mode = s "validate") then
    print (s "Validation successful for " ++ Path.to_str file_path ++ s ".")
  else
    let* slash_name := subscript (slash_of front_matter) in
    let* image := subscript (image_of front_matter) in
    let* outputs := subscript (outputs_of front_matter) in
    let* compiled_script_path := compile_script slash_name bash_blocks in
    run run_docker image compiled_script_path slash_name outputs then
    run unlink compiled_script_path then
    print (s "Execution of /" ++ slash_name ++ s " completed successfully.").
End Tool.

(** ** Vocabulary of the properties *)

(** [open(p, 'w')] succeeds: [p] is a file, or is absent from a directory
    that is there. *)
Definition writable (w : world) (p : Path.t) : Prop :=
  match fs w !! key w p with
  | Some (File _ _) => True
  | Some Dir => False
  | None => is_dir w (Path.parent p) = true
  end.

(** The file system once [open(p, 'w')] has created or emptied [p]. *)
Definition truncated (w : world) (p : Path.t) : gmap str node :=
  <[key w p := File [] (match fs w !! key w p with
                        | Some (File _ mode) => mode
                        | _ => default_mode
                        end)]> (fs w).

(** [x] is a path without a [..] component: its key names the file the
    operating system reaches (links apart). *)
Definition no_dotdot (x : str) : Prop :=
  Forall (fun component => component <> s "..") (Path.components x).

(** Whether [output] is on the file system [f] of a process whose
    working directory is that of [w]. *)
Definition present (w : world) (f : gmap str node) (output : str) : bool :=
  bool_decide (is_Some (f !! key w (Path.of_str output))).

(** The compiled script as the specification words it: the two-line
    preamble, then every body in order, each after a blank line. *)
Definition spec_script (bodies : list str) : str :=
  s "#!/bin/bash" ++ nl :: s "set -euxo pipefail" ++ nl ::
  concat (map (fun body => nl :: body ++ [nl]) bodies).

(** [lines l]: the text whose lines are [l], each ended by a newline. *)
Definition lines (l : list string) : str :=
  concat (map (fun x => s x ++ [nl]) l).

(** A command name with no [/] in it. *)
Definition simple_name (x : str) : Prop :=
  Forall (fun c => c <> Path.slash) x.

(** ** Documents of the documented shape

    A front-matter block between two [---] lines, then fenced blocks;
    blank lines and indentation are allowed around the content. *)

Definition spaces (w : str) : Prop := Forall (fun c => is_space c = true) w.

Definition no_nl (x : str) : Prop := Forall (fun c => is_nl c = false) x.

(** Text that does not start with white space. *)
Definition headed (t : str) : Prop :=
  match t with
  | [] => True
  | c :: _ => is_space c = false
  end.

(** Nothing, or text that starts a line: it ends with a newline. *)
Definition ends_line (w : str) : Prop := w = [] \/ exists v, w = v ++ [nl].

Module Doc.

(** A line of content, with the white space before it (blank lines and
    indentation). *)
Record line : Type := mk_line { lead : str; text : str }.

Definition render_line (l : line) : str := lead l ++ text l ++ [nl].

Definition render_lines (ls : list line) : str := concat (map render_line ls).

(** The white space after a closing marker: the rest of its line and
    the blank lines below it. *)
Record gap : Type := mk_gap { rest_of_line : str; blank_lines : str }.

Definition render_gap (g : gap) : str := rest_of_line g ++ nl :: blank_lines g.

Record fence : Type := mk_fence {
  header : str;       (* the opening line after the three backticks *)
  body : list line;
  indent : str;       (* white space before the closing backticks *)
  after : gap
}.

(** What stands between the opening and the closing backticks. *)
Definition inner (f : fence) : str := header f ++ nl :: render_lines (body f).

Definition render_fence (f : fence) : str :=
  ticks ++ inner f ++ indent f ++ ticks ++ render_gap (after f).

Definition render_fences (fs : list fence) : str := concat (map render_fence fs).

Record t : Type := mk { yaml : list line; fm_after : gap; fences : list fence }.

Definition front_matter (d : t) : str :=
  dashes ++ nl :: render_lines (yaml d) ++ dashes ++ render_gap (fm_after d).

Definition render (d : t) : str := front_matter d ++ render_fences (fences d).

(** A content line has a visible first character, holds no newline and
    does not start with [---] or three backticks. *)
Definition line_ok (l : line) : Prop :=
  spaces (lead l) /\ no_nl (text l)
  /\ (exists c u, text l = c :: u /\ is_space c = false)
  /\ startswith dashes (text l) = false
  /\ startswith ticks (text l) = false.

Definition gap_ok (g : gap) : Prop :=
  spaces (rest_of_line g) /\ no_nl (rest_of_line g)
  /\ spaces (blank_lines g) /\ ends_line (blank_lines g).

Definition fence_ok (f : fence) : Prop :=
  no_nl (header f) /\ Forall line_ok (body f) /\ spaces (indent f)
  /\ gap_ok (after f).

(** The front matter has a first line right below the opening [---]. *)
Definition yaml_ok (ls : list line) : Prop :=
  Forall line_ok ls
  /\ match ls with l :: _ => no_nl (lead l) | [] => False end.

Definition ok (d : t) : Prop :=
  yaml_ok (yaml d) /\ gap_ok (fm_after d) /\ Forall fence_ok (fences d).

(** A bash fence [```bash name=<name><attrs>]. *)
Record named : Type := mk_named {
  name : str;
  attrs : str;
  nbody : list line;
  nindent : str;
  nafter : gap
}.

Definition bash_header (n : named) : str := s "bash name=" ++ name n ++ attrs n.

Definition to_fence (n : named) : fence :=
  mk_fence (bash_header n) (nbody n) (nindent n) (nafter n).

(** The name is a run of word characters and what follows it on the
    line, if anything, starts with another character. *)
Definition named_ok (n : named) : Prop :=
  name n <> [] /\ Forall (fun c => is_word c = true) (name n)
  /\ no_nl (attrs n)
  /\ match attrs n with [] => True | c :: _ => is_word c = false end
  /\ Forall line_ok (nbody n) /\ spaces (nindent n) /\ gap_ok (nafter n).

(** The body of a fence as the specification means it: its inner text,
    trimmed. *)
Definition body_text (n : named) : str := strip (render_lines (nbody n)).

(** A front-matter block followed by named bash fences. *)
Definition named_doc (ys : list line) (g : gap) (ns : list named) : t :=
  mk ys g (map to_fence ns).

(** The segments [re.split] finds from the first fence on. *)
Fixpoint segments (fs : list fence) : list str :=
  match fs with
  | [] => []
  | f :: fs' =>
      inner f
      :: match fs' with
         | [] => render_gap (after f)
         | _ => rest_of_line (after f) ++ [nl]
         end
      :: segments fs'
  end.

End Doc.

(** [bol_after b x]: whether the position after [x] starts a line, when
    the position before [x] does ([b]). *)
Fixpoint bol_after (b : bool) (x : str) : bool :=
  match x with
  | [] => b
  | c :: x' => bol_after (is_nl c) x'
  end.

(** [x ++ rest] is scanned through [x] without a match of [f]. *)
Fixpoint inert {A} (f : bool -> str -> option A) (b : bool) (x rest : str) : Prop :=
  match x with
  | [] => True
  | c :: x' => f b (x ++ rest) = None /\ inert f (is_nl c) x' rest
  end.

(** After its leading white space, [t] does not go on with [m]. *)
Definition stops (m t : str) : Prop := startswith m (drop_ws t) = false.

(** Neither of the two markers of [marker_re] is at the head of [t]. *)
Definition unmarked (t : str) : Prop :=
  startswith dashes t = false /\ stops ticks t.

(** What follows the last newline of [v], if [v] has one. *)
Fixpoint after_last_nl (v : str) : option str :=
  match v with
  | [] => None
  | c :: v' =>
      match after_last_nl v' with
      | Some r => Some r
      | None => if is_nl c then Some v' else None
      end
  end.

(** The end of both block patterns: [^\s*m\s*]. *)
Definition closer (m : str) : regex :=
  Seq Bol (Seq (Star true is_space) (Seq (lit m) (Star true is_space))).

(** What is left of the pattern while [.*?] looks for the closing
    marker. *)
Definition closing (m : str) (b : bool) (t : str) : option (str * list str) :=
  rmatch (closer m) b t [] (fun _ t' g => Some (t', g)).

Definition prepend (x : str) (l : list str) : list str :=
  match l with
  | h :: rest => (x ++ h) :: rest
  | [] => [x]
  end.

Fixpoint take_while (p : ascii -> bool) (t : str) : str :=
  match t with
  | c :: t' => if p c then c :: take_while p t' else []
  | [] => []
  end.

Fixpoint drop_while (p : ascii -> bool) (t : str) : str :=
  match t with
  | c :: t' => if p c then drop_while p t' else t
  | [] => []
  end.

(** What the segment walk comes to on named bash fences: the names are
    collected until one repeats, and every body found is empty. *)
Fixpoint walk_names (names : gset str) (blocks : list str) (ns : list Doc.named)
    : parse_error + (gset str * list str) :=
  match ns with
  | [] => inr (names, blocks)
  | n :: ns' =>
      if decide (Doc.name n ∈ names)
      then inl (DuplicateBlockName (Doc.name n))
      else walk_names ({[Doc.name n]} ∪ names) (blocks ++ [[]]) ns'
  end.

(** The extracted name of a bash block: a non-empty run of [\w]. *)
Definition word_name (x : str) : Prop :=
  x <> [] /\ Forall (fun c => is_word c = true) x.

(** A character of the ASCII range. *)
Definition is_ascii (c : ascii) : bool := (N_of_ascii c <? 128)%N.

Definition ascii_name (x : str) : Prop :=
  x <> [] /\ Forall (fun c => is_ascii_word c = true) x.

(** [name=] followed by a word character stands somewhere in [t]. *)
Fixpoint mentions_name (t : str) : bool :=
  match t with
  | [] => false
  | c :: t' =>
      (startswith (s "name=") t
       && match skipn 5 t with d :: _ => is_word d | [] => false end)
      || mentions_name t'
  end.

(** ** Fenced blocks the segment walk takes

    A bash fence with a name, or a fence the walk passes over: one whose
    text starts with [yaml], or an empty one. *)

Module Block.

(** A bash fence whose opening line reads
    [bash<before>name=<name><attrs>]. *)
Record bash : Type := mk_bash {
  before : str;
  name : str;
  attrs : str;
  body : list Doc.line;
  indent : str;
  after : Doc.gap
}.

Definition header (b : bash) : str :=
  s "bash" ++ before b ++ s "name=" ++ name b ++ attrs b.

(** The name is a run of word characters; no [name=] before it on the
    opening line is followed by a word character; what follows it on
    the line, if anything, starts with another character. *)
Definition bash_ok (b : bash) : Prop :=
  word_name (name b)
  /\ no_nl (before b)
  /\ mentions_name (s "bash" ++ before b ++ s "name=") = false
  /\ no_nl (attrs b)
  /\ match attrs b with [] => True | c :: _ => is_word c = false end
  /\ Forall Doc.line_ok (body b) /\ spaces (indent b) /\ Doc.gap_ok (after b).

(** The text between the backticks of a fence, trimmed. *)
Definition label (f : Doc.fence) : str := strip (Doc.inner f).

(** A fence the walk passes over. *)
Definition passed (f : Doc.fence) : Prop :=
  startswith (s "yaml") (label f) = true \/ label f = [].

(** A fence whose text is not empty and starts with neither [yaml] nor
    [bash]. *)
Definition stray (f : Doc.fence) : Prop :=
  label f <> []
  /\ startswith (s "yaml") (label f) = false
  /\ startswith (s "bash") (label f) = false.

Inductive t : Type :=
| Bash (b : bash)
| Passed (f : Doc.fence).

Definition to_fence (x : t) : Doc.fence :=
  match x with
  | Bash b => Doc.mk_fence (header b) (body b) (indent b) (after b)
  | Passed f => f
  end.

Definition ok (x : t) : Prop :=
  match x with
  | Bash b => bash_ok b
  | Passed f => Doc.fence_ok f /\ passed f
  end.

(** The names of the bash fences, in the order of the document. *)
Definition names (xs : list t) : list str :=
  flat_map (fun x => match x with Bash b => [name b] | Passed _ => [] end) xs.

End Block.

(** What the segment walk comes to on the names of the bash fences: they
    are collected until one repeats, and every body found is empty. *)
Fixpoint collect (names : gset str) (blocks : list str) (l : list str)
    : parse_error + (gset str * list str) :=
  match l with
  | [] => inr (names, blocks)
  | n :: l' =>
      if decide (n ∈ names)
      then inl (DuplicateBlockName n)
      else collect ({[n]} ∪ names) (blocks ++ [[]]) l'
  end.

(** ** Sample runs *)

Module Demo.
(** A loader that takes every text (the front matter of the samples
    below is valid YAML); the loaded value is the text. *)
Definition load (t : str) : str + str := inr t.

Definition plain (x : string) : Doc.line := Doc.mk_line [] (s x).

Definition no_gap : Doc.gap := Doc.mk_gap [] [].

Definition block (name : str) (body : list string) : Doc.named :=
  Doc.mk_named name [] (map plain body) [] no_gap.

Definition meta : list Doc.line :=
  [plain "slash: foo"; plain "image: alpine:3"; plain "outputs: [out.txt]"].

Definition meta_text : str :=
  lines ["slash: foo"; "image: alpine:3"; "outputs: [out.txt]"].

(** Two blocks, [a] and [b]. *)
Definition two_blocks : list Doc.named :=
  [block (s "a") ["echo a"]; block (s "b") ["echo b"]].

Definition two_blocks_text : str :=
  lines ["---"; "slash: foo"; "image: alpine:3"; "outputs: [out.txt]"; "---";
         "```bash name=a"; "echo a"; "```";
         "```bash name=b"; "echo b"; "```"].

(** A block named with a letter outside ASCII: [caf] and U+00E9. *)
Definition cafe : str := s "caf" ++ [ascii_of_nat 233].

Definition accented_text : str :=
  lines ["---"; "slash: foo"; "image: alpine:3"; "outputs: [out.txt]"; "---"]
  ++ (s "```bash name=" ++ cafe ++ [nl])
  ++ lines ["echo a"; "```"].

(** A bash block and a fenced block tagged [yamllint]. *)
Definition other_tag_text : str :=
  lines ["---"; "slash: foo"; "image: alpine:3"; "outputs: [out.txt]"; "---";
         "```bash name=a"; "echo a"; "```";
         "```yamllint"; "rules: {}"; "```"].


(** A paragraph behind the two blocks. *)
Definition stray_text : str := two_blocks_text ++ lines ["Some notes."].


(** A paragraph behind a bash fence; a [---] line stands before the
    fence and another behind the paragraph. *)
Definition dashed_notes_text : str :=
  lines ["---"; "slash: foo"; "image: alpine:3"; "outputs: [out.txt]"; "---";
         "---";
         "```bash name=a"; "```";
         "Some notes.";
         "---"].

(** A fenced block tagged [yaml]. *)
Definition yaml_fence : Doc.fence :=
  Doc.mk_fence (s "yaml") [plain "b: 2"] [] no_gap.

(** A bash fence with an attribute before its name and one behind. *)
Definition build : Block.bash :=
  Block.mk_bash (s " timeout=5 ") (s "build") (s " shell=sh") [plain "make"] []
    no_gap.

(** A fence with text but no tag. *)
Definition untagged_fence : Doc.fence :=
  Doc.mk_fence [] [plain "print(1)"] [] no_gap.

(** The three of them, the fence without a tag last. *)
Definition untagged_text : str :=
  lines ["---"; "slash: foo"; "image: alpine:3"; "outputs: [out.txt]"; "---";
         "```yaml"; "b: 2"; "```";
         "```bash timeout=5 name=build shell=sh"; "make"; "```";
         "```"; "print(1)"; "```"].







(** No front matter: bash fences only. *)
Definition fences_only_text : str :=
  lines ["```bash name=a"; "echo a"; "```";
         "```bash name=b"; "echo b"; "```"].

Definition here : Path.t := Path.of_str (s "/work").

(** A working directory with [.out], [.out/logs] and [.out/tmp]. *)
Definition disk : gmap str node :=
  <[s "/work/.out/tmp" := Dir]>
    (<[s "/work/.out/logs" := Dir]>
       (<[s "/work/.out" := Dir]> (<[s "/work" := Dir]> ∅))).

Definition start : world := mkWorld here disk [].

(** A runtime that exits with [code] after creating [/work/b]. *)
Definition runtime (code : Z) (argv : list str) (f : gmap str node)
    : option (Z * str * gmap str node) :=
  Some (code, s "ran", <[s "/work/b" := File (s "data") default_mode]> f).

Definition script : Path.t := script_path (s "foo").

(** The words of a command line, separated by spaces. *)
Fixpoint spaced (words : list str) : str :=
  match words with
  | [] => []
  | [x] => x
  | x :: rest => x ++ s " " ++ spaced rest
  end.

(** A runtime that prints the command line it is started with and
    exits with code 0. *)
Definition echo (argv : list str) (f : gmap str node)
    : option (Z * str * gmap str node) :=
  Some (0%Z, spaced argv, f).
End Demo.

(** ** Proof automation *)

(** Brings nested appends to one shape. *)
Ltac assoc :=
  repeat first [rewrite <- app_assoc | progress cbn [app]]; try reflexivity.

(** Closes the goals about what a run leaves unchanged. *)
Ltac frame_done :=
  repeat split;
  try reflexivity;
  try (eexists; rewrite <- ?app_assoc; reflexivity);
  auto.

(** Checks that a sample document has the documented shape. *)
Ltac shape :=
  repeat first
    [ exact I
    | reflexivity
    | discriminate
    | apply List.Forall_nil
    | apply List.Forall_cons
    | apply List.NoDup_nil
    | apply List.NoDup_cons
    | split
    | (left; reflexivity)
    | (do 2 eexists; split; reflexivity)
    | (cbn; intuition discriminate) ].


(** ** Start of the program *)

(** [os.mkdir(p)] *)
Definition os_mkdir (p : Path.t) : M unit :=
  fun w =>
    match fs w !! key w p with
    | Some _ => (Raise FileExistsError, w)
    | None =>
        match fs w !! key w (Path.parent p) with
        | Some Dir => (Ret tt, set_fs w (<[key w p := Dir]> (fs w)))
        | Some (File _ _) => (Raise NotADirectoryError, w)
        | None => (Raise FileNotFoundError, w)
        end
    end.

(** [p.mkdir(parents=True, exist_ok=True)] for the path [p] with the
    root [root] and the components [rev up], as [pathlib] has it: on
    [FileNotFoundError] the directory above is made first, unless [p] is
    its own parent, and [p.mkdir(exist_ok=True)] is tried again; on
    another error a directory that is already there is accepted. *)
Fixpoint mkdir_parents (root : str) (up : list str) : M unit :=
  fun w =>
    let p := Path.mk root (rev up) in
    match os_mkdir p w with
    | (Raise FileNotFoundError, w') =>
        match up with
        | [] => (Raise FileNotFoundError, w')
        | _ :: up' => (run mkdir_parents root up' then mkdir_exist_ok p) w'
        end
    | (Raise e, w') => if is_dir w' p then (Ret tt, w') else (Raise e, w')
    | r => r
    end.

(** [LOG_DIR.mkdir(parents=True, exist_ok=True)], run when the module is
    loaded. *)
Definition startup : M unit :=
  mkdir_parents (Path.root LOG_DIR) (rev (Path.parts LOG_DIR)).

(** ** Schema loader and command line *)

Definition SCHEMA_PATH : Path.t :=
  Path.of_str (s "tools/schemas/command.schema.json").

(** What [parser.parse_args()] hands to [main]: the sub-command and its
    paths. *)
Inductive arguments : Type :=
| ValidateCommand (files : list Path.t)
| RunCommand (file : Path.t).

Definition not_found_line (file_path : Path.t) : str :=
  s "Error: File not found: " ++ Path.to_str file_path.

Section CommandLine.
Context {Y Schema : Type}.
(** [json.load]: the schema, or the exception it raises. *)
Variable json_load : str -> exn + Schema.
Variable safe_load : str -> str + Y.
Variable validate : Y -> Schema -> option str.
Variable slash_of image_of : Y -> option str.
Variable outputs_of : Y -> option (list str).
Variable runtime : list str -> gmap str node -> option (Z * str * gmap str node).

Definition load_schema : M Schema :=
  let* found := path_exists SCHEMA_PATH in
  if negb found then
    run print (s "Error: Schema file not found at " ++ Path.to_str SCHEMA_PATH) then
    sys_exit 1
  else
    let* text := read_text SCHEMA_PATH in
    match json_load text with
    | inl e => raise e
    | inr schema => ret schema
    end.

(** The [for file_path in args.files] loop. *)
Fixpoint validate_files (files : list Path.t) (schema : Schema) : M unit :=
  match files with
  | [] => ret tt
  | file_path :: rest =>
      let* found := path_exists file_path in
      if negb found then
        run print (not_found_line file_path) then
        sys_exit 1
      else
        run handle_file safe_load validate slash_of image_of outputs_of runtime
              file_path schema (s "validate") then
        validate_files rest schema
  end.

Definition main (args : arguments) : M unit :=
  let* schema := load_schema in
  match args with
  | ValidateCommand files =>
      run validate_files files schema then
      print (nl :: s "All files validated successfully.")
  | RunCommand file =>
      let* found := path_exists file in
      if negb found then
        run print (not_found_line file) then
        sys_exit 1
      else
        handle_file safe_load validate slash_of image_of outputs_of runtime
          file schema (s "run")
  end.

(** The program: the module is loaded, then [main] runs on the parsed
    arguments. *)
Definition program (args : arguments) : M unit :=
  run startup then main args.
End CommandLine.

(** ** Vocabulary of the further properties *)

(** Text with no white space at either end. *)
Definition trimmed (b : str) : Prop := headed b /\ headed (rev b).

(** The texts the tool prints. *)
Definition processing_line (file_path : Path.t) (mode : str) : str :=
  s "Processing file: " ++ Path.to_str file_path ++ s " (Mode: " ++ mode ++ s ")".

Definition valid_line (file_path : Path.t) : str :=
  s "Validation successful for " ++ Path.to_str file_path ++ s ".".

Definition running_line (slash_name : str) : str :=
  s "--- Running /" ++ slash_name ++ s " in Docker ---".

Definition no_docker_line : str :=
  s "Error: 'docker' command not found. Is Docker installed and in your PATH?".

Definition success_line (slash_name : str) : str :=
  s "Docker run successful. Logs written to " ++ Path.to_str (log_path slash_name).

Definition verifying_line : str := s "--- Verifying Outputs ---".

Definition failed_line (slash_name : str) (returncode : Z) : str :=
  s "Docker run failed for /" ++ slash_name ++ s ". Exit code: " ++ decimal returncode.

Definition check_logs_line (slash_name : str) : str :=
  s "Check logs at " ++ Path.to_str (log_path slash_name) ++ s " for details.".

Definition completed_line (slash_name : str) : str :=
  s "Execution of /" ++ slash_name ++ s " completed successfully.".

Definition no_schema_line : str :=
  s "Error: Schema file not found at " ++ Path.to_str SCHEMA_PATH.

Definition all_valid_line : str := nl :: s "All files validated successfully.".

(** What the validate command prints for files that are all valid. *)
Definition validation_report (files : list Path.t) : list str :=
  flat_map (fun file_path => [processing_line file_path (s "validate");
                              valid_line file_path]) files.

(** The world after the texts [out] have been printed. *)
Definition having_printed (w : world) (out : list str) : world :=
  mkWorld (cwd w) (fs w) (stdout w ++ out).

(** The world once [compile_script] has written the script. *)
Definition compiled (w : world) (slash_name : str) (bash_blocks : list str) : world :=
  set_fs w (<[key w (script_path slash_name)
              := File (script_text bash_blocks) 493]> (fs w)).

(** The file system the container is started on: the script is written
    and the log file is open. *)
Definition at_start (w : world) (slash_name : str) (bash_blocks : list str)
    : gmap str node :=
  truncated (compiled w slash_name bash_blocks) (log_path slash_name).

(** The file system once the runtime has returned and the log is closed. *)
Definition logged (w : world) (slash_name output : str) (fs' : gmap str node)
    : gmap str node :=
  <[key w (log_path slash_name)
    := File output (mode_of w (log_path slash_name))]> fs'.

(** Nothing, or a directory, is at [p]. *)
Definition absent_or_dir (w : world) (p : Path.t) : Prop :=
  match fs w !! key w p with
  | Some (File _ _) => False
  | _ => True
  end.

(** The scratch and log files of the command can be opened for writing
    and [.out] is a directory. *)
Definition ready_to_run (w : world) (slash_name : str) : Prop :=
  simple_name slash_name
  /\ writable w (script_path slash_name)
  /\ is_dir w (Path.of_str (s ".out")) = true
  /\ writable w (log_path slash_name).

Section Documents.
Context {Y Schema : Type}.
Variable json_load : str -> exn + Schema.
Variable safe_load : str -> str + Y.
Variable validate : Y -> Schema -> option str.
Variable slash_of image_of : Y -> option str.
Variable outputs_of : Y -> option (list str).

(** The document at [file_path] is a file whose text parses and whose
    front matter passes the schema. *)
Definition valid_document (schema : Schema) (w : world) (file_path : Path.t) : Prop :=
  exists content mode front_matter bash_blocks,
    fs w !! key w file_path = Some (File content mode)
    /\ parse_text safe_load (text_mode content) = inr (front_matter, bash_blocks)
    /\ validate front_matter schema = None.

(** A valid document with the blocks [bash_blocks] whose front matter
    names the command, the image and the outputs. *)
Definition runnable_document (schema : Schema) (w : world) (file_path : Path.t)
    (slash_name image : str) (outputs bash_blocks : list str) : Prop :=
  exists content mode front_matter,
    fs w !! key w file_path = Some (File content mode)
    /\ parse_text safe_load (text_mode content) = inr (front_matter, bash_blocks)
    /\ validate front_matter schema = None
    /\ slash_of front_matter = Some slash_name
    /\ image_of front_matter = Some image
    /\ outputs_of front_matter = Some outputs.

(** The schema file is a file that holds the schema [schema]. *)
Definition schema_on_disk (w : world) (schema : Schema) : Prop :=
  exists text mode,
    fs w !! key w SCHEMA_PATH = Some (File text mode)
    /\ json_load (text_mode text) = inr schema.
End Documents.

(** ** Sample command *)

Module Sample.
(** The front matter of the samples, read by hand. *)
Definition slash_of (front_matter : str) : option str := Some (s "foo").
Definition image_of (front_matter : str) : option str := Some (s "alpine:3").
Definition outputs_of (front_matter : str) : option (list str) := Some [s "out.txt"].

Definition json_load (text : str) : exn + unit := inr tt.
Definition validate (front_matter : str) (schema : unit) : option str := None.

Definition document : Path.t := Path.of_str (s "commands/foo.md").

(** The working directory of [Demo], with the schema and a command
    file. *)
Definition disk : gmap str node :=
  <[s "/work/commands/foo.md" := File Demo.two_blocks_text default_mode]>
    (<[s "/work/tools/schemas/command.schema.json" := File (s "{}") default_mode]>
       Demo.disk).

Definition start : world := mkWorld Demo.here disk [].


(** A runtime that exits with [code] after creating [/work/out.txt]. *)
Definition runtime (code : Z) (argv : list str) (f : gmap str node)
    : option (Z * str * gmap str node) :=
  Some (code, s "ran", <[s "/work/out.txt" := File (s "data") default_mode]> f).

(** A runtime that is killed (signal 9). *)
Definition killed (argv : list str) (f : gmap str node)
    : option (Z * str * gmap str node) := Some ((-9)%Z, s "Killed", f).

(** No container runtime on the search path. *)
Definition no_runtime (argv : list str) (f : gmap str node)
    : option (Z * str * gmap str node) := None.


(** Nothing but the working directory. *)
Definition bare : world := mkWorld Demo.here (<[s "/work" := Dir]> ∅) [].

(** A loader that refuses every text. *)
Definition refuse (t : str) : str + str := inl (s "could not find expected ':'").

(** A front matter without the three keys. *)
Definition no_key (front_matter : str) : option str := None.

Definition notes_text : str := lines ["Some notes."; "More notes."].

Definition unclosed_text : str := lines ["---"; "slash: foo"].

Definition empty_front_matter_text : str :=
  lines ["---"; "---"; "```bash name=a"; "echo a"; "```"].

Definition yaml_fence : Doc.fence :=
  Doc.mk_fence (s "yaml") [Demo.plain "b: 2"] [] Demo.no_gap.

Definition yaml_only_text : str :=
  lines ["---"; "slash: foo"; "image: alpine:3"; "outputs: [out.txt]"; "---";
         "```yaml"; "b: 2"; "```"].

Definition unnamed_fence : Doc.fence :=
  Doc.mk_fence (s "bash") [Demo.plain "echo b"] [] Demo.no_gap.

Definition unnamed_text : str :=
  lines ["---"; "slash: foo"; "image: alpine:3"; "outputs: [out.txt]"; "---";
         "```bash name=a"; "echo a"; "```";
         "```bash"; "echo b"; "```"].

Definition notes_first_text : str := lines ["Some notes."] ++ Demo.two_blocks_text.

Definition missing : Path.t := Path.of_str (s "commands/bar.md").
End Sample.

(** Settles a goal about a sample by evaluation. *)
Ltac evaluated :=
  repeat first
    [ (vm_compute; reflexivity)
    | (vm_compute; exact I)
    | split ].

(** Settles that a sample name holds no [/]. *)
Ltac no_slash := repeat constructor; discriminate.

(** * Properties *)

(** ** Characters and text *)

Lemma is_nl_eq (c : ascii) : is_nl c = true -> c = nl.
Proof. unfold is_nl. apply Ascii.eqb_eq. Qed.

Lemma nl_is_space (c : ascii) : is_nl c = true -> is_space c = true.
Proof. intros H. apply is_nl_eq in H. now subst. Qed.

Lemma not_space_not_nl (c : ascii) : is_space c = false -> is_nl c = false.
Proof.
  intros H. destruct (is_nl c) eqn:E; [|reflexivity].
  apply nl_is_space in E. congruence.
Qed.

Lemma word_not_space (c : ascii) : is_word c = true -> is_space c = false.
Proof.
  destruct c as [b0 b1 b2 b3 b4 b5 b6 b7].
  destruct b0, b1, b2, b3, b4, b5, b6, b7; vm_compute; congruence.
Qed.

Lemma ascii_word_is_word (c : ascii) : is_ascii_word c = true -> is_word c = true.
Proof.
  unfold is_ascii_word, is_word. intros H.
  rewrite !orb_true_iff in *. tauto.
Qed.

Lemma spaces_app (v w : str) : spaces v -> spaces w -> spaces (v ++ w).
Proof. intros Hv Hw. apply Forall_app. now split. Qed.

Lemma no_nl_app (v w : str) : no_nl v -> no_nl w -> no_nl (v ++ w).
Proof. intros Hv Hw. apply Forall_app. now split. Qed.

Lemma drop_ws_spaces (w t : str) : spaces w -> drop_ws (w ++ t) = drop_ws t.
Proof.
  induction 1 as [|c w Hc _ IH]; [reflexivity|].
  cbn. now rewrite Hc.
Qed.

Lemma drop_ws_all (w : str) : spaces w -> drop_ws w = [].
Proof. intros H. rewrite <- (app_nil_r w). now rewrite drop_ws_spaces. Qed.

Lemma drop_ws_headed (c : ascii) (u : str) :
  is_space c = false -> drop_ws (c :: u) = c :: u.
Proof. intros H. cbn. now rewrite H. Qed.

(** [drop_ws] cuts a run of white space off the front. *)
Lemma drop_ws_split (t : str) : exists w, spaces w /\ t = w ++ drop_ws t.
Proof.
  induction t as [|c t (w & Hw & E)].
  { exists []. split; [constructor|reflexivity]. }
  cbn. destruct (is_space c) eqn:Hc.
  - exists (c :: w). split; [now constructor|]. cbn. now rewrite <- E.
  - exists []. split; [constructor|reflexivity].
Qed.

Lemma drop_ws_head (t : str) :
  match drop_ws t with [] => True | c :: _ => is_space c = false end.
Proof.
  induction t as [|c t IH]; [exact I|].
  cbn. destruct (is_space c) eqn:Hc; [exact IH|exact Hc].
Qed.

Lemma drop_ws_app_headed (x y : str) :
  drop_ws x <> [] -> drop_ws (x ++ y) = drop_ws x ++ y.
Proof.
  induction x as [|c x IH]; [now intros []|].
  cbn. destruct (is_space c); [exact IH|reflexivity].
Qed.

Lemma strip_rstrip (t : str) : strip t = rstrip (drop_ws t).
Proof. reflexivity. Qed.

(** [rstrip] cuts a run of white space off the end. *)
Lemma rstrip_split (t : str) : exists w, spaces w /\ t = rstrip t ++ w.
Proof.
  unfold rstrip. destruct (drop_ws_split (rev t)) as (w & Hw & E).
  exists (rev w). split.
  - apply Forall_rev. exact Hw.
  - rewrite <- rev_app_distr, <- E. now rewrite rev_involutive.
Qed.

Lemma rstrip_app (a u : str) (c : ascii) :
  is_space c = false -> rstrip (a ++ c :: u) = a ++ c :: rstrip u.
Proof.
  intros Hc. unfold rstrip.
  replace (rev (a ++ c :: u)) with (rev u ++ c :: rev a)
    by (rewrite rev_app_distr; cbn [rev]; now rewrite <- app_assoc).
  destruct (drop_ws_split (rev u)) as (w & Hw & E).
  destruct (drop_ws (rev u)) as [|d r] eqn:Ed.
  - rewrite app_nil_r in E. rewrite E, drop_ws_spaces by exact Hw.
    rewrite (drop_ws_headed _ _ Hc). cbn [rev].
    now rewrite rev_involutive.
  - rewrite drop_ws_app_headed by (rewrite Ed; discriminate).
    rewrite Ed, rev_app_distr. cbn [rev]. rewrite rev_involutive.
    now rewrite <- !app_assoc.
Qed.

Lemma rstrip_spaces (w : str) : spaces w -> rstrip w = [].
Proof.
  intros H. unfold rstrip. rewrite drop_ws_all; [reflexivity|].
  now apply Forall_rev.
Qed.

Lemma blank_spaces (w : str) : spaces w -> blank w = true.
Proof.
  intros H. unfold blank. rewrite strip_rstrip, (drop_ws_all _ H). reflexivity.
Qed.

Lemma strip_spaces (w : str) : spaces w -> strip w = [].
Proof. intros H. rewrite strip_rstrip, (drop_ws_all _ H). reflexivity. Qed.

Lemma strip_headed (c : ascii) (u : str) :
  is_space c = false -> strip (c :: u) = c :: rstrip u.
Proof.
  intros Hc. rewrite strip_rstrip, (drop_ws_headed _ _ Hc).
  exact (rstrip_app [] u c Hc).
Qed.

Lemma blank_headed (w : str) (c : ascii) (u : str) :
  spaces w -> is_space c = false -> blank (w ++ c :: u) = false.
Proof.
  intros Hw Hc. unfold blank.
  rewrite strip_rstrip, drop_ws_spaces, (drop_ws_headed _ _ Hc) by exact Hw.
  pose proof (rstrip_app [] u c Hc) as E. cbn [app] in E. now rewrite E.
Qed.

(** A prefix without white space is not touched by trailing white space. *)
Lemma startswith_app_spaces (p r w : str) :
  Forall (fun c => is_space c = false) p -> spaces w ->
  startswith p (r ++ w) = startswith p r.
Proof.
  intros Hp Hw. revert r.
  induction Hp as [|a p Ha _ IH]; intros r; [now destruct r, w|].
  destruct r as [|c r]; cbn.
  - destruct Hw as [|d w Hd _]; [reflexivity|]. cbn.
    destruct (Ascii.eqb_spec a d) as [->|_]; [congruence|reflexivity].
  - now rewrite IH.
Qed.

Lemma startswith_rstrip (p t : str) :
  Forall (fun c => is_space c = false) p ->
  startswith p (rstrip t) = startswith p t.
Proof.
  intros Hp. destruct (rstrip_split t) as (w & Hw & E).
  rewrite E at 2. symmetry. now apply startswith_app_spaces.
Qed.

Lemma startswith_strip (p t : str) :
  Forall (fun c => is_space c = false) p ->
  startswith p (strip t) = startswith p (drop_ws t).
Proof. intros Hp. rewrite strip_rstrip. now apply startswith_rstrip. Qed.

(** A line that does not start with [p] still does not when more text
    follows its newline. *)
Lemma startswith_line (p x rest : str) :
  no_nl p -> startswith p x = false -> startswith p (x ++ nl :: rest) = false.
Proof.
  intros Hp. revert x.
  induction Hp as [|a p Ha _ IH]; intros x; [discriminate|].
  destruct x as [|c x]; cbn.
  - intros _. destruct (Ascii.eqb_spec a nl) as [->|_]; [|reflexivity].
    discriminate Ha.
  - destruct (Ascii.eqb a c); [apply IH|reflexivity].
Qed.

Lemma startswith_app (p t : str) : startswith p (p ++ t) = true.
Proof.
  induction p as [|a p IH]; [reflexivity|].
  cbn. now rewrite Ascii.eqb_refl.
Qed.

Lemma startswith_true (p t : str) :
  startswith p t = true -> t = p ++ skipn (length p) t.
Proof.
  revert t. induction p as [|a p IH]; intros t; [reflexivity|].
  destruct t as [|c t]; cbn; [discriminate|].
  destruct (Ascii.eqb_spec a c) as [->|_]; [|discriminate].
  intros H. now rewrite <- IH.
Qed.

Lemma bol_after_app (b : bool) (x y : str) :
  bol_after b (x ++ y) = bol_after (bol_after b x) y.
Proof. revert b. induction x as [|c x IH]; intros b; [reflexivity|apply IH]. Qed.

Lemma bol_after_no_nl (x : str) : no_nl x -> bol_after false x = false.
Proof.
  induction 1 as [|c x Hc _ IH]; [reflexivity|]. cbn. now rewrite Hc.
Qed.

Lemma bol_after_nl (b : bool) (x : str) : bol_after b (x ++ [nl]) = true.
Proof. now rewrite bol_after_app. Qed.

Lemma bol_after_ends_line (w : str) : ends_line w -> bol_after true w = true.
Proof. intros [->|[v ->]]; [reflexivity|apply bol_after_nl]. Qed.

(** ** The matcher *)

Section MatcherFacts.
Context {R : Type}.

Lemma rmatch_lit (x : str) (b : bool) (t : str) (g : list str)
    (k : bool -> str -> list str -> option R) :
  rmatch (lit x) b t g k
  = if startswith x t then k (bol_after b x) (skipn (length x) t) g else None.
Proof.
  revert b t. induction x as [|a x IH]; intros b t; [reflexivity|].
  cbn [lit rmatch]. destruct t as [|c t]; [reflexivity|].
  cbn [startswith]. destruct (Ascii.eqb_spec a c) as [->|_]; [|reflexivity].
  cbn [andb bol_after length skipn]. apply IH.
Qed.

Lemma rmatch_lit_app (x : str) (b : bool) (t : str) (g : list str)
    (k : bool -> str -> list str -> option R) :
  rmatch (lit x) b (x ++ t) g k = k (bol_after b x) t g.
Proof.
  rewrite rmatch_lit, startswith_app.
  now rewrite skipn_app, skipn_all, Nat.sub_diag.
Qed.

Lemma star_greedy_stop (p : ascii -> bool) (b : bool) (t : str)
    (k : bool -> str -> option R) :
  match t with [] => True | c :: _ => p c = false end ->
  star_greedy p b t k = k b t.
Proof. destruct t as [|c t]; [reflexivity|]. cbn. now intros ->. Qed.

(** A success after the longest run is the answer. *)
Lemma star_greedy_some (p : ascii -> bool) (w : str) (b : bool) (t : str)
    (k : bool -> str -> option R) (r : R) :
  Forall (fun c => p c = true) w ->
  star_greedy p (bol_after b w) t k = Some r ->
  star_greedy p b (w ++ t) k = Some r.
Proof.
  intros Hw. revert b. induction Hw as [|c w Hc _ IH]; intros b H; [exact H|].
  cbn. rewrite Hc. now rewrite (IH _ H).
Qed.

(** [\s*] followed by a literal that the text, past its white space,
    does not continue with. *)
Lemma star_ws_lit_fail (m t : str) (b : bool) (g : list str)
    (k : bool -> str -> list str -> option R) :
  headed m -> m <> [] -> stops m t ->
  star_greedy is_space b t (fun b' t' => rmatch (lit m) b' t' g k) = None.
Proof.
  intros Hm Hne. destruct m as [|c0 m']; [congruence|]. cbn in Hm.
  revert b. induction t as [|a t IH]; intros b Hs.
  - cbn [star_greedy]. now rewrite rmatch_lit.
  - unfold stops in Hs. cbn [drop_ws] in Hs. cbn [star_greedy].
    destruct (is_space a) eqn:Ha.
    + rewrite (IH _ Hs), rmatch_lit. cbn [startswith].
      destruct (Ascii.eqb_spec c0 a) as [->|_]; [congruence|reflexivity].
    + now rewrite rmatch_lit, Hs.
Qed.

(** A pattern [^\s*m...] fails where the text does not continue with
    [m] after its white space. *)
Lemma anchored_fail (m : str) (r : regex) (b : bool) (t : str) (g : list str)
    (k : bool -> str -> list str -> option R) :
  headed m -> m <> [] -> stops m t ->
  rmatch (Seq Bol (Seq (Star true is_space) (Seq (lit m) r))) b t g k = None.
Proof.
  intros Hm Hne Hs. cbn [rmatch]. destruct b; [|reflexivity].
  now apply star_ws_lit_fail.
Qed.

Lemma star_lazy_eq (p : ascii -> bool) (b : bool) (t : str)
    (k : bool -> str -> option R) :
  star_lazy p b t k
  = match k b t with
    | Some r => Some r
    | None =>
        match t with
        | c :: t' => if p c then star_lazy p (is_nl c) t' k else None
        | [] => None
        end
    end.
Proof. destruct t; reflexivity. Qed.

(** [.*?] runs through text in which the rest of the pattern finds
    nothing. *)
Lemma star_lazy_inert (x rest : str) (b : bool) (k : bool -> str -> option R) :
  inert k b x rest ->
  star_lazy any_char b (x ++ rest) k = star_lazy any_char (bol_after b x) rest k.
Proof.
  revert b. induction x as [|c x IH]; intros b H; [reflexivity|].
  destruct H as [H1 H2]. rewrite star_lazy_eq, H1. cbn [app any_char bol_after].
  now apply IH.
Qed.
End MatcherFacts.

(** [---\s*\n]: the white space is given back up to its last newline. *)
Lemma star_ws_then_nl (v y : str) (b : bool) (g : list str) :
  spaces v -> headed y ->
  star_greedy is_space b (v ++ y)
    (fun _ t' =>
       match t' with
       | [] => None
       | c :: t'' => if is_nl c then Some (t'', g) else None
       end)
  = match after_last_nl v with
    | Some r => Some (r ++ y, g)
    | None => None
    end.
Proof.
  intros Hv Hy. revert b. induction Hv as [|c v Hc _ IH]; intros b.
  - cbn [app after_last_nl]. rewrite star_greedy_stop by (destruct y; auto).
    destruct y as [|d y]; [reflexivity|]. cbn in *.
    now rewrite (not_space_not_nl _ Hy).
  - cbn [app star_greedy after_last_nl]. rewrite Hc, IH.
    destruct (after_last_nl v); [reflexivity|].
    destruct (is_nl c); reflexivity.
Qed.

Lemma after_last_nl_end (v : str) : after_last_nl (v ++ [nl]) = Some [].
Proof.
  induction v as [|c v IH]; [reflexivity|]. cbn. now rewrite IH.
Qed.

Lemma after_last_nl_none (v : str) : no_nl v -> after_last_nl v = None.
Proof.
  induction 1 as [|c v Hc _ IH]; [reflexivity|]. cbn. now rewrite IH, Hc.
Qed.

Lemma after_last_nl_app (u v : str) (r : str) :
  after_last_nl v = Some r -> after_last_nl (u ++ v) = Some r.
Proof.
  intros H. induction u as [|c u IH]; [exact H|]. cbn. now rewrite IH.
Qed.

Lemma after_last_nl_gap (g : Doc.gap) :
  Doc.gap_ok g -> after_last_nl (Doc.render_gap g) = Some [].
Proof.
  intros (_ & _ & _ & [E|[v E]]); unfold Doc.render_gap; rewrite E.
  - apply after_last_nl_end.
  - change (Doc.rest_of_line g ++ nl :: v ++ [nl])
      with (Doc.rest_of_line g ++ (nl :: v) ++ [nl]).
    rewrite app_assoc. apply after_last_nl_end.
Qed.

(** ** Scanning: [re.split] and [re.sub] *)

Lemma match_len_none (r : regex) (b : bool) (t : str) :
  match_at r b t = None -> match_len r b t = None.
Proof. unfold match_len. now intros ->. Qed.

Lemma match_len_some (r : regex) (b : bool) (x t : str) (g : list str) :
  match_at r b (x ++ t) = Some (t, g) -> match_len r b (x ++ t) = Some (length x).
Proof.
  unfold match_len. intros ->. f_equal. rewrite length_app. lia.
Qed.

Lemma split_from_nonempty (r : regex) (b : bool) (n : nat) (t : str) :
  split_from r b n t <> [].
Proof.
  revert b n. induction t as [|c t IH]; intros b n; [discriminate|].
  cbn [split_from]. destruct n as [|n]; [|apply IH].
  destruct (match_len r b (c :: t)) as [[|m]|]; try discriminate;
    unfold cons_hd; destruct (split_from r (is_nl c) 0 t); discriminate.
Qed.

Lemma prepend_nil (l : list str) : l <> [] -> prepend [] l = l.
Proof. destruct l; [congruence|reflexivity]. Qed.

Lemma cons_hd_prepend (c : ascii) (x : str) (l : list str) :
  l <> [] -> cons_hd c (prepend x l) = prepend (c :: x) l.
Proof. destruct l; [congruence|reflexivity]. Qed.

Lemma prepend_app (x y : str) (l : list str) :
  l <> [] -> prepend x (prepend y l) = prepend (x ++ y) l.
Proof. destruct l; [congruence|]. intros _. cbn. now rewrite app_assoc. Qed.

Lemma prepend_cons (x h : str) (l : list str) : prepend x (h :: l) = (x ++ h) :: l.
Proof. reflexivity. Qed.

Lemma split_from_skip (r : regex) (b : bool) (x t : str) :
  split_from r b (length x) (x ++ t) = split_from r (bol_after b x) 0 t.
Proof.
  revert b. induction x as [|c x IH]; intros b; [reflexivity|]. cbn. apply IH.
Qed.

Lemma sub_from_skip (r : regex) (b : bool) (x t : str) :
  sub_from r b (length x) (x ++ t) = sub_from r (bol_after b x) 0 t.
Proof.
  revert b. induction x as [|c x IH]; intros b; [reflexivity|]. cbn. apply IH.
Qed.

(** A match at the head is cut out, and the scan goes on behind it. *)
Lemma split_match (r : regex) (b : bool) (x t : str) (g : list str) :
  x <> [] -> match_at r b (x ++ t) = Some (t, g) ->
  split_from r b 0 (x ++ t) = [] :: split_from r (bol_after b x) 0 t.
Proof.
  intros Hx H. apply match_len_some in H.
  destruct x as [|c x]; [congruence|]. cbn [app] in *. cbn [split_from].
  rewrite H. cbn [length bol_after]. now rewrite split_from_skip.
Qed.

Lemma sub_match (r : regex) (b : bool) (x t : str) (g : list str) :
  x <> [] -> match_at r b (x ++ t) = Some (t, g) ->
  sub_from r b 0 (x ++ t) = sub_from r (bol_after b x) 0 t.
Proof.
  intros Hx H. apply match_len_some in H.
  destruct x as [|c x]; [congruence|]. cbn [app] in *. cbn [sub_from].
  rewrite H. cbn [length bol_after]. now rewrite sub_from_skip.
Qed.

(** Text without a match is copied. *)
Lemma split_inert (r : regex) (b : bool) (x rest : str) :
  inert (match_len r) b x rest ->
  split_from r b 0 (x ++ rest) = prepend x (split_from r (bol_after b x) 0 rest).
Proof.
  revert b. induction x as [|c x IH]; intros b H.
  - cbn. symmetry. apply prepend_nil, split_from_nonempty.
  - destruct H as [H1 H2]. cbn [app] in *. cbn [split_from bol_after].
    rewrite H1, (IH _ H2). apply cons_hd_prepend, split_from_nonempty.
Qed.

Lemma sub_inert (r : regex) (b : bool) (x rest : str) :
  inert (match_len r) b x rest ->
  sub_from r b 0 (x ++ rest) = x ++ sub_from r (bol_after b x) 0 rest.
Proof.
  revert b. induction x as [|c x IH]; intros b H; [reflexivity|].
  destruct H as [H1 H2]. cbn [app] in *. cbn [sub_from bol_after].
  now rewrite H1, (IH _ H2).
Qed.

(** ** Text that holds no match *)

Lemma inert_app {A} (f : bool -> str -> option A) (b : bool) (x y rest : str) :
  inert f b x (y ++ rest) -> inert f (bol_after b x) y rest ->
  inert f b (x ++ y) rest.
Proof.
  revert b. induction x as [|c x IH]; intros b Hx Hy; [exact Hy|].
  destruct Hx as [H1 H2]. cbn [app inert]. split.
  - rewrite <- app_assoc. exact H1.
  - now apply IH.
Qed.

Lemma stops_ws (m : str) (c : ascii) (t : str) :
  is_space c = true -> stops m t -> stops m (c :: t).
Proof. unfold stops. cbn. now intros ->. Qed.

Lemma stops_spaces (m w t : str) : spaces w -> stops m t -> stops m (w ++ t).
Proof. unfold stops. intros Hw. now rewrite drop_ws_spaces. Qed.

Lemma stops_nil (m : str) : m <> [] -> stops m [].
Proof. destruct m; [congruence|reflexivity]. Qed.

Lemma stops_headed (m t : str) : headed t -> startswith m t = false -> stops m t.
Proof.
  unfold stops. destruct t as [|c t]; [auto|]. cbn. now intros ->.
Qed.

Lemma unmarked_ws (c : ascii) (t : str) :
  is_space c = true -> unmarked t -> unmarked (c :: t).
Proof.
  intros Hc [_ H]. split; [|now apply stops_ws].
  change (startswith dashes (c :: t))
    with (Ascii.eqb "-"%char c && startswith (s "--") t).
  destruct (Ascii.eqb_spec "-"%char c) as [<-|_]; [discriminate Hc|reflexivity].
Qed.

Section Inert.
Context {A : Type}.
Variable f : bool -> str -> option A.
Variable dead : str -> Prop.
Hypothesis f_dead : forall b t, dead t -> f b t = None.
Hypothesis f_mid : forall t, f false t = None.
Hypothesis dead_ws : forall c t, is_space c = true -> dead t -> dead (c :: t).

Lemma dead_spaces (w t : str) : spaces w -> dead t -> dead (w ++ t).
Proof. induction 1; intros; [assumption|]. cbn. apply dead_ws; auto. Qed.

Lemma inert_spaces (w rest : str) (b : bool) :
  spaces w -> dead rest -> inert f b w rest.
Proof.
  intros Hw Hr. revert b. induction Hw as [|c w Hc Hw IH]; intros b; [exact I|].
  split; [|apply IH].
  apply f_dead. cbn. apply dead_ws; [exact Hc|]. now apply dead_spaces.
Qed.

Lemma inert_mid (x rest : str) : no_nl x -> inert f false x rest.
Proof.
  induction 1 as [|c x Hc _ IH]; [exact I|].
  split; [apply f_mid|]. now rewrite Hc.
Qed.

Lemma inert_mid_nl (x rest : str) : no_nl x -> inert f false (x ++ [nl]) rest.
Proof.
  induction 1 as [|c x Hc _ IH]; cbn [app inert].
  - split; [apply f_mid|exact I].
  - split; [apply f_mid|]. now rewrite Hc.
Qed.

(** A line whose text does not start a match, with the white space
    before it. *)
Lemma inert_line (w x rest : str) (b : bool) :
  spaces w -> no_nl x -> x <> [] -> dead (x ++ nl :: rest) ->
  inert f b (w ++ x ++ [nl]) rest.
Proof.
  intros Hw Hx Hne Hd. apply inert_app.
  - apply inert_spaces; [exact Hw|]. now rewrite <- app_assoc.
  - destruct x as [|c u]; [congruence|].
    inversion Hx as [|? ? Hc Hu]; subst. cbn [app inert]. split.
    + apply f_dead. now rewrite <- app_assoc.
    + rewrite Hc. now apply inert_mid_nl.
Qed.

(** Content lines. *)
Hypothesis dead_line :
  forall l rest, Doc.line_ok l -> dead (Doc.text l ++ nl :: rest).

Lemma inert_lines (ls : list Doc.line) (rest : str) (b : bool) :
  Forall Doc.line_ok ls -> inert f b (Doc.render_lines ls) rest.
Proof.
  intros Hls. revert b. induction Hls as [|l ls Hl _ IH]; intros b; [exact I|].
  change (Doc.render_lines (l :: ls))
    with (Doc.render_line l ++ Doc.render_lines ls).
  apply inert_app; [|apply IH].
  destruct Hl as (Hw & Hx & (c & u & E & Hc) & Hl').
  apply inert_line; [exact Hw|exact Hx|rewrite E; discriminate|].
  apply dead_line. repeat split; eauto; tauto.
Qed.

(** Fenced blocks, for a pattern that three backticks do not start. *)
Hypothesis dead_ticks : forall t, dead (ticks ++ t).

Lemma dead_fences (fs : list Doc.fence) (rest : str) :
  dead rest -> dead (Doc.render_fences fs ++ rest).
Proof.
  destruct fs as [|f0 fs]; [trivial|]. intros _.
  unfold Doc.render_fences. cbn [map concat]. unfold Doc.render_fence at 1.
  rewrite <- !app_assoc. apply dead_ticks.
Qed.

Lemma inert_fence (f0 : Doc.fence) (rest : str) (b : bool) :
  Doc.fence_ok f0 -> dead rest -> inert f b (Doc.render_fence f0) rest.
Proof.
  intros (Hh & Hb & Hi & Hr & Hrn & Hbl & _) Hd.
  replace (Doc.render_fence f0)
    with (([] ++ (ticks ++ Doc.header f0) ++ [nl])
          ++ Doc.render_lines (Doc.body f0)
          ++ (Doc.indent f0 ++ (ticks ++ Doc.rest_of_line (Doc.after f0)) ++ [nl])
          ++ Doc.blank_lines (Doc.after f0)).
  2:{ unfold Doc.render_fence, Doc.inner, Doc.render_gap.
      cbn [app]. now rewrite <- !app_assoc. }
  assert (Hn : forall x, no_nl x -> no_nl (ticks ++ x))
    by (intros x Hx; apply no_nl_app; [repeat constructor|exact Hx]).
  apply inert_app; [|apply inert_app; [|apply inert_app]].
  - apply inert_line; [constructor|now apply Hn|discriminate|].
    rewrite <- app_assoc. apply dead_ticks.
  - now apply inert_lines.
  - apply inert_line; [exact Hi|now apply Hn|discriminate|].
    rewrite <- app_assoc. apply dead_ticks.
  - now apply inert_spaces.
Qed.

Lemma inert_fences (fs : list Doc.fence) (rest : str) (b : bool) :
  Forall Doc.fence_ok fs -> dead rest -> inert f b (Doc.render_fences fs) rest.
Proof.
  intros Hfs Hd. revert b. induction Hfs as [|f0 fs Hf _ IH]; intros b; [exact I|].
  change (Doc.render_fences (f0 :: fs))
    with (Doc.render_fence f0 ++ Doc.render_fences fs).
  apply inert_app; [|apply IH].
  apply inert_fence; [exact Hf|]. now apply dead_fences.
Qed.
End Inert.

(** ** The patterns of the parser *)

Lemma headed_dashes : headed dashes /\ dashes <> [].
Proof. split; [reflexivity|discriminate]. Qed.

Lemma headed_ticks : headed ticks /\ ticks <> [].
Proof. split; [reflexivity|discriminate]. Qed.

Lemma marker_mid (t : str) : match_len marker_re false t = None.
Proof. reflexivity. Qed.

Lemma marker_dead (b : bool) (t : str) :
  unmarked t -> match_len marker_re b t = None.
Proof.
  intros [Hd Ht]. apply match_len_none. unfold match_at, marker_re.
  cbn [rmatch seqs]. destruct b; [|reflexivity].
  rewrite rmatch_lit, Hd.
  now apply star_ws_lit_fail; [apply headed_ticks..|].
Qed.

(** [---], white space with a newline in it, then visible text: the
    marker ends behind the last newline. *)
Lemma marker_dashes (v y r : str) :
  spaces v -> headed y -> after_last_nl v = Some r ->
  match_at marker_re true (dashes ++ v ++ y) = Some (r ++ y, []).
Proof.
  intros Hv Hy Hr. unfold match_at, marker_re. cbn [rmatch seqs].
  rewrite rmatch_lit_app.
  change (bol_after true dashes) with false.
  now rewrite (star_ws_then_nl v y false [] Hv Hy), Hr.
Qed.

Lemma not_dashes_ws (w t : str) : spaces w -> startswith dashes (w ++ ticks ++ t) = false.
Proof.
  intros [|c w' Hc _]; [reflexivity|].
  change (startswith dashes ((c :: w') ++ ticks ++ t))
    with (Ascii.eqb "-"%char c && startswith (s "--") (w' ++ ticks ++ t)).
  destruct (Ascii.eqb_spec "-"%char c) as [<-|_]; [discriminate Hc|reflexivity].
Qed.

(** White space from the start of a line, then three backticks. *)
Lemma marker_ticks (w t : str) :
  spaces w -> match_at marker_re true (w ++ ticks ++ t) = Some (t, []).
Proof.
  intros Hw. unfold match_at, marker_re. cbn [rmatch seqs].
  rewrite rmatch_lit, (not_dashes_ws w t Hw).
  apply star_greedy_some; [exact Hw|].
  rewrite star_greedy_stop by reflexivity.
  now rewrite rmatch_lit_app.
Qed.

Lemma closing_mid (m t : str) : closing m false t = None.
Proof. reflexivity. Qed.

Lemma closing_dead (m : str) (b : bool) (t : str) :
  headed m -> m <> [] -> stops m t -> closing m b t = None.
Proof. intros Hm Hne Hs. now apply anchored_fail. Qed.

Lemma closing_dashes_dead (b : bool) (t : str) :
  stops dashes t -> closing dashes b t = None.
Proof. now apply closing_dead. Qed.

Lemma closing_ticks_dead (b : bool) (t : str) :
  stops ticks t -> closing ticks b t = None.
Proof. now apply closing_dead. Qed.

(** The closing marker, with white space on both sides. *)
Lemma closing_at (m w v y : str) :
  headed m -> m <> [] -> spaces w -> spaces v -> headed y ->
  closing m true (w ++ m ++ v ++ y) = Some (y, []).
Proof.
  intros Hm Hne Hw Hv Hy. unfold closing, closer. cbn [rmatch].
  apply star_greedy_some; [exact Hw|].
  rewrite star_greedy_stop by (destruct m; [congruence|exact Hm]).
  rewrite rmatch_lit_app. cbn [rmatch].
  apply star_greedy_some; [exact Hv|].
  now rewrite star_greedy_stop by (destruct y; auto).
Qed.

(** [.*?] reaches the closing marker through text that holds none. *)
Lemma lazy_closing (m x w v y : str) (b : bool) :
  headed m -> m <> [] -> spaces w -> spaces v -> headed y ->
  inert (closing m) b x (w ++ m ++ v ++ y) -> bol_after b x = true ->
  star_lazy any_char b (x ++ w ++ m ++ v ++ y) (closing m) = Some (y, []).
Proof.
  intros Hm Hne Hw Hv Hy Hx Hb.
  rewrite (star_lazy_inert _ _ _ _ Hx), Hb, star_lazy_eq.
  now rewrite closing_at.
Qed.

Lemma front_matter_re_mid (t : str) : match_len front_matter_re false t = None.
Proof. reflexivity. Qed.

Lemma front_matter_re_dead (b : bool) (t : str) :
  stops dashes t -> match_len front_matter_re b t = None.
Proof.
  intros Hs. apply match_len_none. unfold match_at, front_matter_re.
  cbn [seqs]. now apply anchored_fail; [apply headed_dashes..|].
Qed.

Lemma fence_re_mid (t : str) : match_len fence_re false t = None.
Proof. reflexivity. Qed.

Lemma fence_re_dead (b : bool) (t : str) :
  stops ticks t -> match_len fence_re b t = None.
Proof.
  intros Hs. apply match_len_none. unfold match_at, fence_re.
  cbn [seqs]. now apply anchored_fail; [apply headed_ticks..|].
Qed.

(** A block [--- ... ---] with the white space behind it. *)
Lemma front_matter_re_block (u x v y : str) :
  spaces u -> headed (x ++ dashes) -> spaces v -> headed y ->
  inert (closing dashes) (bol_after false u) x (dashes ++ v ++ y) ->
  bol_after (bol_after false u) x = true ->
  match_at front_matter_re true (dashes ++ u ++ x ++ dashes ++ v ++ y)
  = Some (y, []).
Proof.
  intros Hu Hx Hv Hy Hi Hb. unfold match_at, front_matter_re. cbn [seqs rmatch].
  rewrite star_greedy_stop by reflexivity.
  rewrite rmatch_lit_app. change (bol_after true dashes) with false.
  cbn [rmatch]. apply star_greedy_some; [exact Hu|].
  rewrite star_greedy_stop.
  2:{ destruct x; [reflexivity|exact Hx]. }
  exact (lazy_closing dashes x [] v y _ (proj1 headed_dashes) (proj2 headed_dashes)
           (List.Forall_nil _) Hv Hy Hi Hb).
Qed.

(** A fenced block with the white space behind it. *)
Lemma fence_re_block (x w v y : str) :
  spaces w -> spaces v -> headed y ->
  inert (closing ticks) false x (w ++ ticks ++ v ++ y) ->
  bol_after false x = true ->
  match_at fence_re true (ticks ++ x ++ w ++ ticks ++ v ++ y) = Some (y, []).
Proof.
  intros Hw Hv Hy Hi Hb. unfold match_at, fence_re. cbn [seqs rmatch].
  rewrite star_greedy_stop by reflexivity.
  rewrite rmatch_lit_app. change (bol_after true ticks) with false.
  cbn [rmatch].
  exact (lazy_closing ticks x w v y _ (proj1 headed_ticks) (proj2 headed_ticks)
           Hw Hv Hy Hi Hb).
Qed.

(** ** Documents of the documented shape *)

Lemma line_headed (l : Doc.line) (rest : str) :
  Doc.line_ok l -> headed (Doc.text l ++ rest).
Proof. intros (_ & _ & (c & u & -> & Hc) & _). exact Hc. Qed.

Lemma line_stops (m : str) (l : Doc.line) (rest : str) :
  no_nl m -> startswith m (Doc.text l) = false -> Doc.line_ok l ->
  stops m (Doc.text l ++ nl :: rest).
Proof.
  intros Hm Hs Hl. apply stops_headed; [now apply line_headed|].
  now apply startswith_line.
Qed.

Lemma line_stops_dashes (l : Doc.line) (rest : str) :
  Doc.line_ok l -> stops dashes (Doc.text l ++ nl :: rest).
Proof.
  intros Hl. apply line_stops; [repeat constructor| |exact Hl]. apply Hl.
Qed.

Lemma line_stops_ticks (l : Doc.line) (rest : str) :
  Doc.line_ok l -> stops ticks (Doc.text l ++ nl :: rest).
Proof.
  intros Hl. apply line_stops; [repeat constructor| |exact Hl]. apply Hl.
Qed.

Lemma line_unmarked (l : Doc.line) (rest : str) :
  Doc.line_ok l -> unmarked (Doc.text l ++ nl :: rest).
Proof.
  intros Hl. split; [|now apply line_stops_ticks].
  apply startswith_line; [repeat constructor|apply Hl].
Qed.

Lemma bol_after_lines (ls : list Doc.line) :
  bol_after true (Doc.render_lines ls) = true.
Proof.
  induction ls as [|l ls IH]; [reflexivity|].
  change (Doc.render_lines (l :: ls)) with (Doc.render_line l ++ Doc.render_lines ls).
  rewrite bol_after_app. unfold Doc.render_line.
  now rewrite app_assoc, bol_after_nl.
Qed.

Lemma bol_after_gap (b : bool) (g : Doc.gap) :
  Doc.gap_ok g -> bol_after b (Doc.render_gap g) = true.
Proof.
  intros (_ & _ & _ & He). unfold Doc.render_gap.
  change (Doc.rest_of_line g ++ nl :: Doc.blank_lines g)
    with (Doc.rest_of_line g ++ [nl] ++ Doc.blank_lines g).
  rewrite app_assoc, bol_after_app, bol_after_nl.
  now apply bol_after_ends_line.
Qed.

Lemma spaces_gap (g : Doc.gap) : Doc.gap_ok g -> spaces (Doc.render_gap g).
Proof.
  intros (H1 & _ & H2 & _). apply spaces_app; [exact H1|]. now constructor.
Qed.

Lemma headed_fences (fs : list Doc.fence) : headed (Doc.render_fences fs).
Proof. destruct fs; reflexivity. Qed.

(** *** Splitting *)

Lemma split_mid_line (x rest : str) :
  no_nl x ->
  split_from marker_re false 0 (x ++ nl :: rest)
  = prepend (x ++ [nl]) (split_from marker_re true 0 rest).
Proof.
  intros Hx.
  change (x ++ nl :: rest) with (x ++ [nl] ++ rest). rewrite app_assoc.
  rewrite split_inert, bol_after_nl; [reflexivity|].
  now apply (inert_mid_nl (match_len marker_re) marker_mid).
Qed.

Lemma split_lines (ls : list Doc.line) (rest : str) :
  Forall Doc.line_ok ls ->
  split_from marker_re true 0 (Doc.render_lines ls ++ rest)
  = prepend (Doc.render_lines ls) (split_from marker_re true 0 rest).
Proof.
  intros Hls. rewrite split_inert, bol_after_lines; [reflexivity|].
  apply (inert_lines (match_len marker_re) unmarked);
    auto using marker_dead, marker_mid, unmarked_ws, line_unmarked.
Qed.

Lemma split_ticks (w t : str) :
  spaces w ->
  split_from marker_re true 0 (w ++ ticks ++ t)
  = [] :: split_from marker_re false 0 t.
Proof.
  intros Hw. rewrite app_assoc.
  rewrite (split_match marker_re true (w ++ ticks) t []).
  - now rewrite bol_after_app.
  - destruct w; discriminate.
  - rewrite <- app_assoc. now apply marker_ticks.
Qed.

Lemma split_spaces_end (w : str) :
  spaces w -> split_from marker_re true 0 w = [w].
Proof.
  intros Hw. rewrite <- (app_nil_r w) at 1. rewrite split_inert.
  - cbn. now rewrite app_nil_r.
  - apply (inert_spaces (match_len marker_re) unmarked);
      auto using marker_dead, unmarked_ws.
    split; reflexivity.
Qed.

(** The closing [---] with its gap. *)
Lemma split_dashes (g : Doc.gap) (y : str) :
  Doc.gap_ok g -> headed y ->
  split_from marker_re true 0 (dashes ++ Doc.render_gap g ++ y)
  = [] :: split_from marker_re true 0 y.
Proof.
  intros Hg Hy. rewrite app_assoc.
  rewrite (split_match marker_re true (dashes ++ Doc.render_gap g) y []).
  - now rewrite bol_after_app, bol_after_gap.
  - discriminate.
  - rewrite <- app_assoc.
    rewrite (marker_dashes (Doc.render_gap g) y []); auto using spaces_gap.
    now apply after_last_nl_gap.
Qed.

(** The opening [---] line, up to the indentation of the first line of
    the front matter. *)
Lemma split_open (w y : str) :
  spaces w -> no_nl w -> headed y ->
  split_from marker_re true 0 (dashes ++ nl :: w ++ y)
  = [] :: split_from marker_re true 0 (w ++ y).
Proof.
  intros Hw Hn Hy.
  change (dashes ++ nl :: w ++ y) with ((dashes ++ [nl]) ++ w ++ y).
  rewrite (split_match marker_re true (dashes ++ [nl]) (w ++ y) []).
  - reflexivity.
  - discriminate.
  - change ((dashes ++ [nl]) ++ w ++ y) with (dashes ++ (nl :: w) ++ y).
    apply marker_dashes; [now constructor|exact Hy|].
    cbn. now rewrite (after_last_nl_none w Hn).
Qed.

Lemma split_fences (w : str) (fs : list Doc.fence) :
  spaces w -> Forall Doc.fence_ok fs ->
  split_from marker_re true 0 (w ++ Doc.render_fences fs)
  = match fs with
    | [] => [w]
    | _ => [] :: Doc.segments fs
    end.
Proof.
  intros Hw Hfs. revert w Hw.
  induction Hfs as [|f fs Hf Hfs IH]; intros w Hw.
  - cbn. rewrite app_nil_r. now apply split_spaces_end.
  - destruct Hf as (Hh & Hb & Hi & Hr & Hrn & Hbl & He).
    change (Doc.render_fences (f :: fs))
      with (Doc.render_fence f ++ Doc.render_fences fs).
    unfold Doc.render_fence, Doc.inner, Doc.render_gap. assoc.
    rewrite split_ticks, split_mid_line, split_lines, split_ticks, split_mid_line
      by assumption.
    rewrite IH by assumption. cbn [Doc.segments].
    f_equal. unfold Doc.inner, Doc.render_gap.
    destruct fs as [|f' fs]; cbn [prepend]; assoc; now rewrite app_nil_r.
Qed.

Lemma split_open_lines (ys : list Doc.line) (rest : str) :
  Doc.yaml_ok ys -> headed rest ->
  split_from marker_re true 0 (dashes ++ nl :: Doc.render_lines ys ++ rest)
  = [] :: prepend (Doc.render_lines ys) (split_from marker_re true 0 rest).
Proof.
  intros [Hls Hfirst] Hr. destruct ys as [|l ls]; [contradiction|].
  assert (E : Doc.render_lines (l :: ls) ++ rest
              = Doc.lead l ++ Doc.text l ++ nl :: Doc.render_lines ls ++ rest).
  { change (Doc.render_lines (l :: ls))
      with (Doc.render_line l ++ Doc.render_lines ls).
    unfold Doc.render_line. assoc. }
  inversion Hls as [|? ? Hl Hls']; subst.
  rewrite E, split_open; [|apply Hl|exact Hfirst|now apply line_headed].
  now rewrite <- E, split_lines.
Qed.

Lemma split_doc (d : Doc.t) :
  Doc.ok d ->
  split marker_re (Doc.render d)
  = [] :: Doc.render_lines (Doc.yaml d)
    :: match Doc.fences d with
       | [] => [[]]
       | _ => [] :: Doc.segments (Doc.fences d)
       end.
Proof.
  intros (Hy & Hg & Hfs). unfold split, Doc.render, Doc.front_matter. assoc.
  rewrite split_open_lines by (exact Hy || reflexivity).
  rewrite split_dashes by (exact Hg || apply headed_fences).
  pose proof (split_fences [] (Doc.fences d) (List.Forall_nil _) Hfs) as E.
  cbn [app] in E. rewrite E. cbn [prepend]. now rewrite app_nil_r.
Qed.

(** *** The prose check *)

Lemma stops_dashes_ticks (t : str) : stops dashes (ticks ++ t).
Proof. reflexivity. Qed.

Lemma sub_fences_front_matter_re (b : bool) (fs : list Doc.fence) :
  Forall Doc.fence_ok fs ->
  sub_from front_matter_re b 0 (Doc.render_fences fs) = Doc.render_fences fs.
Proof.
  intros Hfs. rewrite <- (app_nil_r (Doc.render_fences fs)) at 1.
  rewrite sub_inert; [cbn; now rewrite app_nil_r|].
  apply (inert_fences (match_len front_matter_re) (stops dashes));
    auto using front_matter_re_dead, front_matter_re_mid, line_stops_dashes,
      stops_dashes_ticks.
  - intros; now apply stops_ws.
  - reflexivity.
Qed.

Lemma inert_closing_lines (m : str) (ls : list Doc.line) (rest : str) (b : bool) :
  headed m -> m <> [] ->
  (forall l r, Doc.line_ok l -> stops m (Doc.text l ++ nl :: r)) ->
  Forall Doc.line_ok ls -> inert (closing m) b (Doc.render_lines ls) rest.
Proof.
  intros Hm Hne Hl Hls.
  apply (inert_lines (closing m) (stops m)); auto using closing_mid.
  - intros; now apply closing_dead.
  - intros; now apply stops_ws.
Qed.

Lemma sub_front_matter_ws (d : Doc.t) (w y : str) :
  Doc.yaml_ok (Doc.yaml d) -> Doc.gap_ok (Doc.fm_after d) ->
  spaces w -> headed y ->
  sub_from front_matter_re true 0 (Doc.front_matter d ++ w ++ y)
  = sub_from front_matter_re (bol_after true w) 0 y.
Proof.
  intros [Hls Hfirst] Hg Hw Hy.
  destruct (Doc.yaml d) as [|l ls] eqn:Ey; [contradiction|].
  inversion Hls as [|? ? Hl Hls']; subst.
  rewrite app_assoc.
  rewrite (sub_match front_matter_re true (Doc.front_matter d ++ w) y []).
  - rewrite bol_after_app. f_equal. unfold Doc.front_matter.
    change (dashes ++ nl :: Doc.render_lines (Doc.yaml d) ++ dashes
            ++ Doc.render_gap (Doc.fm_after d))
      with (dashes ++ [nl] ++ Doc.render_lines (Doc.yaml d) ++ dashes
            ++ Doc.render_gap (Doc.fm_after d)).
    now rewrite !app_assoc, bol_after_app, bol_after_gap.
  - unfold Doc.front_matter. discriminate.
  - unfold Doc.front_matter. rewrite Ey.
    change (Doc.render_lines (l :: ls))
      with (Doc.render_line l ++ Doc.render_lines ls).
    unfold Doc.render_line.
    replace (((dashes ++ nl :: ((Doc.lead l ++ Doc.text l ++ [nl])
                ++ Doc.render_lines ls) ++ dashes
              ++ Doc.render_gap (Doc.fm_after d)) ++ w) ++ y)
      with (dashes ++ (nl :: Doc.lead l)
            ++ ((Doc.text l ++ [nl]) ++ Doc.render_lines ls)
            ++ dashes ++ (Doc.render_gap (Doc.fm_after d) ++ w) ++ y) by assoc.
    apply front_matter_re_block.
    + constructor; [reflexivity|apply Hl].
    + rewrite <- !app_assoc. now apply line_headed.
    + apply spaces_app; [now apply spaces_gap|exact Hw].
    + exact Hy.
    + apply inert_app.
      * destruct Hl as (_ & Hx & (c & u & E & Hc) & Hd & _).
        apply (inert_line (closing dashes) (stops dashes) closing_dashes_dead
                 (closing_mid dashes) (stops_ws dashes) [] (Doc.text l));
          [constructor|exact Hx|rewrite E; discriminate|].
        apply stops_headed; [rewrite E; exact Hc|].
        apply startswith_line; [repeat constructor|exact Hd].
      * apply inert_closing_lines;
          auto using line_stops_dashes; reflexivity || discriminate.
    + rewrite bol_after_app. rewrite bol_after_nl. apply bol_after_lines.
Qed.

Lemma sub_front_matter (d : Doc.t) (y : str) :
  Doc.yaml_ok (Doc.yaml d) -> Doc.gap_ok (Doc.fm_after d) -> headed y ->
  sub_from front_matter_re true 0 (Doc.front_matter d ++ y)
  = sub_from front_matter_re true 0 y.
Proof.
  intros Hy Hg Hh. exact (sub_front_matter_ws d [] y Hy Hg (List.Forall_nil _) Hh).
Qed.

Lemma sub_fence_ws (f : Doc.fence) (w y : str) :
  Doc.fence_ok f -> spaces w -> headed y ->
  sub_from fence_re true 0 (Doc.render_fence f ++ w ++ y)
  = sub_from fence_re (bol_after true w) 0 y.
Proof.
  intros (Hh & Hb & Hi & Hg) Hw Hy. rewrite app_assoc.
  rewrite (sub_match fence_re true (Doc.render_fence f ++ w) y []).
  - rewrite bol_after_app. f_equal.
    unfold Doc.render_fence. now rewrite !app_assoc, bol_after_app, bol_after_gap.
  - unfold Doc.render_fence. discriminate.
  - unfold Doc.render_fence.
    replace (((ticks ++ Doc.inner f ++ Doc.indent f ++ ticks
               ++ Doc.render_gap (Doc.after f)) ++ w) ++ y)
      with (ticks ++ ((Doc.header f ++ [nl]) ++ Doc.render_lines (Doc.body f))
            ++ Doc.indent f ++ ticks ++ (Doc.render_gap (Doc.after f) ++ w) ++ y)
      by (unfold Doc.inner; assoc).
    apply fence_re_block; auto using spaces_gap, spaces_app.
    + apply inert_app.
      * apply (inert_mid_nl (closing ticks) (closing_mid ticks)). exact Hh.
      * apply inert_closing_lines;
          auto using line_stops_ticks; reflexivity || discriminate.
    + rewrite bol_after_app, bol_after_nl. apply bol_after_lines.
Qed.

Lemma sub_fence (f : Doc.fence) (y : str) :
  Doc.fence_ok f -> headed y ->
  sub_from fence_re true 0 (Doc.render_fence f ++ y) = sub_from fence_re true 0 y.
Proof.
  intros Hf Hy. exact (sub_fence_ws f [] y Hf (List.Forall_nil _) Hy).
Qed.

Lemma sub_fences_fence_re (fs : list Doc.fence) :
  Forall Doc.fence_ok fs -> sub_from fence_re true 0 (Doc.render_fences fs) = [].
Proof.
  induction 1 as [|f fs Hf _ IH]; [reflexivity|].
  change (Doc.render_fences (f :: fs))
    with (Doc.render_fence f ++ Doc.render_fences fs).
  rewrite sub_fence; auto using headed_fences.
Qed.

Lemma prose_check_doc (d : Doc.t) : Doc.ok d -> prose_check (Doc.render d) = [].
Proof.
  intros (Hy & Hg & Hfs). unfold prose_check, sub, Doc.render.
  rewrite sub_front_matter by (assumption || apply headed_fences).
  rewrite sub_fences_front_matter_re by assumption.
  now apply sub_fences_fence_re.
Qed.

(** ** Block names *)

Lemma star_greedy_total {R} (p : ascii -> bool) (b : bool) (t : str) (F : str -> R) :
  star_greedy p b t (fun _ t' => Some (F t')) = Some (F (drop_while p t)).
Proof.
  revert b. induction t as [|c t IH]; intros b; [reflexivity|].
  cbn. destruct (p c); [now rewrite IH|reflexivity].
Qed.

Lemma drop_while_length (p : ascii -> bool) (t : str) :
  length (drop_while p t) <= length t.
Proof.
  induction t as [|c t IH]; [reflexivity|].
  cbn. destruct (p c); cbn; lia.
Qed.

Lemma firstn_drop_while (p : ascii -> bool) (t : str) :
  firstn (length t - length (drop_while p t)) t = take_while p t.
Proof.
  induction t as [|c t IH]; [reflexivity|].
  cbn [drop_while take_while]. destruct (p c).
  - pose proof (drop_while_length p t).
    replace (length (c :: t) - length (drop_while p t))
      with (S (length t - length (drop_while p t))) by (cbn [length]; lia).
    cbn [firstn]. now rewrite IH.
  - now rewrite Nat.sub_diag.
Qed.

Lemma take_while_all (p : ascii -> bool) (t : str) :
  Forall (fun c => p c = true) (take_while p t).
Proof.
  induction t as [|c t IH]; [constructor|].
  cbn. destruct (p c) eqn:E; now constructor.
Qed.

Lemma take_while_app (p : ascii -> bool) (x r : str) :
  Forall (fun c => p c = true) x ->
  match r with [] => True | c :: _ => p c = false end ->
  take_while p (x ++ r) = x.
Proof.
  intros Hx Hr. induction Hx as [|c x Hc _ IH].
  - destruct r as [|d r]; [reflexivity|]. cbn. now rewrite Hr.
  - cbn. now rewrite Hc, IH.
Qed.

(** A match of [name=(\w+)] at the head of [t]. *)
Lemma name_at (b : bool) (t : str) :
  match_at name_re b t
  = if startswith (s "name=") t then
      match skipn 5 t with
      | c :: t' =>
          if is_word c
          then Some (drop_while is_word t', [c :: take_while is_word t'])
          else None
      | [] => None
      end
    else None.
Proof.
  unfold match_at, name_re, plus. cbn [rmatch]. rewrite rmatch_lit.
  destruct (startswith (s "name=") t); [|reflexivity].
  change (length (s "name=")) with 5.
  destruct (skipn 5 t) as [|c t']; [reflexivity|]. cbn [rmatch].
  destruct (is_word c); [|reflexivity].
  rewrite (star_greedy_total is_word (is_nl c) t'
             (fun t'0 => (t'0, [] ++ [firstn (length (c :: t') - length t'0) (c :: t')]))).
  pose proof (drop_while_length is_word t').
  replace (length (c :: t') - length (drop_while is_word t'))
    with (S (length t' - length (drop_while is_word t'))) by (cbn [length]; lia).
  cbn [firstn app]. now rewrite firstn_drop_while.
Qed.

Lemma search_from_eq (r : regex) (b : bool) (t : str) :
  search_from r b t
  = match match_at r b t with
    | Some (_, g) => Some g
    | None =>
        match t with
        | c :: t' => search_from r (is_nl c) t'
        | [] => None
        end
    end.
Proof. destruct t; reflexivity. Qed.

(** Whatever [name=(\w+)] finds, group 1 is a non-empty run of word
    characters. *)
Lemma search_name_word (b : bool) (t : str) (g : list str) :
  search_from name_re b t = Some g -> word_name (group1 g).
Proof.
  revert b. induction t as [|c t IH]; intros b; rewrite search_from_eq, name_at.
  - cbn. discriminate.
  - destruct (startswith (s "name=") (c :: t)); [|apply IH].
    destruct (skipn 5 (c :: t)) as [|d t']; [apply IH|].
    destruct (is_word d) eqn:Hd; [|apply IH].
    intros [= <-]. split; [discriminate|].
    constructor; [exact Hd|apply take_while_all].
Qed.

(** In a header [bash name=<name>...] the search finds [<name>]. *)
Lemma search_bash_name (x r : str) :
  word_name x -> match r with [] => True | c :: _ => is_word c = false end ->
  search name_re (s "bash name=" ++ x ++ r) = Some [x].
Proof.
  intros [Hne Hx] Hr. destruct x as [|c x]; [congruence|].
  inversion Hx as [|? ? Hc Hx']; subst.
  unfold search.
  do 5 (rewrite search_from_eq, name_at;
        match goal with
        | |- context [startswith ?p ?t] =>
            change (startswith p t) with false
        end; cbn [app list_ascii_of_string s]).
  rewrite search_from_eq, name_at.
  match goal with
  | |- context [startswith ?p ?t] => change (startswith p t) with true
  end.
  cbn [skipn app]. rewrite Hc. now rewrite take_while_app.
Qed.

Lemma rstrip_head (u : str) :
  match u with [] => True | c :: _ => is_word c = false end ->
  match rstrip u with [] => True | c :: _ => is_word c = false end.
Proof.
  destruct (rstrip_split u) as (w & _ & E).
  destruct (rstrip u) as [|c r]; [trivial|]. now rewrite E.
Qed.

Lemma strip_bash_header (n : Doc.named) :
  Doc.named_ok n ->
  exists r,
    strip (Doc.inner (Doc.to_fence n)) = s "bash name=" ++ Doc.name n ++ r
    /\ match r with [] => True | c :: _ => is_word c = false end.
Proof.
  intros (Hne & Hw & _ & Ha & _).
  destruct (exists_last Hne) as (x & c & E).
  assert (Hc : is_space c = false).
  { apply word_not_space. rewrite E in Hw.
    apply Forall_app in Hw as [_ Hw]. now inversion Hw. }
  exists (rstrip (Doc.attrs n ++ nl :: Doc.render_lines (Doc.nbody n))).
  split.
  - unfold Doc.inner, Doc.to_fence, Doc.bash_header. cbn [Doc.header Doc.body].
    rewrite E.
    replace ((s "bash name=" ++ (x ++ [c]) ++ Doc.attrs n) ++ nl
             :: Doc.render_lines (Doc.nbody n))
      with ((s "bash name=" ++ x) ++ c
            :: (Doc.attrs n ++ nl :: Doc.render_lines (Doc.nbody n))) by assoc.
    rewrite strip_rstrip.
    replace (drop_ws ((s "bash name=" ++ x) ++ c :: Doc.attrs n ++ nl
                      :: Doc.render_lines (Doc.nbody n)))
      with ((s "bash name=" ++ x) ++ c :: Doc.attrs n ++ nl
            :: Doc.render_lines (Doc.nbody n)) by reflexivity.
    rewrite (rstrip_app _ _ _ Hc). assoc.
  - apply rstrip_head. destruct (Doc.attrs n); [reflexivity|exact Ha].
Qed.

Lemma walk_bash (names : gset str) (blocks : list str) (p q : str)
    (rest : list str) (g : list str) :
  startswith (s "yaml") (strip p) = false ->
  startswith (s "bash") (strip p) = true ->
  search name_re (strip p) = Some g ->
  walk names blocks (p :: q :: rest)
  = if decide (group1 g ∈ names)
    then inl (DuplicateBlockName (group1 g))
    else walk ({[group1 g]} ∪ names) (blocks ++ [strip q]) rest.
Proof. intros H1 H2 H3. cbn [walk]. now rewrite H1, H2, H3. Qed.

Lemma walk_blank (names : gset str) (blocks : list str) (p : str)
    (rest : list str) :
  spaces p -> walk names blocks (p :: rest) = walk names blocks rest.
Proof.
  intros Hp. cbn [walk]. now rewrite (strip_spaces p Hp), (blank_spaces p Hp).
Qed.

(** The segment walk over named bash fences, and on to what follows
    them. *)
Lemma walk_named (names : gset str) (blocks : list str) (ns : list Doc.named)
    (fs : list Doc.fence) :
  Forall Doc.named_ok ns ->
  walk names blocks (Doc.segments (map Doc.to_fence ns ++ fs))
  = match walk_names names blocks ns with
    | inl e => inl e
    | inr (names', blocks') => walk names' blocks' (Doc.segments fs)
    end.
Proof.
  intros Hns. revert names blocks.
  induction Hns as [|n ns Hn _ IH]; intros names blocks; [reflexivity|].
  cbn [map app Doc.segments walk_names].
  destruct (strip_bash_header n Hn) as (r & E & Hr).
  assert (Hw : word_name (Doc.name n)) by (split; apply Hn).
  rewrite (walk_bash names blocks _ _ _ [Doc.name n]);
    [|rewrite E; reflexivity..|rewrite E; now apply search_bash_name].
  cbn [group1 nth]. destruct (decide (Doc.name n ∈ names)); [reflexivity|].
  rewrite <- IH. do 3 f_equal.
  assert (Hg : Doc.gap_ok (Doc.nafter n)) by apply Hn.
  apply strip_spaces. cbn [Doc.to_fence Doc.after].
  destruct (map Doc.to_fence ns ++ fs).
  - now apply spaces_gap.
  - apply spaces_app; [apply Hg|repeat constructor].
Qed.

Lemma named_fence_ok (n : Doc.named) : Doc.named_ok n -> Doc.fence_ok (Doc.to_fence n).
Proof.
  intros (_ & Hw & Ha & _ & Hb & Hi & Hg). repeat split; try assumption; try apply Hg.
  cbn [Doc.to_fence Doc.header]. unfold Doc.bash_header.
  apply no_nl_app; [repeat constructor|]. apply no_nl_app; [|exact Ha].
  eapply List.Forall_impl; [|exact Hw]. cbn. intros c Hc.
  now apply not_space_not_nl, word_not_space.
Qed.

Lemma named_fences_ok (ns : list Doc.named) :
  Forall Doc.named_ok ns -> Forall Doc.fence_ok (map Doc.to_fence ns).
Proof.
  induction 1 as [|n ns Hn _ IH]; cbn [map]; constructor;
    [now apply named_fence_ok|exact IH].
Qed.

(** The names are collected until one repeats. *)
Lemma walk_names_cases (names : gset str) (blocks : list str) (ns : list Doc.named) :
  (exists n, walk_names names blocks ns = inl (DuplicateBlockName n)
             /\ In n (map Doc.name ns))
  \/ (exists names',
        walk_names names blocks ns = inr (names', blocks ++ map (fun _ => []) ns)
        /\ List.NoDup (map Doc.name ns)
        /\ (forall x, In x (map Doc.name ns) -> x ∉ names)).
Proof.
  revert names blocks. induction ns as [|n ns IH]; intros names blocks.
  - right. exists names. cbn. rewrite app_nil_r.
    repeat split; [constructor|intros x []].
  - cbn [walk_names map]. destruct (decide (Doc.name n ∈ names)) as [Hin|Hout].
    { left. exists (Doc.name n). split; [reflexivity|now left]. }
    destruct (IH ({[Doc.name n]} ∪ names) (blocks ++ [[]]))
      as [(x & E & Hx)|(names' & E & Hnd & Hfresh)].
    + left. exists x. split; [exact E|now right].
    + right. exists names'. rewrite E, <- app_assoc. repeat split.
      * constructor; [|exact Hnd]. intros Hn. apply (Hfresh _ Hn). set_solver.
      * intros x [<-|Hx]; [exact Hout|]. specialize (Hfresh x Hx). set_solver.
Qed.

Lemma walk_names_fresh (names : gset str) (blocks : list str) (ns : list Doc.named) :
  List.NoDup (map Doc.name ns) ->
  (forall x, In x (map Doc.name ns) -> x ∉ names) ->
  exists names',
    walk_names names blocks ns = inr (names', blocks ++ map (fun _ => []) ns).
Proof.
  revert names blocks. induction ns as [|n ns IH]; intros names blocks Hnd Hf.
  - exists names. cbn. now rewrite app_nil_r.
  - cbn [walk_names map]. inversion Hnd as [|? ? Hn Hnd']; subst.
    destruct (decide (Doc.name n ∈ names)) as [Hin|_].
    { exfalso. apply (Hf (Doc.name n)); [now left|exact Hin]. }
    destruct (IH ({[Doc.name n]} ∪ names) (blocks ++ [[]]) Hnd') as (names' & E).
    + intros x Hx Hin.
      apply elem_of_union in Hin as [Hin|Hin].
      * apply elem_of_singleton in Hin. now subst.
      * apply (Hf x); [now right|exact Hin].
    + exists names'. rewrite E. now rewrite <- app_assoc.
Qed.

(** ** The parser on documents of the documented shape *)

Lemma blank_yaml (ys : list Doc.line) :
  Doc.yaml_ok ys -> blank (Doc.render_lines ys) = false.
Proof.
  intros [Hls Hf]. destruct ys as [|l ls].
  - contradiction.
  - inversion Hls as [|? ? (Hw & _ & (c & u & E & Hc) & _) _]; subst.
    change (Doc.render_lines (l :: ls))
      with (Doc.render_line l ++ Doc.render_lines ls).
    unfold Doc.render_line. rewrite E. rewrite <- !app_assoc. cbn [app].
    now apply blank_headed.
Qed.

Section Documents.
Context {Y : Type}.
Variable safe_load : str -> str + Y.

Lemma parse_text_doc (d : Doc.t) :
  Doc.ok d ->
  parse_text safe_load (Doc.render d)
  = match safe_load (Doc.render_lines (Doc.yaml d)) with
    | inl e => inl (YamlParseError e)
    | inr front_matter =>
        match walk ∅ [] (Doc.segments (Doc.fences d)) with
        | inl e => inl e
        | inr (_, []) => inl NoExecutableBlocks
        | inr (_, bash_blocks) => inr (front_matter, bash_blocks)
        end
    end.
Proof.
  intros Hd. unfold parse_text.
  rewrite (split_doc d Hd), (prose_check_doc d Hd).
  destruct Hd as (Hy & Hg & Hfs). cbn [nth].
  rewrite (blank_yaml _ Hy).
  replace (length _ <? 3) with false by (destruct (Doc.fences d); reflexivity).
  cbn [orb negb]. change (blank []) with true. cbn [negb].
  destruct (safe_load _) as [e|fm]; [reflexivity|].
  destruct (Doc.fences d) as [|f fs]; [reflexivity|].
  cbn [skipn]. now rewrite walk_blank by constructor.
Qed.

Lemma named_doc_ok (ys : list Doc.line) (g : Doc.gap) (ns : list Doc.named) :
  Doc.yaml_ok ys -> Doc.gap_ok g -> Forall Doc.named_ok ns ->
  Doc.ok (Doc.named_doc ys g ns).
Proof.
  intros Hy Hg Hns. repeat split; try apply Hy; try apply Hg.
  now apply named_fences_ok.
Qed.

(** What the parser makes of a front-matter block followed by named
    bash fences. *)
Lemma parse_text_named (ys : list Doc.line) (g : Doc.gap) (ns : list Doc.named) :
  Doc.yaml_ok ys -> Doc.gap_ok g -> Forall Doc.named_ok ns ->
  parse_text safe_load (Doc.render (Doc.named_doc ys g ns))
  = match safe_load (Doc.render_lines ys) with
    | inl e => inl (YamlParseError e)
    | inr front_matter =>
        match walk_names ∅ [] ns with
        | inl e => inl e
        | inr (_, []) => inl NoExecutableBlocks
        | inr (_, bash_blocks) => inr (front_matter, bash_blocks)
        end
    end.
Proof.
  intros Hy Hg Hns.
  rewrite (parse_text_doc _ (named_doc_ok ys g ns Hy Hg Hns)).
  cbn [Doc.named_doc Doc.yaml Doc.fences].
  destruct (safe_load _) as [e|fm]; [reflexivity|].
  pose proof (walk_named ∅ [] ns [] Hns) as E. rewrite app_nil_r in E.
  rewrite E. now destruct (walk_names ∅ [] ns) as [e|[names blocks]].
Qed.

Lemma body_text_visible (n : Doc.named) :
  Forall Doc.line_ok (Doc.nbody n) -> Doc.nbody n <> [] -> Doc.body_text n <> [].
Proof.
  intros Hb Hne E. destruct (Doc.nbody n) as [|l ls] eqn:En; [congruence|].
  inversion Hb as [|? ? (Hw & _ & (c & u & Et & Hc) & _) _]; subst.
  assert (H : blank (Doc.render_lines (l :: ls)) = false).
  { change (Doc.render_lines (l :: ls))
      with (Doc.render_line l ++ Doc.render_lines ls).
    unfold Doc.render_line. rewrite Et, <- !app_assoc. cbn [app].
    now apply blank_headed. }
  unfold Doc.body_text in E. rewrite En in E.
  unfold blank in H. rewrite E in H. discriminate H.
Qed.

(** C1 (as the code has it). For every document made of a well-formed
    front-matter block and one or more uniquely named bash fences,
    [parse_markdown] succeeds and returns the loaded front matter with
    a list as long as the number of fences, but every entry of the
    list is the empty string: the text between the fences is not
    returned, so a fence with a non-empty body is not represented by
    its trimmed body. *)
Theorem parse_text_returns_empty_bodies (ys : list Doc.line) (g : Doc.gap)
    (ns : list Doc.named) (front_matter : Y) :
  Doc.yaml_ok ys -> Doc.gap_ok g -> Forall Doc.named_ok ns -> ns <> [] ->
  List.NoDup (map Doc.name ns) ->
  safe_load (Doc.render_lines ys) = inr front_matter ->
  parse_text safe_load (Doc.render (Doc.named_doc ys g ns))
  = inr (front_matter, map (fun _ => []) ns)
  /\ (forall n, In n ns -> Doc.nbody n <> [] -> Doc.body_text n <> []).
Proof.
  intros Hy Hg Hns Hne Hnd Hl. split.
  - rewrite (parse_text_named ys g ns Hy Hg Hns), Hl.
    destruct (walk_names_fresh ∅ [] ns Hnd) as (names' & E);
      [intros x _; set_solver|].
    rewrite E. cbn [app]. destruct ns; [congruence|reflexivity].
  - intros n Hin. apply body_text_visible.
    rewrite List.Forall_forall in Hns. apply (Hns n Hin).
Qed.

(** C6 (as the code has it). A document without front matter that
    holds named bash fences does not fail with the
    missing-front-matter error: the text of its first fence is handed
    to the YAML loader as if it were the front matter, and the walk
    goes on with the fences after it. *)
Theorem fences_only_taken_for_front_matter (n : Doc.named) (ns : list Doc.named) :
  Forall Doc.named_ok (n :: ns) ->
  parse_text safe_load (Doc.render_fences (map Doc.to_fence (n :: ns)))
  = match safe_load (Doc.inner (Doc.to_fence n)) with
    | inl e => inl (YamlParseError e)
    | inr front_matter =>
        match walk_names ∅ [] ns with
        | inl e => inl e
        | inr (_, []) => inl NoExecutableBlocks
        | inr (_, bash_blocks) => inr (front_matter, bash_blocks)
        end
    end
  /\ parse_text safe_load (Doc.render_fences (map Doc.to_fence (n :: ns)))
     <> inl MissingFrontMatter.
Proof.
  intros Hns.
  assert (E : parse_text safe_load (Doc.render_fences (map Doc.to_fence (n :: ns)))
              = match safe_load (Doc.inner (Doc.to_fence n)) with
                | inl e => inl (YamlParseError e)
                | inr front_matter =>
                    match walk_names ∅ [] ns with
                    | inl e => inl e
                    | inr (_, []) => inl NoExecutableBlocks
                    | inr (_, bash_blocks) => inr (front_matter, bash_blocks)
                    end
                end).
  { pose proof (named_fences_ok _ Hns) as Hfs.
    inversion Hns as [|? ? Hn Hns']; subst.
    unfold parse_text, split, prose_check, sub.
    pose proof (split_fences [] _ (List.Forall_nil _) Hfs) as Es.
    cbn [app] in Es. rewrite Es.
    rewrite sub_fences_front_matter_re, sub_fences_fence_re by exact Hfs.
    cbn [map Doc.segments nth length skipn].
    assert (Hb : blank (Doc.inner (Doc.to_fence n)) = false)
      by (apply (blank_headed [] "b"%char); [constructor|reflexivity]).
    rewrite Hb. change (blank []) with true. cbn [Nat.ltb Nat.leb orb negb].
    destruct (safe_load _) as [e|fm]; [reflexivity|].
    rewrite walk_blank.
    2:{ assert (Hg : Doc.gap_ok (Doc.nafter n)) by apply Hn.
        cbn [Doc.to_fence Doc.after]. destruct (map Doc.to_fence ns).
        - now apply spaces_gap.
        - apply spaces_app; [apply Hg|repeat constructor]. }
    pose proof (walk_named ∅ [] ns [] Hns') as Ew. rewrite app_nil_r in Ew.
    rewrite Ew. now destruct (walk_names ∅ [] ns) as [e|[names blocks]]. }
  split; [exact E|]. rewrite E.
  destruct (safe_load _) as [e|fm]; [discriminate|].
  destruct (walk_names_cases ∅ [] ns) as [(x & Ex & _)|(names' & Ex & _)];
    rewrite Ex; [discriminate|]. cbn [app]. destruct ns; discriminate.
Qed.
End Documents.

(** ** Every extracted name is a run of word characters *)

Lemma ascii_word (c : ascii) :
  is_word c = true -> is_ascii c = true -> is_ascii_word c = true.
Proof.
  destruct c as [b0 b1 b2 b3 b4 b5 b6 b7].
  destruct b0, b1, b2, b3, b4, b5, b6, b7; vm_compute; congruence.
Qed.

Lemma split_from_chars (r : regex) (b : bool) (k : nat) (t p : str) (c : ascii) :
  In p (split_from r b k t) -> In c p -> In c t.
Proof.
  revert b k p. induction t as [|a t IH]; intros b k p Hp Hc.
  - cbn in Hp. destruct Hp as [<-|[]]. destruct Hc.
  - cbn [split_from] in Hp.
    assert (Hcons : forall l, In p (cons_hd a l) ->
              (forall q, In q l -> In c q -> In c t) -> In c (a :: t)).
    { intros l Hl Hq. destruct l as [|h l]; cbn in Hl.
      - destruct Hl as [<-|[]]. destruct Hc as [<-|[]]. now left.
      - destruct Hl as [<-|Hl].
        + destruct Hc as [<-|Hc]; [now left|]. right. apply (Hq h); [now left|exact Hc].
        + right. apply (Hq p); [now right|exact Hc]. }
    destruct k as [|k].
    + destruct (match_len r b (a :: t)) as [[|m]|].
      * apply (Hcons _ Hp). intros q Hq Hcq. eapply IH; eassumption.
      * destruct Hp as [<-|Hp]; [destruct Hc|]. right. eapply IH; eassumption.
      * apply (Hcons _ Hp). intros q Hq Hcq. eapply IH; eassumption.
    + right. eapply IH; eassumption.
Qed.

Lemma strip_chars (t : str) (c : ascii) : In c (strip t) -> In c t.
Proof.
  intros H. destruct (drop_ws_split t) as (w & _ & E).
  destruct (rstrip_split (drop_ws t)) as (w' & _ & E').
  rewrite E, E'. apply in_or_app. right. apply in_or_app. now left.
Qed.

Lemma take_while_chars (p : ascii -> bool) (t : str) (c : ascii) :
  In c (take_while p t) -> In c t.
Proof.
  induction t as [|a t IH]; [intros []|].
  cbn. destruct (p a); [|intros []]. intros [<-|H]; [now left|right; auto].
Qed.

Lemma skipn_chars (n : nat) (t : str) (c : ascii) : In c (skipn n t) -> In c t.
Proof.
  intros H. rewrite <- (firstn_skipn n t). apply in_or_app. now right.
Qed.

Lemma search_name_chars (b : bool) (t : str) (g : list str) (c : ascii) :
  search_from name_re b t = Some g -> In c (group1 g) -> In c t.
Proof.
  revert b. induction t as [|a t IH]; intros b; rewrite search_from_eq, name_at.
  - cbn. discriminate.
  - destruct (startswith (s "name=") (a :: t));
      [|intros H1 H2; right; eauto].
    destruct (skipn 5 (a :: t)) as [|d t'] eqn:Es; [intros H1 H2; right; eauto|].
    destruct (is_word d); [|intros H1 H2; right; eauto].
    intros [= <-] Hc. cbn [group1 nth] in Hc.
    apply (skipn_chars 5). rewrite Es.
    destruct Hc as [<-|Hc]; [now left|right]. now apply take_while_chars in Hc.
Qed.

(** What holds of the names found holds of the names collected. *)
Lemma walk_names_invariant (P : str -> Prop) (ps : list str) :
  (forall p g, In p ps -> search name_re (strip p) = Some g -> P (group1 g)) ->
  forall names blocks names' blocks',
    (forall n, n ∈ names -> P n) ->
    walk names blocks ps = inr (names', blocks') ->
    forall n, n ∈ names' -> P n.
Proof.
  assert (H : forall ps,
    ((forall p g, In p ps -> search name_re (strip p) = Some g -> P (group1 g)) ->
     forall names blocks names' blocks',
       (forall n, n ∈ names -> P n) ->
       walk names blocks ps = inr (names', blocks') ->
       forall n, n ∈ names' -> P n)
    /\ forall q,
     ((forall p g, In p (q :: ps) -> search name_re (strip p) = Some g ->
                   P (group1 g)) ->
      forall names blocks names' blocks',
        (forall n, n ∈ names -> P n) ->
        walk names blocks (q :: ps) = inr (names', blocks') ->
        forall n, n ∈ names' -> P n)).
  { clear ps. induction ps as [|a ps [IH1 IH2]].
    - split.
      + intros _ names blocks names' blocks' Hn [= <- <-]. exact Hn.
      + intros q _ names blocks names' blocks' Hn. cbn [walk].
        destruct (startswith (s "yaml") (strip q)); [intros [= <- <-]; exact Hn|].
        destruct (startswith (s "bash") (strip q)); [discriminate|].
        destruct (blank q); [|discriminate]. intros [= <- <-]. exact Hn.
    - split; [apply IH2|].
      intros q Hs names blocks names' blocks' Hn. cbn [walk].
      assert (Hs' : forall p g, In p ps -> search name_re (strip p) = Some g ->
                                P (group1 g))
        by (intros p g Hp; apply Hs; now do 2 right).
      destruct (startswith (s "yaml") (strip q)); [now apply IH1|].
      destruct (startswith (s "bash") (strip q)).
      + destruct (search name_re (strip q)) as [g|] eqn:Eg; [|discriminate].
        destruct (decide (group1 g ∈ names)) as [|Hfresh]; [discriminate|].
        apply IH1; [exact Hs'|].
        intros x Hin. apply elem_of_union in Hin as [Hin|Hin]; [|now apply Hn].
        apply elem_of_singleton in Hin. subst x. apply (Hs q g); [now left|exact Eg].
      + destruct (blank q); [|discriminate].
        apply IH2; [|exact Hn]. intros p g Hp. apply Hs. now right. }
  apply H.
Qed.

Section Names.
Context {Y : Type}.
Variable safe_load : str -> str + Y.

(** C9 (amended). For every document the parser accepts, every name
    the loop has collected is a non-empty run of [\w] characters:
    letters and digits in the Unicode sense, or underscore; it is in
    [[A-Za-z0-9_]+] when the document holds ASCII characters only. *)
Theorem block_names_are_words (content : str) (front_matter : Y)
    (bash_blocks : list str) :
  parse_text safe_load content = inr (front_matter, bash_blocks) ->
  exists names,
    walk ∅ [] (skipn 2 (split marker_re content)) = inr (names, bash_blocks)
    /\ forall n, n ∈ names ->
         word_name n
         /\ (Forall (fun c => is_ascii c = true) content -> ascii_name n).
Proof.
  unfold parse_text.
  destruct (_ || _); [discriminate|].
  destruct (negb _); [discriminate|].
  destruct (safe_load _) as [e|fm]; [discriminate|].
  destruct (walk ∅ [] _) as [e|[names blocks]] eqn:Ew; [discriminate|].
  destruct blocks as [|b0 blocks]; [discriminate|].
  intros [= <- <-]. exists names. split; [reflexivity|].
  intros n Hn.
  assert (H : word_name n /\ Forall (fun c => In c content) n).
  { revert n Hn.
    eapply (walk_names_invariant
              (fun n => word_name n /\ Forall (fun c => In c content) n));
      [| |exact Ew].
    - intros p g Hp Hg. split; [now apply (search_name_word true (strip p))|].
      apply List.Forall_forall. intros c Hc.
      apply (split_from_chars marker_re true 0 content p).
      + change (In p (split marker_re content)).
        rewrite <- (firstn_skipn 2 (split marker_re content)).
        apply in_or_app. now right.
      + apply strip_chars. now apply (search_name_chars true _ g).
    - intros n Hn. set_solver. }
  destruct H as [[Hne Hw] Hc]. split; [now split|].
  intros Ha. split; [exact Hne|].
  rewrite List.Forall_forall in *. intros c Hin.
  apply ascii_word; [now apply Hw|]. apply Ha. now apply Hc.
Qed.
End Names.

(** ** Stray content *)

Lemma after_last_nl_length (v r : str) :
  after_last_nl v = Some r -> length r < length v.
Proof.
  revert r. induction v as [|c v IH]; intros r; [discriminate|].
  cbn. destruct (after_last_nl v) as [r'|].
  - intros [= <-]. specialize (IH r' eq_refl). lia.
  - destruct (is_nl c); [|discriminate]. intros [= <-]. lia.
Qed.

Lemma after_last_nl_more (u w r0 : str) :
  after_last_nl u = Some r0 -> exists r, after_last_nl (u ++ w) = Some r.
Proof.
  revert r0. induction u as [|c u IH]; intros r0; [discriminate|].
  cbn. destruct (after_last_nl u) as [r'|].
  - intros _. destruct (IH r' eq_refl) as (r & ->). now exists r.
  - destruct (is_nl c); [|discriminate]. intros _.
    destruct (after_last_nl (u ++ w)) as [r|]; eauto.
Qed.

(** A match at the head gives [re.split] an empty first segment and at
    least one more. *)
Lemma split_found (r : regex) (b : bool) (t t' : str) (g : list str) :
  match_at r b t = Some (t', g) -> length t' < length t ->
  exists segs, segs <> [] /\ split_from r b 0 t = [] :: segs.
Proof.
  intros H Hlen. destruct t as [|c t]; [cbn in Hlen; lia|].
  cbn [split_from]. unfold match_len. rewrite H.
  destruct (length (c :: t) - length t') as [|n] eqn:E; [lia|].
  eexists. split; [|reflexivity]. apply split_from_nonempty.
Qed.

(** Whatever follows the front matter, the first two segments are the
    empty text before it and its lines, and more segments follow. *)
Lemma front_matter_split (d : Doc.t) (z : str) :
  Doc.yaml_ok (Doc.yaml d) -> Doc.gap_ok (Doc.fm_after d) ->
  exists segs,
    segs <> []
    /\ split marker_re (Doc.front_matter d ++ z)
       = [] :: Doc.render_lines (Doc.yaml d) :: segs.
Proof.
  intros Hy Hg.
  destruct (drop_ws_split z) as (w & Hw & Ez).
  pose proof (drop_ws_head z) as Hh. fold (headed (drop_ws z)) in Hh.
  destruct (after_last_nl_more _ w _ (after_last_nl_gap _ Hg)) as (r & Er).
  assert (Hv : spaces (Doc.render_gap (Doc.fm_after d) ++ w))
    by (apply spaces_app; [now apply spaces_gap|exact Hw]).
  pose proof (marker_dashes _ (drop_ws z) r Hv Hh Er) as Hm.
  destruct (split_found marker_re true _ _ _ Hm) as (segs & Hne & Es).
  { apply after_last_nl_length in Er. rewrite !length_app in *. lia. }
  exists segs. split; [exact Hne|].
  unfold split, Doc.front_matter. rewrite Ez at 1.
  replace ((dashes ++ nl :: Doc.render_lines (Doc.yaml d) ++ dashes
            ++ Doc.render_gap (Doc.fm_after d)) ++ w ++ drop_ws z)
    with (dashes ++ nl :: Doc.render_lines (Doc.yaml d)
          ++ dashes ++ (Doc.render_gap (Doc.fm_after d) ++ w) ++ drop_ws z)
    by assoc.
  rewrite split_open_lines by (exact Hy || reflexivity).
  rewrite Es. cbn [prepend]. now rewrite app_nil_r.
Qed.

Lemma sub_head (r : regex) (b : bool) (c : ascii) (t : str) :
  match_len r b (c :: t) = None ->
  sub_from r b 0 (c :: t) = c :: sub_from r (is_nl c) 0 t.
Proof. intros H. cbn [sub_from]. now rewrite H. Qed.

Lemma sub_fences_then (f : Doc.fence) (fs : list Doc.fence) (w y : str) :
  Forall Doc.fence_ok (f :: fs) -> spaces w -> headed y ->
  sub_from fence_re true 0 (Doc.render_fences (f :: fs) ++ w ++ y)
  = sub_from fence_re (bol_after true w) 0 y.
Proof.
  intros Hfs Hw Hy. revert f Hfs.
  induction fs as [|f' fs IH]; intros f Hfs;
    inversion Hfs as [|? ? Hf Hfs']; subst;
    change (Doc.render_fences (f :: ?l))
      with (Doc.render_fence f ++ Doc.render_fences l);
    rewrite <- app_assoc.
  - cbn [Doc.render_fences map concat app]. now apply sub_fence_ws.
  - rewrite sub_fence; [now apply IH|exact Hf|reflexivity].
Qed.

(** A content line at the head of the text survives the removal of the
    fenced blocks. *)
Lemma stray_line_visible (l : Doc.line) (b : bool) (rest : str) :
  Doc.line_ok l ->
  blank (sub_from fence_re b 0 (Doc.text l ++ nl :: rest)) = false.
Proof.
  intros Hl. pose proof (line_stops_ticks l rest Hl) as Hs.
  destruct Hl as (_ & _ & (c & u & E & Hc) & _).
  rewrite E in Hs |- *. cbn [app] in Hs |- *.
  rewrite (sub_head fence_re b c _ (fence_re_dead b _ Hs)).
  exact (blank_headed [] c _ (List.Forall_nil _) Hc).
Qed.

Lemma inert_front_matter_re_line (l : Doc.line) (b : bool) (rest : str) :
  Doc.line_ok l -> inert (match_len front_matter_re) b (Doc.render_line l) rest.
Proof.
  intros Hl. pose proof (line_stops_dashes l rest Hl) as Hs.
  destruct Hl as (Hw & Hx & (c & u & E & Hc) & _).
  apply (inert_line (match_len front_matter_re) (stops dashes)
           front_matter_re_dead front_matter_re_mid (stops_ws dashes));
    [exact Hw|exact Hx|rewrite E; discriminate|exact Hs].
Qed.

(** A paragraph behind the front matter or behind a fenced block is
    left over by the prose check, whatever follows it. *)
Lemma prose_check_stray (d : Doc.t) (l : Doc.line) (rest : str) :
  Doc.ok d -> Doc.line_ok l ->
  blank (prose_check (Doc.render d ++ Doc.render_line l ++ rest)) = false.
Proof.
  intros (Hy & Hg & Hfs) Hl. unfold prose_check, sub, Doc.render.
  assert (Hh : headed (Doc.text l ++ nl :: rest)) by now apply line_headed.
  assert (Hlw : spaces (Doc.lead l)) by apply Hl.
  destruct (Doc.fences d) as [|f fs] eqn:Ef.
  - cbn [Doc.render_fences map concat]. rewrite app_nil_r.
    unfold Doc.render_line. rewrite <- !app_assoc. cbn [app].
    rewrite (sub_front_matter_ws d _ _ Hy Hg Hlw Hh).
    change (Doc.text l ++ nl :: rest) with (Doc.text l ++ [nl] ++ rest).
    rewrite app_assoc, sub_inert.
    2:{ apply (inert_front_matter_re_line (Doc.mk_line [] (Doc.text l))).
        destruct Hl as (_ & Hl). split; [constructor|exact Hl]. }
    rewrite <- app_assoc. now apply stray_line_visible.
  - rewrite <- app_assoc.
    rewrite sub_front_matter by (assumption || reflexivity).
    rewrite app_assoc, sub_inert.
    2:{ apply inert_app; [|now apply inert_front_matter_re_line].
        apply (inert_fences (match_len front_matter_re) (stops dashes));
          auto using front_matter_re_dead, front_matter_re_mid,
            line_stops_dashes, stops_dashes_ticks.
        - intros; now apply stops_ws.
        - unfold Doc.render_line. rewrite <- !app_assoc.
          apply stops_spaces; [exact Hlw|]. now apply line_stops_dashes. }
    unfold Doc.render_line. rewrite <- !app_assoc. cbn [app].
    rewrite (sub_fences_then f fs _ _ Hfs Hlw);
      [now apply stray_line_visible|now apply line_headed].
Qed.

(** ** Names on the opening line *)

Lemma mentions_name_cons (c : ascii) (t : str) :
  mentions_name (c :: t) = false ->
  (startswith (s "name=") (c :: t)
   && match skipn 5 (c :: t) with d :: _ => is_word d | [] => false end) = false
  /\ mentions_name t = false.
Proof. cbn [mentions_name]. intros H. now apply orb_false_elim in H. Qed.

Lemma name_at_none (b : bool) (t : str) :
  (startswith (s "name=") t
   && match skipn 5 t with d :: _ => is_word d | [] => false end) = false ->
  match_at name_re b t = None.
Proof.
  rewrite name_at. destruct (startswith (s "name=") t); [|reflexivity].
  cbn [andb]. destruct (skipn 5 t) as [|d t']; [reflexivity|].
  now intros ->.
Qed.

(** Whether [name=<word>] stands at the head of a text is settled by
    its first six characters. *)
Lemma name_here_short (a w : str) :
  6 <= length a ->
  (startswith (s "name=") (a ++ w)
   && match skipn 5 (a ++ w) with d :: _ => is_word d | [] => false end)
  = (startswith (s "name=") a
     && match skipn 5 a with d :: _ => is_word d | [] => false end).
Proof.
  destruct a as [|c1 [|c2 [|c3 [|c4 [|c5 [|c6 a]]]]]]; cbn [length];
    try lia.
  intros _. reflexivity.
Qed.

(** The search finds the first [name=] that is followed by a word
    character. *)
Lemma search_first_name (u x r : str) (b : bool) :
  mentions_name (u ++ s "name=") = false ->
  word_name x ->
  match r with [] => True | c :: _ => is_word c = false end ->
  search_from name_re b (u ++ s "name=" ++ x ++ r) = Some [x].
Proof.
  intros Hm [Hne Hx] Hr. revert b Hm.
  induction u as [|c u IH]; intros b Hm.
  - cbn [app]. rewrite search_from_eq, name_at.
    rewrite startswith_app.
    change (skipn 5 (s "name=" ++ x ++ r)) with (x ++ r).
    destruct x as [|d x]; [congruence|].
    inversion Hx as [|? ? Hd Hx']; subst.
    cbn [app]. rewrite Hd. now rewrite take_while_app.
  - destruct (mentions_name_cons c (u ++ s "name=") Hm) as [H1 H2].
    change ((c :: u) ++ s "name=" ++ x ++ r) with (c :: u ++ s "name=" ++ x ++ r).
    rewrite search_from_eq, name_at_none; [now apply IH|].
    replace (c :: u ++ s "name=" ++ x ++ r)
      with ((c :: u ++ s "name=") ++ x ++ r)
      by (cbn [app]; now rewrite <- !app_assoc).
    rewrite name_here_short; [exact H1|].
    cbn [length]. rewrite length_app. cbn [length s list_ascii_of_string]. lia.
Qed.

(** ** Blocks *)

Lemma strip_block_header (b : Block.bash) :
  Block.bash_ok b ->
  exists r,
    Block.label (Block.to_fence (Block.Bash b))
    = (s "bash" ++ Block.before b) ++ s "name=" ++ Block.name b ++ r
    /\ match r with [] => True | c :: _ => is_word c = false end.
Proof.
  intros ((Hne & Hw) & _ & _ & _ & Ha & _).
  destruct (exists_last Hne) as (x & c & E).
  assert (Hc : is_space c = false).
  { apply word_not_space. rewrite E in Hw.
    apply Forall_app in Hw as [_ Hw]. now inversion Hw. }
  exists (rstrip (Block.attrs b ++ nl :: Doc.render_lines (Block.body b))).
  split.
  - unfold Block.label, Doc.inner, Block.to_fence, Block.header.
    cbn [Doc.header Doc.body]. rewrite E.
    replace ((s "bash" ++ Block.before b ++ s "name=" ++ (x ++ [c]) ++ Block.attrs b)
             ++ nl :: Doc.render_lines (Block.body b))
      with (((s "bash" ++ Block.before b) ++ s "name=" ++ x) ++ c
            :: (Block.attrs b ++ nl :: Doc.render_lines (Block.body b)))
      by assoc.
    rewrite strip_rstrip.
    replace (drop_ws (((s "bash" ++ Block.before b) ++ s "name=" ++ x) ++ c
                      :: Block.attrs b ++ nl :: Doc.render_lines (Block.body b)))
      with (((s "bash" ++ Block.before b) ++ s "name=" ++ x) ++ c
            :: Block.attrs b ++ nl :: Doc.render_lines (Block.body b))
      by reflexivity.
    rewrite (rstrip_app _ _ _ Hc). assoc.
  - apply rstrip_head. destruct (Block.attrs b); [reflexivity|exact Ha].
Qed.

Lemma block_fence_ok (x : Block.t) : Block.ok x -> Doc.fence_ok (Block.to_fence x).
Proof.
  destruct x as [b|f]; [|now intros [H _]].
  intros ((_ & Hw) & Hb & _ & Ha & _ & Hl & Hi & Hg).
  repeat split; try assumption; try apply Hg.
  cbn [Block.to_fence Doc.header]. unfold Block.header.
  apply no_nl_app; [repeat constructor|]. apply no_nl_app; [exact Hb|].
  apply no_nl_app; [repeat constructor|]. apply no_nl_app; [|exact Ha].
  eapply List.Forall_impl; [|exact Hw]. cbn. intros c Hc.
  now apply not_space_not_nl, word_not_space.
Qed.

Lemma block_fences_ok (xs : list Block.t) :
  Forall Block.ok xs -> Forall Doc.fence_ok (map Block.to_fence xs).
Proof.
  induction 1 as [|x xs Hx _ IH]; cbn [map]; constructor;
    [now apply block_fence_ok|exact IH].
Qed.

(** The segment behind a fence holds white space only. *)
Lemma spaces_behind (f : Doc.fence) (fs : list Doc.fence) :
  Doc.gap_ok (Doc.after f) ->
  spaces match fs with
         | [] => Doc.render_gap (Doc.after f)
         | _ => Doc.rest_of_line (Doc.after f) ++ [nl]
         end.
Proof.
  intros Hg. destruct fs.
  - now apply spaces_gap.
  - apply spaces_app; [apply Hg|repeat constructor].
Qed.

(** One step of the segment walk, on a block. *)
Lemma walk_block (names : gset str) (blocks : list str) (x : Block.t)
    (fs : list Doc.fence) :
  Block.ok x ->
  walk names blocks (Doc.segments (Block.to_fence x :: fs))
  = match x with
    | Block.Bash b =>
        if decide (Block.name b ∈ names)
        then inl (DuplicateBlockName (Block.name b))
        else walk ({[Block.name b]} ∪ names) (blocks ++ [[]]) (Doc.segments fs)
    | Block.Passed _ => walk names blocks (Doc.segments fs)
    end.
Proof.
  intros Hx. pose proof (block_fence_ok x Hx) as (_ & _ & _ & Hg).
  pose proof (spaces_behind _ fs Hg) as Hs.
  cbn [Doc.segments]. destruct x as [b|f].
  - destruct (strip_block_header b Hx) as (r & E & Hr).
    unfold Block.label in E.
    rewrite (walk_bash names blocks _ _ _ [Block.name b]);
      [|rewrite E; reflexivity..|].
    + cbn [group1 nth]. now rewrite (strip_spaces _ Hs).
    + rewrite E. apply search_first_name; [|apply Hx|exact Hr].
      rewrite <- app_assoc. apply Hx.
  - destruct Hx as [_ [Hy|He]]; unfold Block.label in *;
      cbn [Block.to_fence] in *.
    + cbn [walk]. now rewrite Hy.
    + cbn [walk]. unfold blank. rewrite He. cbn [startswith s list_ascii_of_string].
      fold (blank match fs with
                  | [] => Doc.render_gap (Doc.after f)
                  | _ => Doc.rest_of_line (Doc.after f) ++ [nl]
                  end).
      rewrite (strip_spaces _ Hs), (blank_spaces _ Hs). reflexivity.
Qed.

(** The segment walk over blocks, and on to what follows them. *)
Lemma walk_blocks (names : gset str) (blocks : list str) (xs : list Block.t)
    (fs : list Doc.fence) :
  Forall Block.ok xs ->
  walk names blocks (Doc.segments (map Block.to_fence xs ++ fs))
  = match collect names blocks (Block.names xs) with
    | inl e => inl e
    | inr (names', blocks') => walk names' blocks' (Doc.segments fs)
    end.
Proof.
  intros Hxs. revert names blocks.
  induction Hxs as [|x xs Hx _ IH]; intros names blocks; [reflexivity|].
  change (map Block.to_fence (x :: xs) ++ fs)
    with (Block.to_fence x :: (map Block.to_fence xs ++ fs)).
  rewrite (walk_block names blocks x _ Hx).
  destruct x as [b|f]; cbn [Block.names flat_map app collect].
  - destruct (decide (Block.name b ∈ names)); [reflexivity|apply IH].
  - apply IH.
Qed.

(** A fence with stray text stops the walk. *)
Lemma walk_stray (names : gset str) (blocks : list str) (x : Doc.fence)
    (fs : list Doc.fence) :
  Block.stray x ->
  walk names blocks (Doc.segments (x :: fs)) = inl (StrayContent UnexpectedSegment).
Proof.
  unfold Block.stray, Block.label. intros (Hne & Hy & Hb).
  cbn [Doc.segments walk]. rewrite Hy, Hb. unfold blank.
  destruct (strip (Doc.inner x)); [congruence|reflexivity].
Qed.

(** ** Names that repeat *)


(** Names that differ from each other and from those seen are all
    collected. *)
Lemma collect_fresh (names : gset str) (blocks : list str) (l : list str) :
  List.NoDup l ->
  (forall x, In x l -> x ∉ names) ->
  exists names',
    collect names blocks l = inr (names', blocks ++ map (fun _ => []) l)
    /\ forall x, x ∈ names' <-> In x l \/ x ∈ names.
Proof.
  revert names blocks. induction l as [|n l IH]; intros names blocks Hnd Hf.
  - exists names. cbn. rewrite app_nil_r. split; [reflexivity|]. tauto.
  - cbn [collect map]. inversion Hnd as [|? ? Hn Hnd']; subst.
    destruct (decide (n ∈ names)) as [Hin|_].
    { exfalso. apply (Hf n); [now left|exact Hin]. }
    destruct (IH ({[n]} ∪ names) (blocks ++ [[]]) Hnd') as (names' & E & Hiff).
    + intros x Hx Hin.
      apply elem_of_union in Hin as [Hin|Hin].
      * apply elem_of_singleton in Hin. now subst.
      * apply (Hf x); [now right|exact Hin].
    + exists names'. rewrite E, <- app_assoc. split; [reflexivity|].
      intros x. rewrite Hiff, elem_of_union, elem_of_singleton. cbn [In].
      split; [intros [H|[H|H]]|intros [[H|H]|H]]; auto.
Qed.



(** ** The parser on documents with stray content or repeated names *)

Section Blocks.
Context {Y : Type}.
Variable safe_load : str -> str + Y.

(** What the parser makes of a front-matter block followed by blocks
    the walk takes and by further fences. *)
Lemma parse_text_blocks (ys : list Doc.line) (g : Doc.gap) (xs : list Block.t)
    (fs : list Doc.fence) (front_matter : Y) :
  Doc.yaml_ok ys -> Doc.gap_ok g -> Forall Block.ok xs ->
  Forall Doc.fence_ok fs ->
  safe_load (Doc.render_lines ys) = inr front_matter ->
  parse_text safe_load (Doc.render (Doc.mk ys g (map Block.to_fence xs ++ fs)))
  = match collect ∅ [] (Block.names xs) with
    | inl e => inl e
    | inr (names, blocks) =>
        match walk names blocks (Doc.segments fs) with
        | inl e => inl e
        | inr (_, []) => inl NoExecutableBlocks
        | inr (_, bash_blocks) => inr (front_matter, bash_blocks)
        end
    end.
Proof.
  intros Hy Hg Hxs Hfs Hl.
  rewrite parse_text_doc.
  2:{ split; [exact Hy|split; [exact Hg|]]. cbn [Doc.fences].
      apply Forall_app. split; [now apply block_fences_ok|exact Hfs]. }
  cbn [Doc.yaml Doc.fences]. rewrite Hl, (walk_blocks ∅ [] xs fs Hxs).
  now destruct (collect ∅ [] (Block.names xs)) as [e|[names blocks]].
Qed.

(** C7 (amended). In a document of the plain shape (the text starts
    with a [---] line, the front matter follows directly and is closed
    by a [---] line; then fenced blocks, each opened by three backticks
    at the start of a line and closed by three backticks after optional
    white space; blank lines and indentation are allowed; no line of
    the front matter or of a block starts, after its indentation, with
    [---] or three backticks): (1) a line that starts with a visible
    character and with neither [---] nor three backticks, behind the
    front matter and any number of fenced blocks, makes the parser fail
    with the stray-content error of the prose check, whatever follows
    the line; (2) when the front matter loads, a fenced block whose
    text between the backticks, trimmed, is not empty and starts with
    neither [yaml] nor [bash] makes the parser fail with the
    stray-content error of the segment walk, when every block before it
    is a bash fence with a name of its own or a block that is passed
    over (its text starts with [yaml], or it is empty), whatever
    fenced blocks follow. *)
Theorem stray_content_rejected :
  (forall (d : Doc.t) (l : Doc.line) (rest : str),
      Doc.ok d -> Doc.line_ok l ->
      parse_text safe_load (Doc.render d ++ Doc.render_line l ++ rest)
      = inl (StrayContent NonBlockProse))
  /\ (forall (ys : list Doc.line) (g : Doc.gap) (xs : list Block.t)
             (x : Doc.fence) (fs : list Doc.fence) (front_matter : Y),
         Doc.yaml_ok ys -> Doc.gap_ok g -> Forall Block.ok xs ->
         List.NoDup (Block.names xs) ->
         Doc.fence_ok x -> Block.stray x ->
         Forall Doc.fence_ok fs ->
         safe_load (Doc.render_lines ys) = inr front_matter ->
         parse_text safe_load
           (Doc.render (Doc.mk ys g (map Block.to_fence xs ++ x :: fs)))
         = inl (StrayContent UnexpectedSegment)).
Proof.
  split.
  - intros d l rest Hd Hl. unfold parse_text.
    rewrite (prose_check_stray d l rest Hd Hl). cbn [negb].
    destruct Hd as (Hy & Hg & Hfs). unfold Doc.render. rewrite <- app_assoc.
    destruct (front_matter_split d
                (Doc.render_fences (Doc.fences d) ++ Doc.render_line l ++ rest)
                Hy Hg) as (segs & Hne & ->).
    cbn [nth length]. rewrite (blank_yaml _ Hy).
    destruct segs; [congruence|reflexivity].
  - intros ys g xs x fs fm Hy Hg Hxs Hnd Hx Hs Hfs Hl.
    rewrite (parse_text_blocks ys g xs (x :: fs) fm Hy Hg Hxs)
      by (assumption || now constructor).
    destruct (collect_fresh ∅ [] (Block.names xs) Hnd) as (names' & -> & _);
      [intros n _; set_solver|].
    now rewrite walk_stray.
Qed.

End Blocks.

(** ** The parser on sample documents *)

Lemma sample_meta_ok : Doc.yaml_ok Demo.meta /\ Doc.gap_ok Demo.no_gap.
Proof. shape. Qed.

Lemma sample_block_ok (name : str) (body : list string) :
  word_name name ->
  Forall Doc.line_ok (map Demo.plain body) ->
  Doc.named_ok (Demo.block name body).
Proof. intros [Hne Hw] Hb. unfold Doc.named_ok. cbn. shape; assumption. Qed.

Lemma parse_text_returns_empty_bodies_witness :
  parse_text Demo.load Demo.two_blocks_text = inr (Demo.meta_text, [[]; []])
  /\ map Doc.body_text Demo.two_blocks = [s "echo a"; s "echo b"].
Proof.
  split; [|vm_compute; reflexivity].
  change Demo.two_blocks_text
    with (Doc.render (Doc.named_doc Demo.meta Demo.no_gap Demo.two_blocks)).
  apply (parse_text_returns_empty_bodies Demo.load Demo.meta Demo.no_gap
           Demo.two_blocks Demo.meta_text); shape.
Defined.

Lemma fences_only_taken_for_front_matter_witness :
  parse_text Demo.load Demo.fences_only_text
  = inr (lines ["bash name=a"; "echo a"], [[]])
  /\ parse_text Demo.load Demo.fences_only_text <> inl MissingFrontMatter.
Proof.
  change Demo.fences_only_text
    with (Doc.render_fences (map Doc.to_fence Demo.two_blocks)).
  destruct (fences_only_taken_for_front_matter Demo.load
              (Demo.block (s "a") ["echo a"]) [Demo.block (s "b") ["echo b"]])
    as [E Hne]; [shape|].
  split; [|exact Hne]. etransitivity; [exact E|]. vm_compute. reflexivity.
Defined.



Lemma block_names_are_words_witness :
  exists names,
    walk ∅ [] (skipn 2 (split marker_re Demo.two_blocks_text))
    = inr (names, [[]; []])
    /\ forall n, n ∈ names -> word_name n.
Proof.
  destruct (block_names_are_words Demo.load Demo.two_blocks_text
              Demo.meta_text [[]; []])
    as (names & E & Hn); [vm_compute; reflexivity|].
  exists names. split; [exact E|]. intros n Hin. apply (Hn n Hin).
Defined.

(** C9, as stated, fails: a block named [caf] followed by U+00E9 is
    accepted, and its name is not in [[A-Za-z0-9_]+]. *)
Lemma accented_name_accepted :
  exists names,
    parse_text Demo.load Demo.accented_text = inr (Demo.meta_text, [[]])
    /\ walk ∅ [] (skipn 2 (split marker_re Demo.accented_text)) = inr (names, [[]])
    /\ Demo.cafe ∈ names
    /\ ~ ascii_name Demo.cafe.
Proof.
  exists ({[Demo.cafe]} ∪ ∅).
  split; [vm_compute; reflexivity|].
  split; [vm_compute; reflexivity|].
  split; [set_solver|].
  intros [_ H]. unfold Demo.cafe in H. cbn [s list_ascii_of_string app] in H.
  do 3 (inversion H as [|? ? _ H']; subst; clear H; rename H' into H).
  inversion H as [|? ? Hc _]. vm_compute in Hc. discriminate Hc.
Qed.

(** C7, as stated, fails: a document with a fenced block tagged
    [yamllint], which is neither [yaml] nor [bash], is accepted; and so
    is a document with a paragraph between two [---] lines, which then
    is taken for the body of the bash block. *)
Lemma stray_content_accepted :
  parse_text Demo.load Demo.other_tag_text = inr (Demo.meta_text, [[]])
  /\ parse_text Demo.load Demo.dashed_notes_text
     = inr (Demo.meta_text, [s "Some notes."]).
Proof. split; vm_compute; reflexivity. Qed.

Lemma stray_content_rejected_witness :
  parse_text Demo.load Demo.stray_text = inl (StrayContent NonBlockProse)
  /\ parse_text Demo.load Demo.untagged_text = inl (StrayContent UnexpectedSegment).
Proof.
  split.
  - change Demo.stray_text
      with (Doc.render (Doc.named_doc Demo.meta Demo.no_gap Demo.two_blocks)
            ++ Doc.render_line (Demo.plain "Some notes.") ++ []).
    apply (proj1 (stray_content_rejected Demo.load)); shape.
  - change Demo.untagged_text
      with (Doc.render
              (Doc.mk Demo.meta Demo.no_gap
                 (map Block.to_fence
                    [Block.Passed Demo.yaml_fence; Block.Bash Demo.build]
                  ++ Demo.untagged_fence :: []))).
    apply (proj2 (stray_content_rejected Demo.load) Demo.meta Demo.no_gap
             [Block.Passed Demo.yaml_fence; Block.Bash Demo.build]
             Demo.untagged_fence [] Demo.meta_text); shape.
Defined.

(** ** The compiled script *)

Lemma join_lines_cons (x y : str) (l : list str) :
  join_lines (x :: y :: l) = x ++ nl :: join_lines (y :: l).
Proof. reflexivity. Qed.

Lemma join_lines_blocks (bash_blocks : list str) :
  join_lines ([] :: flat_map (fun block => [block; []]) bash_blocks)
  = concat (map (fun block => nl :: block ++ [nl]) bash_blocks).
Proof.
  induction bash_blocks as [|b bs IH]; [reflexivity|].
  cbn [flat_map app map concat].
  rewrite !join_lines_cons, IH. cbn [app].
  now rewrite <- app_assoc.
Qed.

Lemma script_text_eq (bash_blocks : list str) :
  script_text bash_blocks
  = s "#!/bin/bash" ++ nl :: s "set -euxo pipefail" ++ nl ::
    concat (map (fun block => nl :: block ++ [nl]) bash_blocks).
Proof.
  unfold script_text, script_content. cbn [app].
  now rewrite !join_lines_cons, join_lines_blocks.
Qed.

(** ** Paths *)

Lemma components_simple (x : str) :
  simple_name x -> Path.components x = [x].
Proof.
  induction 1 as [|c x Hc Hx IH]; [reflexivity|].
  cbn [Path.components].
  destruct (Ascii.eqb_spec c Path.slash) as [->|_]; [contradiction|].
  now rewrite IH.
Qed.

Lemma script_name_simple (slash_name : str) :
  simple_name slash_name ->
  Path.name (script_path slash_name) = slash_name ++ s ".sh".
Proof.
  intros Hn.
  assert (Hs : simple_name (slash_name ++ s ".sh")).
  { apply Forall_app; split; [exact Hn|].
    repeat constructor; intros E; discriminate E. }
  unfold script_path, Path.name, Path.join, Path.of_str.
  rewrite (components_simple _ Hs).
  assert (Hk : Path.keep (slash_name ++ s ".sh") = true).
  { destruct slash_name as [|a [|b n]]; reflexivity. }
  assert (Hl : Path.leading_slashes (slash_name ++ s ".sh") = 0).
  { destruct Hn as [|c x Hc _]; [reflexivity|].
    cbn. destruct (Ascii.eqb_spec c Path.slash); [contradiction|reflexivity]. }
  cbn [List.filter]. rewrite Hk, Hl. cbn [Path.root Path.parts].
  now rewrite last_last.
Qed.

(** ** The monad *)

Lemma key_set_fs (w : world) (f : gmap str node) (p : Path.t) :
  key (set_fs w f) p = key w p.
Proof. reflexivity. Qed.

Lemma write_file_writable (w : world) (p : Path.t) (content : str) :
  writable w p ->
  exists mode,
    write_file p content w
    = (Ret tt, set_fs w (<[key w p := File content mode]> (fs w))).
Proof.
  unfold writable, write_file, is_dir.
  destruct (fs w !! key w p) as [[c m|]|]; intros H.
  - now exists m.
  - contradiction.
  - destruct (fs w !! key w (Path.parent p)) as [[c m|]|]; try discriminate H.
    now exists default_mode.
Qed.

(** The verification loop leaves the file system alone, prints one line
    per declared output, and answers whether every output is there. *)
Lemma verify_outputs_spec (outputs : list str) (flag : bool) (w : world) :
  let present o := bool_decide (is_Some (fs w !! key w (Path.of_str o))) in
  verify_outputs outputs flag w
  = (Ret (flag && forallb present outputs),
     mkWorld (cwd w) (fs w)
       (stdout w ++ map (fun o => if present o then verified_line o
                                  else missing_line o) outputs)).
Proof.
  cbn zeta. revert flag w.
  induction outputs as [|o rest IH]; intros flag w.
  - cbn. rewrite andb_true_r, app_nil_r. now destruct w.
  - cbn [verify_outputs forallb map]. unfold bind at 1, path_exists at 1.
    destruct (bool_decide (is_Some (fs w !! key w (Path.of_str o)))) eqn:E;
      cbn [negb]; unfold bind, print; rewrite IH; cbn [cwd fs stdout];
      unfold key; cbn [cwd fs]; fold (key w).
    + rewrite <- app_assoc. reflexivity.
    + rewrite <- app_assoc, andb_false_r. reflexivity.
Qed.

(** ** Script compiler *)

(** C2. For every command name and list of bodies, [compile_script]
    writes, at the scratch path of the command, exactly the two-line
    preamble followed by every body in order, each after a blank line,
    and marks the file executable; for the bodies [echo a], [echo b] the
    text is the preamble, a blank line, [echo a], a blank line, [echo b]
    and a final newline. *)
Theorem compile_script_text (slash_name : str) (bash_blocks : list str) (w : world) :
  writable w (script_path slash_name) ->
  compile_script slash_name bash_blocks w
  = (Ret (script_path slash_name),
     set_fs w (<[key w (script_path slash_name)
                 := File (spec_script bash_blocks) 493]> (fs w)))
  /\ spec_script [s "echo a"; s "echo b"]
     = lines ["#!/bin/bash"; "set -euxo pipefail"; ""; "echo a"; ""; "echo b"].
Proof.
  intros Hw. split; [|reflexivity].
  destruct (write_file_writable w _ (script_text bash_blocks) Hw) as [m Hm].
  unfold compile_script, bind. rewrite Hm.
  unfold chmod. rewrite key_set_fs. cbn [fs set_fs].
  rewrite lookup_insert_eq. unfold ret, set_fs. cbn [cwd fs stdout].
  now rewrite insert_insert_eq, script_text_eq.
Qed.

(** ** Container runner *)

Section Runner.
Variable runtime : list str -> gmap str node -> option (Z * str * gmap str node).

Lemma mkdir_out_dir (w : world) :
  is_dir w (Path.of_str (s ".out")) = true ->
  mkdir_exist_ok (Path.of_str (s ".out")) w = (Ret tt, w).
Proof.
  unfold is_dir, mkdir_exist_ok.
  destruct (fs w !! key w (Path.of_str (s ".out"))) as [[c m|]|];
    intros H; try discriminate H; reflexivity.
Qed.

Lemma write_file_frame (p : Path.t) (content : str) (w w1 : world) :
  write_file p content w = (Ret tt, w1) ->
  cwd w1 = cwd w /\ stdout w1 = stdout w.
Proof.
  unfold write_file.
  destruct (fs w !! key w p) as [[c m|]|];
    [| |destruct (fs w !! key w (Path.parent p)) as [[c m|]|]];
    intros H; inversion H; subst; split; reflexivity.
Qed.

Lemma write_file_truncated (w : world) (p : Path.t) :
  writable w p -> write_file p [] w = (Ret tt, set_fs w (truncated w p)).
Proof.
  unfold writable, write_file, truncated, is_dir.
  destruct (fs w !! key w p) as [[c m|]|]; intros H;
    [reflexivity|contradiction|].
  destruct (fs w !! key w (Path.parent p)) as [[c m|]|];
    try discriminate H; reflexivity.
Qed.

Lemma mode_of_truncated (w : world) (p : Path.t) :
  mode_of (set_fs w (truncated w p)) p = mode_of w p.
Proof.
  unfold mode_of, truncated. rewrite key_set_fs. cbn [fs set_fs].
  rewrite lookup_insert_eq.
  destruct (fs w !! key w p) as [[c m|]|]; reflexivity.
Qed.

(** What [run_docker] does up to the call of the runtime. *)
Lemma run_docker_opened (image : str) (p : Path.t) (slash_name : str)
    (outputs : list str) (w : world) :
  is_dir w (Path.of_str (s ".out")) = true ->
  writable w (log_path slash_name) ->
  run_docker runtime image p slash_name outputs w
  = let out0 := stdout w ++ [s "--- Running /" ++ slash_name ++ s " in Docker ---"] in
    match runtime (docker_cmd (cwd w) image p) (truncated w (log_path slash_name)) with
    | None =>
        (Exit 1,
         mkWorld (cwd w) (truncated w (log_path slash_name))
           (out0 ++ [s "Error: 'docker' command not found. Is Docker installed and in your PATH?"]))
    | Some (rc, output, fs') =>
        let after := logged w slash_name output fs' in
        let out1 :=
          out0 ++ [s "Docker run successful. Logs written to "
                   ++ Path.to_str (log_path slash_name);
                   s "--- Verifying Outputs ---"]
          ++ map (fun o => if present w after o then verified_line o
                           else missing_line o) outputs in
        if (rc =? 0)%Z then
          if forallb (present w after) outputs
          then (Ret tt, mkWorld (cwd w) after out1)
          else (Exit 1,
                mkWorld (cwd w) after
                  (out1 ++ [s "Error: One or more declared outputs are missing for /"
                            ++ slash_name ++ s "."]))
        else (Exit rc,
              mkWorld (cwd w) after
                (out0 ++ [s "Docker run failed for /" ++ slash_name
                          ++ s ". Exit code: " ++ decimal rc;
                          s "Check logs at " ++ Path.to_str (log_path slash_name)
                          ++ s " for details."]))
    end.
Proof.
  intros Hd Hw. cbn zeta.
  unfold run_docker. unfold bind at 1. unfold print at 1.
  set (w0 := mkWorld (cwd w) (fs w) _).
  unfold bind at 1. rewrite (mkdir_out_dir w0 Hd).
  unfold bind at 1, get_cwd. unfold try_except. unfold bind at 1.
  rewrite (write_file_truncated w0 _ Hw).
  unfold bind at 1, subprocess_run.
  rewrite (mode_of_truncated w0).
  change (mode_of w0) with (mode_of w).
  change (fs (set_fs w0 _)) with (truncated w (log_path slash_name)).
  change (cwd w0) with (cwd w).
  destruct (runtime _ _) as [[[rc output] fs']|];
    [|unfold bind, print, sys_exit; subst w0; cbn [cwd fs stdout set_fs];
      reflexivity].
  fold (logged w slash_name output fs').
  destruct (rc =? 0)%Z;
    [|unfold bind, print, sys_exit; subst w0; cbn [cwd fs stdout set_fs];
      unfold logged, key; cbn [cwd fs stdout set_fs]; rewrite <- !app_assoc;
      reflexivity].
  unfold bind at 1, print at 1. unfold bind at 1, print at 1.
  unfold bind at 1. rewrite verify_outputs_spec.
  subst w0. unfold present, logged, key. cbn [cwd fs stdout set_fs andb].
  destruct (forallb _ outputs); cbn [negb]; unfold bind, print, sys_exit, ret;
    cbn [cwd fs stdout]; rewrite <- ?app_assoc; reflexivity.
Qed.

(** What [run_docker] does once the log file is open and the runtime
    has been started. *)
Lemma run_docker_started (image : str) (p : Path.t) (slash_name : str)
    (outputs : list str) (w : world) (rc : Z) (output : str)
    (fs' : gmap str node) :
  is_dir w (Path.of_str (s ".out")) = true ->
  writable w (log_path slash_name) ->
  runtime (docker_cmd (cwd w) image p) (truncated w (log_path slash_name))
  = Some (rc, output, fs') ->
  let after := logged w slash_name output fs' in
  let out0 := stdout w ++ [s "--- Running /" ++ slash_name ++ s " in Docker ---"] in
  let out1 :=
    out0 ++ [s "Docker run successful. Logs written to "
             ++ Path.to_str (log_path slash_name);
             s "--- Verifying Outputs ---"]
    ++ map (fun o => if present w after o then verified_line o
                     else missing_line o) outputs in
  run_docker runtime image p slash_name outputs w
  = if (rc =? 0)%Z then
      if forallb (present w after) outputs
      then (Ret tt, mkWorld (cwd w) after out1)
      else (Exit 1,
            mkWorld (cwd w) after
              (out1 ++ [s "Error: One or more declared outputs are missing for /"
                        ++ slash_name ++ s "."]))
    else (Exit rc,
          mkWorld (cwd w) after
            (out0 ++ [s "Docker run failed for /" ++ slash_name
                      ++ s ". Exit code: " ++ decimal rc;
                      s "Check logs at " ++ Path.to_str (log_path slash_name)
                      ++ s " for details."])).
Proof.
  intros Hd Hw Hr. cbn zeta.
  rewrite (run_docker_opened image p slash_name outputs w Hd Hw).
  cbn zeta. now rewrite Hr.
Qed.

(** C3. When the container exits with code zero and some declared
    output (a path without a [..] component) is absent from the host
    afterwards, [run_docker] ends the process with status 1, and what
    it has printed holds, for every declared output in turn, the line
    [Output Verification Failed: Declared output '<path>' does not
    exist.] when the path is absent and [Output Verified: '<path>'
    exists.] when it is there, followed by one closing error line: the
    failure line of every absent output is printed, not only that of
    the first. *)
Theorem run_docker_reports_every_missing_output (image : str) (p : Path.t)
    (slash_name : str) (outputs : list str) (w : world) (output : str)
    (fs' : gmap str node) :
  is_dir w (Path.of_str (s ".out")) = true ->
  writable w (log_path slash_name) ->
  Forall no_dotdot outputs ->
  runtime (docker_cmd (cwd w) image p) (truncated w (log_path slash_name))
  = Some (0%Z, output, fs') ->
  let after := logged w slash_name output fs' in
  let report o :=
    if present w after o
    then s "Output Verified: '" ++ o ++ s "' exists."
    else s "Output Verification Failed: Declared output '" ++ o
         ++ s "' does not exist." in
  (exists o, In o outputs /\ present w after o = false) ->
  run_docker runtime image p slash_name outputs w
  = (Exit 1,
     mkWorld (cwd w) after
       (stdout w
        ++ [s "--- Running /" ++ slash_name ++ s " in Docker ---";
            s "Docker run successful. Logs written to "
            ++ Path.to_str (log_path slash_name);
            s "--- Verifying Outputs ---"]
        ++ map report outputs
        ++ [s "Error: One or more declared outputs are missing for /"
            ++ slash_name ++ s "."]))
  /\ forall o, In o outputs -> present w after o = false ->
       In (s "Output Verification Failed: Declared output '" ++ o
           ++ s "' does not exist.")
          (stdout (snd (run_docker runtime image p slash_name outputs w))).
Proof.
  intros Hd Hw _ Hr after report (o0 & Hin & Hmiss).
  rewrite (run_docker_started image p slash_name outputs w 0 output fs' Hd Hw Hr).
  fold after. cbn [Z.eqb].
  replace (forallb (present w after) outputs) with false.
  2:{ symmetry. apply not_true_is_false. intros Hall.
      rewrite forallb_forall in Hall. specialize (Hall o0 Hin). congruence. }
  split.
  - f_equal. f_equal. rewrite <- !app_assoc. reflexivity.
  - intros o Ho Hm. cbn [snd stdout].
    apply in_or_app. left. apply in_or_app. right. apply in_or_app. right.
    apply in_map_iff. exists o. split; [|exact Ho].
    rewrite Hm. reflexivity.
Qed.

(** C5. When the container exits with a non-zero code, [run_docker]
    ends the process with [sys.exit] of that very code (whatever would
    follow it in the caller is not run), after printing the two failure
    lines and no line of the output verification; the exit status of
    the process is the child's code (a code between 1 and 255). *)
Theorem run_docker_propagates_exit_code {A : Type} (image : str) (p : Path.t)
    (slash_name : str) (outputs : list str) (w : world) (rc : Z)
    (output : str) (fs' : gmap str node) (k : unit -> M A) :
  is_dir w (Path.of_str (s ".out")) = true ->
  writable w (log_path slash_name) ->
  runtime (docker_cmd (cwd w) image p) (truncated w (log_path slash_name))
  = Some (rc, output, fs') ->
  rc <> 0%Z ->
  bind (run_docker runtime image p slash_name outputs) k w
  = (Exit rc,
     mkWorld (cwd w)
       (<[key w (log_path slash_name)
          := File output (mode_of w (log_path slash_name))]> fs')
       (stdout w
        ++ [s "--- Running /" ++ slash_name ++ s " in Docker ---";
            s "Docker run failed for /" ++ slash_name
            ++ s ". Exit code: " ++ decimal rc;
            s "Check logs at " ++ Path.to_str (log_path slash_name)
            ++ s " for details."]))
  /\ ((0 < rc < 256)%Z ->
      process_status
        (fst (bind (run_docker runtime image p slash_name outputs) k w)) = rc).
Proof.
  intros Hd Hw Hr Hrc.
  assert (E : bind (run_docker runtime image p slash_name outputs) k w
              = (Exit rc,
                 mkWorld (cwd w)
                   (<[key w (log_path slash_name)
                      := File output (mode_of w (log_path slash_name))]> fs')
                   (stdout w
                    ++ [s "--- Running /" ++ slash_name ++ s " in Docker ---";
                        s "Docker run failed for /" ++ slash_name
                        ++ s ". Exit code: " ++ decimal rc;
                        s "Check logs at " ++ Path.to_str (log_path slash_name)
                        ++ s " for details."]))).
  { unfold bind.
    rewrite (run_docker_started image p slash_name outputs w rc output fs' Hd Hw Hr).
    apply Z.eqb_neq in Hrc. rewrite Hrc. now rewrite <- app_assoc. }
  split; [exact E|]. intros Hrange. rewrite E. cbn [fst process_status].
  apply Z.mod_small. lia.
Qed.
End Runner.

(** C4. Whenever [run_docker] gets as far as the execution ([.out] is a
    directory and the log file can be opened), it starts the container
    runtime, on the file system with the log file open, with the argument
    vector [docker run --rm -v <cwd>:/src:ro -v <cwd>/.out:/out -w /src
    --entrypoint /bin/sh <image> /tmp/<script file name>]: the working
    directory mounted read-only at [/src], the output directory mounted
    (read-write) at [/out], [/src] as working directory, [/bin/sh] as
    entry point, and the script's path [/tmp/<file name>] as the only
    argument after the image.  What the runtime answers there decides the
    run: its output becomes the log, its file system the one [run_docker]
    leaves, its return code the outcome (with no answer, the error of a
    missing [docker]).  [run_docker] consults the runtime at no other
    argument vector, and for a command name without [/] the script
    argument is [/tmp/<name>.sh]. *)
Theorem run_docker_invocation
    (runtime : list str -> gmap str node -> option (Z * str * gmap str node))
    (image : str) (p : Path.t) (slash_name : str) (outputs : list str)
    (w : world) :
  is_dir w (Path.of_str (s ".out")) = true ->
  writable w (log_path slash_name) ->
  let argv :=
    [s "docker"; s "run"; s "--rm";
     s "-v"; Path.to_str (cwd w) ++ s ":/src:ro";
     s "-v"; Path.to_str (Path.join (cwd w) (Path.of_str (s ".out"))) ++ s ":/out";
     s "-w"; s "/src";
     s "--entrypoint"; s "/bin/sh";
     image;
     s "/tmp/" ++ Path.name p] in
  let r := run_docker runtime image p slash_name outputs w in
  match runtime argv (truncated w (log_path slash_name)) with
  | Some (rc, output, fs') =>
      let after :=
        <[key w (log_path slash_name)
          := File output (mode_of w (log_path slash_name))]> fs' in
      fs (snd r) = after
      /\ fst r = (if (rc =? 0)%Z
                  then if forallb (present w after) outputs
                       then Ret tt else Exit 1
                  else Exit rc)
  | None =>
      r = (Exit 1,
           mkWorld (cwd w) (truncated w (log_path slash_name))
             (stdout w
              ++ [s "--- Running /" ++ slash_name ++ s " in Docker ---";
                  s "Error: 'docker' command not found. Is Docker installed and in your PATH?"]))
  end
  /\ (forall other : list str -> gmap str node -> option (Z * str * gmap str node),
        (forall f, other argv f = runtime argv f) ->
        run_docker other image p slash_name outputs w = r)
  /\ (simple_name slash_name ->
      Path.name (script_path slash_name) = slash_name ++ s ".sh").
Proof.
  intros Hd Hw argv r.
  split; [|split; [|apply script_name_simple]].
  - subst r. rewrite (run_docker_opened runtime image p slash_name outputs w Hd Hw).
    cbn zeta. change (docker_cmd (cwd w) image p) with argv.
    destruct (runtime argv _) as [[[rc output] fs']|].
    + unfold logged.
      destruct (rc =? 0)%Z; [|split; reflexivity].
      destruct (forallb _ outputs); split; reflexivity.
    + rewrite <- app_assoc. reflexivity.
  - intros other Ho. subst r.
    rewrite (run_docker_opened runtime image p slash_name outputs w Hd Hw).
    rewrite (run_docker_opened other image p slash_name outputs w Hd Hw).
    cbn zeta. change (docker_cmd (cwd w) image p) with argv.
    now rewrite Ho.
Qed.

Lemma run_docker_reports_every_missing_output_witness :
  let printed :=
    stdout (snd (run_docker (Demo.runtime 0) (s "alpine:3") Demo.script (s "foo")
                   [s "a"; s "b"; s "c"] Demo.start)) in
  fst (run_docker (Demo.runtime 0) (s "alpine:3") Demo.script (s "foo")
         [s "a"; s "b"; s "c"] Demo.start) = Exit 1
  /\ In (s "Output Verification Failed: Declared output 'a' does not exist.") printed
  /\ In (s "Output Verification Failed: Declared output 'c' does not exist.") printed
  /\ printed
     = [s "--- Running /foo in Docker ---";
        s "Docker run successful. Logs written to .out/logs/foo.log";
        s "--- Verifying Outputs ---";
        s "Output Verification Failed: Declared output 'a' does not exist.";
        s "Output Verified: 'b' exists.";
        s "Output Verification Failed: Declared output 'c' does not exist.";
        s "Error: One or more declared outputs are missing for /foo."].
Proof.
  assert (Hd : is_dir Demo.start (Path.of_str (s ".out")) = true)
    by (vm_compute; reflexivity).
  assert (Hw : writable Demo.start (log_path (s "foo")))
    by (vm_compute; reflexivity).
  assert (Hp : Forall no_dotdot [s "a"; s "b"; s "c"])
    by (repeat constructor; discriminate).
  destruct (run_docker_reports_every_missing_output (Demo.runtime 0)
              (s "alpine:3") Demo.script (s "foo") [s "a"; s "b"; s "c"]
              Demo.start (s "ran") _ Hd Hw Hp eq_refl)
    as [E Hall].
  - exists (s "a"). split; [left; reflexivity|vm_compute; reflexivity].
  - cbn zeta. split; [now rewrite E|].
    split; [|split].
    + apply (Hall (s "a")); [cbn; auto|vm_compute; reflexivity].
    + apply (Hall (s "c")); [cbn; auto|vm_compute; reflexivity].
    + rewrite E. vm_compute. reflexivity.
Defined.

Lemma run_docker_propagates_exit_code_witness :
  let r := bind (run_docker (Demo.runtime 3) (s "alpine:3") Demo.script (s "foo")
                   [s "a"]) (fun _ => print (s "done")) Demo.start in
  fst r = Exit 3
  /\ stdout (snd r)
     = [s "--- Running /foo in Docker ---";
        s "Docker run failed for /foo. Exit code: 3";
        s "Check logs at .out/logs/foo.log for details."].
Proof.
  assert (Hd : is_dir Demo.start (Path.of_str (s ".out")) = true)
    by (vm_compute; reflexivity).
  assert (Hw : writable Demo.start (log_path (s "foo")))
    by (vm_compute; reflexivity).
  destruct (run_docker_propagates_exit_code (Demo.runtime 3) (s "alpine:3")
              Demo.script (s "foo") [s "a"] Demo.start 3 (s "ran") _
              (fun _ => print (s "done")) Hd Hw eq_refl) as [E _];
    [discriminate|].
  cbn zeta. rewrite E. split; [reflexivity|vm_compute; reflexivity].
Defined.

Lemma compile_script_text_witness :
  fst (compile_script (s "foo") [s "echo a"; s "echo b"] Demo.start)
  = Ret (script_path (s "foo")).
Proof.
  destruct (compile_script_text (s "foo") [s "echo a"; s "echo b"] Demo.start)
    as [E _]; [vm_compute; reflexivity|].
  now rewrite E.
Defined.

Lemma run_docker_invocation_witness :
  fs (snd (run_docker Demo.echo (s "alpine:3") Demo.script (s "foo") [] Demo.start))
  !! s "/work/.out/logs/foo.log"
  = Some (File (s "docker run --rm -v /work:/src:ro -v /work/.out:/out -w /src --entrypoint /bin/sh alpine:3 /tmp/foo.sh")
            default_mode).
Proof.
  assert (Hd : is_dir Demo.start (Path.of_str (s ".out")) = true)
    by (vm_compute; reflexivity).
  assert (Hw : writable Demo.start (log_path (s "foo")))
    by (vm_compute; reflexivity).
  destruct (run_docker_invocation Demo.echo (s "alpine:3") Demo.script (s "foo") []
              Demo.start Hd Hw) as [[E _] _].
  rewrite E. vm_compute. reflexivity.
Defined.

(** ** Command-line dispatcher *)

Section Dispatcher.
Context {Y Schema : Type}.
Variable safe_load : str -> str + Y.
Variable validate : Y -> Schema -> option str.
Variable slash_of image_of : Y -> option str.
Variable outputs_of : Y -> option (list str).
Variable runtime : list str -> gmap str node -> option (Z * str * gmap str node).

(** C10. In validate mode [handle_file] leaves the file system as it
    found it (no script, no log, the document only read) and keeps the
    working directory; it only prints lines and ends normally, with
    exit status 1, or with the error of reading the document. *)
Theorem handle_file_validate_writes_nothing (file_path : Path.t)
    (schema : Schema) (w : world) :
  let r := handle_file safe_load validate slash_of image_of outputs_of runtime
             file_path schema (s "validate") w in
  fs (snd r) = fs w
  /\ cwd (snd r) = cwd w
  /\ (exists printed, stdout (snd r) = stdout w ++ printed)
  /\ (fst r = Ret tt \/ fst r = Exit 1
      \/ fst r = Raise FileNotFoundError \/ fst r = Raise IsADirectoryError).
Proof.
  cbn zeta. unfold handle_file, parse_markdown, validate_front_matter.
  rewrite bool_decide_eq_true_2 by reflexivity.
  unfold bind, print, read_text, sys_exit, ret, key. cbn [cwd fs stdout].
  destruct (fs w !! _) as [[c m|]|]; cbn [fst snd cwd fs stdout].
  - destruct (parse_text safe_load (text_mode c)) as [e|[fm blocks]];
      cbn [fst snd cwd fs stdout].
    + frame_done.
    + destruct (validate fm schema); cbn [fst snd cwd fs stdout]; frame_done.
  - frame_done.
  - frame_done.
Qed.
End Dispatcher.

(** * Further properties of the parser *)

(** ** Trimmed text *)

Lemma rev_rstrip (t : str) : rev (rstrip t) = drop_ws (rev t).
Proof. unfold rstrip. apply rev_involutive. Qed.

Lemma headed_drop_ws (t : str) : headed (drop_ws t).
Proof. exact (drop_ws_head t). Qed.

Lemma strip_trimmed (t : str) : trimmed (strip t).
Proof.
  unfold trimmed, strip. split.
  - pose proof (drop_ws_head t) as H.
    destruct (drop_ws t) as [|c u]; [exact I|].
    pose proof (rstrip_app [] u c H) as E. cbn [app] in E. now rewrite E.
  - rewrite rev_rstrip. apply headed_drop_ws.
Qed.

Lemma blank_app_spaces (w t : str) : spaces w -> blank (w ++ t) = blank t.
Proof. intros Hw. unfold blank, strip. now rewrite (drop_ws_spaces w t Hw). Qed.

(** ** Headers *)

Lemma startswith_prefix (p h rest : str) :
  startswith p h = true -> startswith p (h ++ rest) = true.
Proof.
  intros H. rewrite (startswith_true p h H), <- app_assoc.
  apply startswith_app.
Qed.

(** A header that starts with the visible text [p] is found at the head
    of the trimmed segment. *)
Lemma startswith_strip_header (p h rest : str) :
  p <> [] -> Forall (fun c => is_space c = false) p ->
  startswith p h = true -> startswith p (strip (h ++ rest)) = true.
Proof.
  intros Hne Hp H. rewrite (startswith_strip p _ Hp).
  rewrite (startswith_true p h H), <- app_assoc.
  destruct p as [|c p']; [congruence|].
  inversion Hp as [|? ? Hc _]; subst.
  cbn [app]. rewrite (drop_ws_headed c _ Hc).
  apply (startswith_app (c :: p')).
Qed.

Lemma walk_yaml_fence (names : gset str) (blocks : list str) (x : Doc.fence)
    (fs : list Doc.fence) :
  startswith (s "yaml") (Doc.header x) = true ->
  walk names blocks (Doc.segments (x :: fs)) = walk names blocks (Doc.segments fs).
Proof.
  intros H. cbn [Doc.segments walk]. unfold Doc.inner.
  rewrite (startswith_strip_header (s "yaml") (Doc.header x) _);
    [reflexivity|discriminate|repeat constructor|exact H].
Qed.

Lemma walk_yaml_fences (names : gset str) (blocks : list str) (fs : list Doc.fence) :
  Forall (fun x => startswith (s "yaml") (Doc.header x) = true) fs ->
  walk names blocks (Doc.segments fs) = inr (names, blocks).
Proof.
  induction 1 as [|x fs Hx _ IH]; [reflexivity|].
  now rewrite walk_yaml_fence.
Qed.

(** ** Names *)

Lemma search_unnamed (t : str) (b : bool) :
  mentions_name t = false -> search_from name_re b t = None.
Proof.
  revert b. induction t as [|c t IH]; intros b H; rewrite search_from_eq.
  - now rewrite name_at.
  - destruct (mentions_name_cons c t H) as [H1 H2].
    rewrite (name_at_none b _ H1). now apply IH.
Qed.

Lemma mentions_name_drop_ws (t : str) :
  mentions_name t = false -> mentions_name (drop_ws t) = false.
Proof.
  induction t as [|c t IH]; [reflexivity|]. intros H. cbn [drop_ws].
  destruct (is_space c); [|exact H].
  apply IH. now destruct (mentions_name_cons c t H).
Qed.

Lemma name_here_app (a w : str) :
  (startswith (s "name=") a
   && match skipn 5 a with d :: _ => is_word d | [] => false end) = true ->
  (startswith (s "name=") (a ++ w)
   && match skipn 5 (a ++ w) with d :: _ => is_word d | [] => false end) = true.
Proof.
  destruct a as [|c1 [|c2 [|c3 [|c4 [|c5 [|c6 a]]]]]]; cbn;
    rewrite ?andb_false_r; try discriminate.
  auto.
Qed.

Lemma mentions_name_prefix (a w : str) :
  mentions_name (a ++ w) = false -> mentions_name a = false.
Proof.
  induction a as [|c a IH]; [reflexivity|]. cbn [app]. intros H.
  destruct (mentions_name_cons c (a ++ w) H) as [H1 H2].
  cbn [mentions_name]. rewrite (IH H2), orb_false_r.
  apply not_true_is_false. intros Hh.
  apply (name_here_app (c :: a) w) in Hh. cbn [app] in Hh. congruence.
Qed.

Lemma mentions_name_strip (t : str) :
  mentions_name t = false -> mentions_name (strip t) = false.
Proof.
  intros H. apply mentions_name_drop_ws in H. unfold strip.
  destruct (rstrip_split (drop_ws t)) as (w & _ & E).
  rewrite E in H. now apply mentions_name_prefix in H.
Qed.

Lemma walk_unnamed_fence (names : gset str) (blocks : list str) (x : Doc.fence)
    (fs : list Doc.fence) :
  startswith (s "bash") (Doc.header x) = true ->
  mentions_name (Doc.inner x) = false ->
  walk names blocks (Doc.segments (x :: fs)) = inl MissingBlockName.
Proof.
  intros Hb Hm. cbn [Doc.segments walk].
  assert (Hy : startswith (s "yaml") (strip (Doc.inner x)) = false).
  { rewrite startswith_strip by repeat constructor. unfold Doc.inner.
    rewrite (startswith_true _ _ Hb). cbn [s list_ascii_of_string app].
    rewrite drop_ws_headed by reflexivity. reflexivity. }
  rewrite Hy. unfold Doc.inner at 1.
  rewrite (startswith_strip_header (s "bash") (Doc.header x) _);
    [|discriminate|repeat constructor|exact Hb].
  unfold search. now rewrite (search_unnamed _ true (mentions_name_strip _ Hm)).
Qed.

(** ** The segment walk *)

(** What the walk adds: every block it appends is trimmed, and it
    appends one block per name it collects. *)
Lemma walk_adds (ps : list str) (names : gset str) (blocks : list str)
    (names' : gset str) (blocks' : list str) :
  walk names blocks ps = inr (names', blocks') ->
  exists added,
    blocks' = blocks ++ added /\ Forall trimmed added
    /\ size names' = size names + length added.
Proof.
  assert (H : forall ps,
    (forall names blocks names' blocks',
        walk names blocks ps = inr (names', blocks') ->
        exists added,
          blocks' = blocks ++ added /\ Forall trimmed added
          /\ size names' = size names + length added)
    /\ forall q names blocks names' blocks',
        walk names blocks (q :: ps) = inr (names', blocks') ->
        exists added,
          blocks' = blocks ++ added /\ Forall trimmed added
          /\ size names' = size names + length added).
  { clear. induction ps as [|a ps [IH1 IH2]].
    - assert (H0 : forall (names : gset str) blocks (names' : gset str) blocks',
                 @inr parse_error _ (names, blocks) = inr (names', blocks') ->
                 exists added,
                   blocks' = blocks ++ added /\ Forall trimmed added
                   /\ size names' = size names + length added).
      { intros names blocks names' blocks' [= <- <-]. exists [].
        rewrite app_nil_r. repeat split; [constructor|cbn; lia]. }
      split; [exact H0|].
      intros q names blocks names' blocks'. cbn [walk].
      destruct (startswith (s "yaml") (strip q)); [apply H0|].
      destruct (startswith (s "bash") (strip q)); [discriminate|].
      destruct (blank q); [apply H0|discriminate].
    - split; [apply IH2|].
      intros q names blocks names' blocks'. cbn [walk].
      destruct (startswith (s "yaml") (strip q)); [apply IH1|].
      destruct (startswith (s "bash") (strip q)).
      + destruct (search name_re (strip q)) as [g|]; [|discriminate].
        destruct (decide (group1 g ∈ names)) as [|Hfresh]; [discriminate|].
        intros Hw. destruct (IH1 _ _ _ _ Hw) as (added & -> & Ht & Hs).
        exists (strip a :: added). rewrite <- app_assoc. cbn [app].
        repeat split; [constructor; [apply strip_trimmed|exact Ht]|].
        rewrite Hs, size_union by set_solver. rewrite size_singleton.
        cbn [length]. lia.
      + destruct (blank q); [apply IH2|discriminate]. }
  apply (H ps).
Qed.

Section ParserFacts.
Context {Y : Type}.
Variable safe_load : str -> str + Y.

(** Whatever the document, an accepted one comes with at least one
    block, every block is trimmed (no white space at either end), and
    there are as many blocks as distinct names collected. *)
Theorem accepted_blocks_are_trimmed_and_named (content : str)
    (front_matter : Y) (bash_blocks : list str) :
  parse_text safe_load content = inr (front_matter, bash_blocks) ->
  bash_blocks <> []
  /\ Forall trimmed bash_blocks
  /\ exists names : gset str,
       walk ∅ [] (skipn 2 (split marker_re content)) = inr (names, bash_blocks)
       /\ size names = length bash_blocks.
Proof.
  unfold parse_text.
  destruct (_ || _); [discriminate|].
  destruct (negb _); [discriminate|].
  destruct (safe_load _) as [e|fm]; [discriminate|].
  destruct (walk ∅ [] _) as [e|[names blocks]] eqn:Ew; [discriminate|].
  destruct blocks as [|b blocks]; [discriminate|].
  intros [= <- <-].
  destruct (walk_adds _ _ _ _ _ Ew) as (added & E & Ht & Hs).
  cbn [app] in E. subst added.
  split; [discriminate|]. split; [exact Ht|].
  exists names. split; [reflexivity|]. rewrite Hs, size_empty. reflexivity.
Qed.

(** Three kinds of text are reported as missing front matter: plain
    lines (lines that start, after their indentation, with a visible
    character and with neither [---] nor three backticks) followed by
    white space at most; a [---] line followed by one or more plain
    lines, the first right below it, up to the end of the text (a
    front-matter block that is opened, not closed, and has nothing
    behind it); and two [---] lines with white
    space only between them, followed by fenced blocks whose lines are
    plain. *)
Theorem missing_front_matter_reported :
  (forall (ls : list Doc.line) (w : str),
      Forall Doc.line_ok ls -> spaces w ->
      parse_text safe_load (Doc.render_lines ls ++ w) = inl MissingFrontMatter)
  /\ (forall ys : list Doc.line,
         Doc.yaml_ok ys ->
         parse_text safe_load (dashes ++ nl :: Doc.render_lines ys)
         = inl MissingFrontMatter)
  /\ (forall (g1 g2 : Doc.gap) (fs : list Doc.fence),
         Doc.gap_ok g1 -> Doc.gap_ok g2 -> Forall Doc.fence_ok fs ->
         parse_text safe_load
           (dashes ++ Doc.render_gap g1 ++ dashes ++ Doc.render_gap g2
            ++ Doc.render_fences fs)
         = inl MissingFrontMatter).
Proof.
  split; [|split].
  - intros ls w Hls Hw. unfold parse_text, split.
    rewrite (split_lines ls w Hls), (split_spaces_end w Hw). reflexivity.
  - intros ys Hy. unfold parse_text, split.
    rewrite <- (app_nil_r (Doc.render_lines ys)).
    rewrite (split_open_lines ys [] Hy I). reflexivity.
  - intros g1 g2 fs Hg1 Hg2 Hfs. unfold parse_text, split.
    rewrite (split_dashes g1 _ Hg1) by reflexivity.
    rewrite (split_dashes g2 _ Hg2) by apply headed_fences.
    pose proof (split_from_nonempty marker_re true 0 (Doc.render_fences fs)) as Hne.
    destruct (split_from marker_re true 0 (Doc.render_fences fs));
      [congruence|reflexivity].
Qed.

(** When the loader refuses the front matter of a document of the
    documented shape, the parser fails with the loader's message,
    whatever the fenced blocks are: the blocks are not looked at. *)
Theorem yaml_error_reported (d : Doc.t) (e : str) :
  Doc.ok d ->
  safe_load (Doc.render_lines (Doc.yaml d)) = inl e ->
  parse_text safe_load (Doc.render d) = inl (YamlParseError e).
Proof. intros Hd He. now rewrite (parse_text_doc safe_load d Hd), He. Qed.

(** A document of the plain shape (front matter between two [---]
    lines, then fenced blocks; no line of the front matter or of a
    block starts, after its indentation, with [---] or three backticks)
    whose front matter loads and whose fenced blocks, if any, all have
    an opening line that starts with [yaml] holds nothing to run: the
    blocks are skipped and the parser fails for want of a bash
    block. *)
Theorem document_without_bash_blocks_rejected (ys : list Doc.line)
    (g : Doc.gap) (fs : list Doc.fence) (front_matter : Y) :
  Doc.yaml_ok ys -> Doc.gap_ok g -> Forall Doc.fence_ok fs ->
  Forall (fun x => startswith (s "yaml") (Doc.header x) = true) fs ->
  safe_load (Doc.render_lines ys) = inr front_matter ->
  parse_text safe_load (Doc.render (Doc.mk ys g fs)) = inl NoExecutableBlocks.
Proof.
  intros Hy Hg Hfs Hyaml Hl.
  rewrite (parse_text_doc safe_load (Doc.mk ys g fs))
    by (split; [exact Hy|split; [exact Hg|exact Hfs]]).
  cbn [Doc.yaml Doc.fences]. now rewrite Hl, (walk_yaml_fences _ _ fs Hyaml).
Qed.

(** In a document of the plain shape (front matter between two [---]
    lines, then fenced blocks; no line of the front matter or of a
    block starts, after its indentation, with [---] or three backticks)
    whose front matter loads, a fenced block whose opening line starts
    with [bash] and that mentions no [name=<word>], on its opening line
    or below it, makes the parser fail with the missing-name error,
    behind any number of bash blocks opened by [bash name=<name>] with
    names of their own, and whatever fenced blocks follow it. *)
Theorem unnamed_bash_block_rejected (ys : list Doc.line) (g : Doc.gap)
    (ns : list Doc.named) (x : Doc.fence) (fs : list Doc.fence)
    (front_matter : Y) :
  Doc.yaml_ok ys -> Doc.gap_ok g -> Forall Doc.named_ok ns ->
  List.NoDup (map Doc.name ns) ->
  Doc.fence_ok x -> Forall Doc.fence_ok fs ->
  startswith (s "bash") (Doc.header x) = true ->
  mentions_name (Doc.inner x) = false ->
  safe_load (Doc.render_lines ys) = inr front_matter ->
  parse_text safe_load (Doc.render (Doc.mk ys g (map Doc.to_fence ns ++ x :: fs)))
  = inl MissingBlockName.
Proof.
  intros Hy Hg Hns Hnd Hx Hfs Hb Hm Hl.
  rewrite parse_text_doc.
  2:{ repeat split; try apply Hy; try apply Hg. cbn [Doc.fences].
      apply Forall_app. split; [now apply named_fences_ok|now constructor]. }
  cbn [Doc.yaml Doc.fences]. rewrite Hl, (walk_named _ _ ns (x :: fs) Hns).
  destruct (walk_names_fresh ∅ [] ns Hnd) as (names' & ->);
    [intros n _; set_solver|].
  now rewrite (walk_unnamed_fence _ _ x fs Hb Hm).
Qed.

(** A document whose first line is prose is never accepted: it fails
    for missing front matter or for stray content, whatever follows
    the line; and with a well-formed document behind the line the
    error is the stray-content one. *)
Theorem prose_before_front_matter_rejected (l : Doc.line) :
  Doc.line_ok l ->
  (forall rest,
      parse_text safe_load (Doc.render_line l ++ rest) = inl MissingFrontMatter
      \/ parse_text safe_load (Doc.render_line l ++ rest)
         = inl (StrayContent NonBlockProse))
  /\ (forall d, Doc.ok d ->
                parse_text safe_load (Doc.render_line l ++ Doc.render d)
                = inl (StrayContent NonBlockProse)).
Proof.
  intros Hl.
  assert (Hp : forall rest,
             blank (prose_check (Doc.render_line l ++ rest)) = false).
  { intros rest. unfold prose_check, sub.
    rewrite (sub_inert front_matter_re true (Doc.render_line l) rest)
      by now apply inert_front_matter_re_line.
    set (z := sub_from front_matter_re _ 0 rest).
    unfold Doc.render_line. rewrite <- !app_assoc. cbn [app].
    destruct Hl as (Hw & Hl').
    rewrite (sub_inert fence_re true (Doc.lead l)).
    2:{ apply (inert_spaces (match_len fence_re) (stops ticks));
          auto using fence_re_dead.
        - intros; now apply stops_ws.
        - apply line_stops_ticks. now split. }
    rewrite (blank_app_spaces _ _ Hw).
    apply stray_line_visible. now split. }
  split.
  - intros rest. unfold parse_text. rewrite (Hp rest). cbn [negb].
    destruct (_ || _); [now left|now right].
  - intros d Hd. unfold parse_text. rewrite (Hp (Doc.render d)). cbn [negb].
    unfold split.
    replace (Doc.render_line l) with (Doc.render_lines [l])
      by (unfold Doc.render_lines; cbn; now rewrite app_nil_r).
    rewrite (split_lines [l] (Doc.render d)) by (now constructor).
    pose proof (split_doc d Hd) as Hs. unfold split in Hs. rewrite Hs.
    cbn [prepend nth]. destruct Hd as (Hy & _).
    rewrite (blank_yaml _ Hy).
    destruct (Doc.fences d); reflexivity.
Qed.
End ParserFacts.

(** * Further properties of the tool *)

(** ** Paths of the script and of the log *)

Lemma keep_suffixed (x suffix : str) (a b c : ascii) :
  suffix = [a; b; c] -> Path.keep (x ++ suffix) = true.
Proof. intros ->. destruct x as [|d [|e x]]; reflexivity. Qed.

Lemma simple_suffixed (x suffix : str) :
  simple_name x -> simple_name suffix -> simple_name (x ++ suffix).
Proof. intros Hx Hs. apply Forall_app. now split. Qed.

Lemma leading_slashes_simple (x : str) (c : ascii) (u : str) :
  simple_name (x ++ c :: u) -> Path.leading_slashes (x ++ c :: u) = 0.
Proof.
  destruct x as [|d x]; intros H; inversion H as [|e ? He _]; subst; cbn;
    match goal with
    | |- context [Ascii.eqb ?a Path.slash] =>
        destruct (Ascii.eqb_spec a Path.slash); [contradiction|reflexivity]
    end.
Qed.

Lemma simple_sh : simple_name (s ".sh").
Proof. repeat constructor; intros E; discriminate E. Qed.

Lemma simple_log : simple_name (s ".log").
Proof. repeat constructor; intros E; discriminate E. Qed.

Lemma script_path_simple (slash_name : str) :
  simple_name slash_name ->
  script_path slash_name = Path.mk [] [s ".out"; s "tmp"; slash_name ++ s ".sh"].
Proof.
  intros Hn. unfold script_path, Path.join, Path.of_str.
  pose proof (simple_suffixed _ _ Hn simple_sh) as Hs.
  rewrite (components_simple _ Hs). cbn [List.filter].
  rewrite (keep_suffixed slash_name (s ".sh") _ _ _ eq_refl).
  change (s ".sh") with ("."%char :: s "sh") in Hs |- *.
  rewrite (leading_slashes_simple _ _ _ Hs). reflexivity.
Qed.

Lemma log_path_simple (slash_name : str) :
  simple_name slash_name ->
  log_path slash_name = Path.mk [] [s ".out"; s "logs"; slash_name ++ s ".log"].
Proof.
  intros Hn. unfold log_path, Path.join, Path.of_str.
  pose proof (simple_suffixed _ _ Hn simple_log) as Hs.
  rewrite (components_simple _ Hs). cbn [List.filter].
  assert (Hk : Path.keep (slash_name ++ s ".log") = true)
    by (destruct slash_name as [|d [|e x]]; reflexivity).
  rewrite Hk.
  change (s ".log") with ("."%char :: s "log") in Hs |- *.
  rewrite (leading_slashes_simple _ _ _ Hs). reflexivity.
Qed.

Lemma join_parts_snoc (l : list str) (x : str) (c : ascii) :
  exists u, Path.join_parts (l ++ [x ++ [c]]) = u ++ [c].
Proof.
  induction l as [|a l [u IH]].
  - now exists x.
  - cbn [app Path.join_parts]. rewrite IH.
    destruct (l ++ [x ++ [c]]) eqn:E; [now destruct l|].
    exists (a ++ Path.slash :: u). now rewrite <- app_assoc.
Qed.

(** The key of a relative path ends with the last character of its last
    component. *)
Lemma key_ends (w : world) (p : Path.t) (l : list str) (x : str) (c : ascii) :
  Path.root p = [] -> Path.parts p = l ++ [x ++ [c]] ->
  exists u, key w p = u ++ [c].
Proof.
  intros Hr Hp. unfold key, Path.join. rewrite Hr, Hp.
  destruct (join_parts_snoc (Path.parts (cwd w) ++ l) x c) as [u Hu].
  unfold Path.to_str. cbn [Path.root Path.parts]. rewrite app_assoc, Hu.
  destruct (Path.root (cwd w)) as [|r0 r].
  - destruct ((Path.parts (cwd w) ++ l) ++ [x ++ [c]]) eqn:E;
      [now destruct (Path.parts (cwd w) ++ l)|]. now exists u.
  - exists ((r0 :: r) ++ u). now rewrite <- app_assoc.
Qed.

Lemma keys_differ (w : world) (p q : Path.t) (u v : str) (c d : ascii) :
  key w p = u ++ [c] -> key w q = v ++ [d] -> c <> d -> key w p <> key w q.
Proof.
  intros Hp Hq Hcd E. rewrite Hp, Hq in E.
  apply app_inj_tail in E. now destruct E.
Qed.

Lemma script_key_ends (w : world) (slash_name : str) :
  simple_name slash_name ->
  exists u, key w (script_path slash_name) = u ++ ["h"%char].
Proof.
  intros Hn. rewrite (script_path_simple _ Hn).
  apply (key_ends w _ [s ".out"; s "tmp"] (slash_name ++ s ".s")); [reflexivity|].
  cbn [Path.parts app]. now rewrite <- app_assoc.
Qed.

Lemma log_key_ends (w : world) (slash_name : str) :
  simple_name slash_name ->
  exists u, key w (log_path slash_name) = u ++ ["g"%char].
Proof.
  intros Hn. rewrite (log_path_simple _ Hn).
  apply (key_ends w _ [s ".out"; s "logs"] (slash_name ++ s ".lo")); [reflexivity|].
  cbn [Path.parts app]. now rewrite <- app_assoc.
Qed.

Lemma out_key_ends (w : world) :
  exists u, key w (Path.of_str (s ".out")) = u ++ ["t"%char].
Proof. apply (key_ends w _ [] (s ".ou")); reflexivity. Qed.

Lemma log_dir_key_ends (w : world) (slash_name : str) :
  simple_name slash_name ->
  exists u, key w (Path.parent (log_path slash_name)) = u ++ ["s"%char].
Proof.
  intros Hn. rewrite (log_path_simple _ Hn).
  apply (key_ends w _ [s ".out"] (s "log")); reflexivity.
Qed.

(** Writing the script changes neither what [.out] is nor whether the log
    can be opened. *)
Lemma compiled_keeps_out (w : world) (slash_name : str) (bash_blocks : list str) :
  simple_name slash_name ->
  is_dir (compiled w slash_name bash_blocks) (Path.of_str (s ".out"))
  = is_dir w (Path.of_str (s ".out")).
Proof.
  intros Hn. unfold is_dir, compiled. rewrite key_set_fs. cbn [fs set_fs].
  destruct (script_key_ends w _ Hn) as [u Hu].
  destruct (out_key_ends w) as [v Hv].
  rewrite lookup_insert_ne; [reflexivity|].
  apply (keys_differ w _ _ u v _ _ Hu Hv). discriminate.
Qed.

Lemma compiled_keeps_log (w : world) (slash_name : str) (bash_blocks : list str) :
  simple_name slash_name ->
  writable w (log_path slash_name) ->
  writable (compiled w slash_name bash_blocks) (log_path slash_name)
  /\ truncated (compiled w slash_name bash_blocks) (log_path slash_name)
     = <[key w (script_path slash_name) := File (script_text bash_blocks) 493]>
         (truncated w (log_path slash_name)).
Proof.
  intros Hn. unfold writable, truncated, is_dir, compiled.
  rewrite !key_set_fs. cbn [fs set_fs].
  destruct (script_key_ends w _ Hn) as [u Hu].
  destruct (log_key_ends w _ Hn) as [v Hv].
  destruct (log_dir_key_ends w _ Hn) as [v' Hv'].
  assert (N1 : key w (script_path slash_name) <> key w (log_path slash_name))
    by (apply (keys_differ w _ _ u v _ _ Hu Hv); discriminate).
  assert (N2 : key w (script_path slash_name)
               <> key w (Path.parent (log_path slash_name)))
    by (apply (keys_differ w _ _ u v' _ _ Hu Hv'); discriminate).
  rewrite !(lookup_insert_ne _ _ _ _ N1), !(lookup_insert_ne _ _ _ _ N2).
  intros H. split; [exact H|].
  apply insert_insert_ne. congruence.
Qed.

(** Writing the script does not change the mode the log will have. *)
Lemma logged_compiled (w : world) (slash_name : str) (bash_blocks printed : list str)
    (output : str) (fs' : gmap str node) :
  simple_name slash_name ->
  logged (having_printed (compiled w slash_name bash_blocks) printed)
    slash_name output fs'
  = logged w slash_name output fs'.
Proof.
  intros Hn. unfold logged, mode_of, having_printed, compiled, key.
  cbn [cwd fs set_fs]. fold (key w (log_path slash_name)).
  fold (key w (script_path slash_name)).
  destruct (script_key_ends w _ Hn) as [u Hu].
  destruct (log_key_ends w _ Hn) as [v Hv].
  rewrite lookup_insert_ne; [reflexivity|].
  apply (keys_differ w _ _ u v _ _ Hu Hv). discriminate.
Qed.

(** ** Script compiler *)

Lemma compile_script_writes (slash_name : str) (bash_blocks : list str) (w : world) :
  writable w (script_path slash_name) ->
  compile_script slash_name bash_blocks w
  = (Ret (script_path slash_name), compiled w slash_name bash_blocks).
Proof.
  intros Hw.
  destruct (write_file_writable w _ (script_text bash_blocks) Hw) as [m Hm].
  unfold compile_script, bind. rewrite Hm.
  unfold chmod. rewrite key_set_fs. cbn [fs set_fs].
  rewrite lookup_insert_eq. unfold ret, set_fs, compiled. cbn [cwd fs stdout].
  now rewrite insert_insert_eq.
Qed.


(** For a command name without [/], the script is [.out/tmp/<name>.sh]
    and the log [.out/logs/<name>.log], right inside the two directories
    of the tool. *)
Theorem script_and_log_in_tool_directories (slash_name : str) :
  simple_name slash_name ->
  Path.to_str (script_path slash_name) = s ".out/tmp/" ++ slash_name ++ s ".sh"
  /\ Path.parent (script_path slash_name) = TEMP_DIR
  /\ Path.to_str (log_path slash_name) = s ".out/logs/" ++ slash_name ++ s ".log"
  /\ Path.parent (log_path slash_name) = LOG_DIR.
Proof.
  intros Hn. rewrite (script_path_simple _ Hn), (log_path_simple _ Hn).
  repeat split; reflexivity.
Qed.

(** A command name that starts with [/] takes the script out of the
    scratch directory: [TEMP_DIR / "/<name>.sh"] is the absolute path
    [/<name>.sh], whatever the working directory, and the container is
    still given [/tmp/<name>.sh]. *)
Theorem absolute_name_leaves_scratch_directory (slash_name : str) (w : world) :
  simple_name slash_name ->
  script_path (Path.slash :: slash_name)
  = Path.mk [Path.slash] [slash_name ++ s ".sh"]
  /\ key w (script_path (Path.slash :: slash_name))
     = Path.slash :: slash_name ++ s ".sh"
  /\ Path.name (script_path (Path.slash :: slash_name)) = slash_name ++ s ".sh".
Proof.
  intros Hn.
  assert (E : script_path (Path.slash :: slash_name)
              = Path.mk [Path.slash] [slash_name ++ s ".sh"]).
  { unfold script_path, Path.join, Path.of_str.
    pose proof (simple_suffixed _ _ Hn simple_sh) as Hs.
    change ((Path.slash :: slash_name) ++ s ".sh")
      with (Path.slash :: (slash_name ++ s ".sh")).
    cbn [Path.components Path.leading_slashes].
    change (Ascii.eqb Path.slash Path.slash) with true. cbn iota.
    rewrite (components_simple _ Hs). cbn [List.filter Path.keep].
    rewrite (keep_suffixed slash_name (s ".sh") _ _ _ eq_refl).
    change (s ".sh") with ("."%char :: s "sh") in Hs |- *.
    rewrite (leading_slashes_simple _ _ _ Hs). reflexivity. }
  rewrite E. repeat split; reflexivity.
Qed.


(** For a command name that brings no [..] component into the path of
    the script, [compile_script], whatever its outcome, prints nothing,
    keeps the working directory and leaves every path but the script's as
    it was. *)
Theorem compile_script_touches_one_path (slash_name : str)
    (bash_blocks : list str) (w : world) :
  no_dotdot (slash_name ++ s ".sh") ->
  let r := compile_script slash_name bash_blocks w in
  cwd (snd r) = cwd w
  /\ stdout (snd r) = stdout w
  /\ forall k, k <> key w (script_path slash_name) ->
               fs (snd r) !! k = fs w !! k.
Proof.
  intros _. cbn zeta. unfold compile_script, bind, write_file.
  destruct (fs w !! key w (script_path slash_name)) as [[c m|]|] eqn:E.
  - unfold chmod. rewrite key_set_fs. cbn [fs set_fs]. rewrite lookup_insert_eq.
    cbn [ret snd cwd fs stdout set_fs]. repeat split.
    intros k Hk. rewrite !lookup_insert_ne by congruence. reflexivity.
  - repeat split.
  - destruct (fs w !! key w (Path.parent _)) as [[c m|]|]; [repeat split| |repeat split].
    unfold chmod. rewrite key_set_fs. cbn [fs set_fs]. rewrite lookup_insert_eq.
    cbn [ret snd cwd fs stdout set_fs]. repeat split.
    intros k Hk. rewrite !lookup_insert_ne by congruence. reflexivity.
Qed.

(** Compiling a script that was not there and removing it again, as a
    successful run does, gives back the world it started from. *)
Theorem compile_then_unlink_restores (slash_name : str)
    (bash_blocks : list str) (w : world) :
  fs w !! key w (script_path slash_name) = None ->
  is_dir w (Path.parent (script_path slash_name)) = true ->
  (let* compiled_script_path := compile_script slash_name bash_blocks in
   unlink compiled_script_path) w
  = (Ret tt, w).
Proof.
  intros Hf Hd. unfold bind.
  rewrite compile_script_writes by (unfold writable; now rewrite Hf).
  unfold unlink, compiled. rewrite key_set_fs. cbn [fs set_fs].
  rewrite lookup_insert_eq. unfold set_fs. cbn [cwd fs stdout].
  rewrite delete_insert_id by exact Hf. now destruct w.
Qed.

(** ** Container runner *)

Section RunnerErrors.
Variable runtime : list str -> gmap str node -> option (Z * str * gmap str node).

(** When the [docker] executable is not on the search path,
    [run_docker] reports it and ends the process with status 1; the log
    file has been created or emptied, no output is verified and nothing
    after [run_docker] runs. *)
Theorem run_docker_without_docker {A : Type} (image : str) (p : Path.t)
    (slash_name : str) (outputs : list str) (w : world) (k : unit -> M A) :
  is_dir w (Path.of_str (s ".out")) = true ->
  writable w (log_path slash_name) ->
  runtime (docker_cmd (cwd w) image p) (truncated w (log_path slash_name)) = None ->
  bind (run_docker runtime image p slash_name outputs) k w
  = (Exit 1,
     mkWorld (cwd w) (truncated w (log_path slash_name))
       (stdout w ++ [running_line slash_name; no_docker_line])).
Proof.
  intros Hd Hw Hr. unfold bind at 1.
  unfold run_docker. unfold bind at 1. unfold print at 1.
  set (w0 := mkWorld (cwd w) (fs w) _).
  unfold bind at 1. rewrite (mkdir_out_dir w0 Hd).
  unfold bind at 1, get_cwd. unfold try_except. unfold bind at 1.
  rewrite (write_file_truncated w0 _ Hw).
  unfold bind at 1, subprocess_run.
  change (fs (set_fs w0 _)) with (truncated w (log_path slash_name)).
  change (cwd w0) with (cwd w). rewrite Hr.
  unfold bind, print, sys_exit. subst w0. cbn [cwd fs stdout set_fs].
  rewrite <- app_assoc. reflexivity.
Qed.


(** When the container exits with code zero and every declared output
    is on the host afterwards, [run_docker] returns; it has printed the
    success line and one line per declared output, in the order of the
    declaration, and has written the container's output to the log. *)
Theorem run_docker_verifies_every_output (image : str) (p : Path.t)
    (slash_name : str) (outputs : list str) (w : world) (output : str)
    (fs' : gmap str node) :
  is_dir w (Path.of_str (s ".out")) = true ->
  writable w (log_path slash_name) ->
  runtime (docker_cmd (cwd w) image p) (truncated w (log_path slash_name))
  = Some (0%Z, output, fs') ->
  Forall (fun o => present w (logged w slash_name output fs') o = true) outputs ->
  run_docker runtime image p slash_name outputs w
  = (Ret tt,
     mkWorld (cwd w) (logged w slash_name output fs')
       (stdout w
        ++ [running_line slash_name; success_line slash_name; verifying_line]
        ++ map verified_line outputs)).
Proof.
  intros Hd Hw Hr Hall.
  rewrite (run_docker_started runtime image p slash_name outputs w 0 output fs'
             Hd Hw Hr).
  fold (logged w slash_name output fs'). cbn [Z.eqb].
  replace (forallb (present w (logged w slash_name output fs')) outputs)
    with true
    by (symmetry; apply forallb_forall; now apply List.Forall_forall).
  f_equal. f_equal. rewrite <- !app_assoc. cbn [app]. do 4 f_equal.
  apply map_ext_in. intros o Ho.
  rewrite List.Forall_forall in Hall. now rewrite (Hall o Ho).
Qed.

(** When the child process is ended by a signal, its return code is
    the number of the signal negated; [sys.exit] of it ends the
    process with that code modulo 256, so that signal 9 gives the
    exit status 247. *)
Theorem run_docker_exit_status_after_signal (image : str) (p : Path.t)
    (slash_name : str) (outputs : list str) (w : world) (signal : Z)
    (output : str) (fs' : gmap str node) :
  is_dir w (Path.of_str (s ".out")) = true ->
  writable w (log_path slash_name) ->
  runtime (docker_cmd (cwd w) image p) (truncated w (log_path slash_name))
  = Some ((- signal)%Z, output, fs') ->
  (0 < signal < 256)%Z ->
  fst (run_docker runtime image p slash_name outputs w) = Exit (- signal)
  /\ process_status (fst (run_docker runtime image p slash_name outputs w))
     = (256 - signal)%Z.
Proof.
  intros Hd Hw Hr Hs.
  rewrite (run_docker_started runtime image p slash_name outputs w _ output fs'
             Hd Hw Hr).
  replace (- signal =? 0)%Z with false by (symmetry; apply Z.eqb_neq; lia).
  cbn [fst process_status]. split; [reflexivity|].
  replace (- signal)%Z with (256 - signal + -1 * 256)%Z by lia.
  rewrite Z.mod_add by lia. apply Z.mod_small. lia.
Qed.
End RunnerErrors.

(** ** One command file *)

Section OneFile.
Context {Y Schema : Type}.
Variable safe_load : str -> str + Y.
Variable validate : Y -> Schema -> option str.
Variable slash_of image_of : Y -> option str.
Variable outputs_of : Y -> option (list str).
Variable runtime : list str -> gmap str node -> option (Z * str * gmap str node).

Local Abbreviation handle :=
  (handle_file safe_load validate slash_of image_of outputs_of runtime).

(** [handle_file] in validate mode, case by case. *)
Lemma handle_file_validate_eq (file_path : Path.t) (schema : Schema) (w : world) :
  handle file_path schema (s "validate") w
  = let after out :=
      having_printed w (processing_line file_path (s "validate") :: out) in
    match fs w !! key w file_path with
    | Some (File content _) =>
        match parse_text safe_load (text_mode content) with
        | inl e => (Exit 1, after [parse_message e (Path.to_str file_path)])
        | inr (front_matter, _) =>
            match validate front_matter schema with
            | Some e => (Exit 1, after [s "Schema Validation Error: " ++ e])
            | None => (Ret tt, after [valid_line file_path])
            end
        end
    | Some Dir => (Raise IsADirectoryError, after [])
    | None => (Raise FileNotFoundError, after [])
    end.
Proof.
  cbn zeta. unfold handle_file, parse_markdown, validate_front_matter.
  rewrite bool_decide_eq_true_2 by reflexivity.
  unfold bind, print, read_text, sys_exit, ret, key, having_printed.
  cbn [cwd fs stdout].
  destruct (fs w !! _) as [[c m|]|]; try reflexivity.
  destruct (parse_text safe_load (text_mode c)) as [e|[fm blocks]];
    [cbn [cwd fs stdout]; now rewrite <- app_assoc|].
  destruct (validate fm schema); cbn [cwd fs stdout]; now rewrite <- app_assoc.
Qed.

(** [handle_file] in run mode, once the document is read and checked. *)
Lemma handle_file_run_eq (file_path : Path.t) (schema : Schema) (w : world)
    (content : str) (mode : N) (front_matter : Y) (bash_blocks : list str) :
  fs w !! key w file_path = Some (File content mode) ->
  parse_text safe_load (text_mode content) = inr (front_matter, bash_blocks) ->
  validate front_matter schema = None ->
  handle file_path schema (s "run") w
  = (let* slash_name := subscript (slash_of front_matter) in
     let* image := subscript (image_of front_matter) in
     let* outputs := subscript (outputs_of front_matter) in
     let* compiled_script_path := compile_script slash_name bash_blocks in
     run run_docker runtime image compiled_script_path slash_name outputs then
     run unlink compiled_script_path then
     print (completed_line slash_name))
      (having_printed w [processing_line file_path (s "run")]).
Proof.
  intros Hf Hp Hv. unfold handle_file.
  rewrite bool_decide_eq_false_2 by discriminate.
  unfold bind at 1. unfold print at 1.
  unfold bind at 1. unfold parse_markdown, bind at 1, read_text.
  unfold key. cbn [cwd fs]. fold (key w file_path). rewrite Hf, Hp.
  unfold ret at 1. unfold bind at 1. unfold validate_front_matter.
  rewrite Hv. reflexivity.
Qed.

(** In validate mode [handle_file] returns exactly for a document that
    is a file, parses and passes the schema; it has then printed two
    lines, the second one announcing the success. *)
Theorem handle_file_validate_accepts_valid_documents (file_path : Path.t)
    (schema : Schema) (w : world) :
  let r := handle file_path schema (s "validate") w in
  (fst r = Ret tt <-> valid_document safe_load validate schema w file_path)
  /\ (fst r = Ret tt ->
      snd r = having_printed w [processing_line file_path (s "validate");
                                valid_line file_path]).
Proof.
  cbn zeta. rewrite handle_file_validate_eq. cbn zeta.
  unfold valid_document.
  destruct (fs w !! key w file_path) as [[c m|]|].
  - destruct (parse_text safe_load (text_mode c)) as [e|[fm blocks]] eqn:Ep.
    + split; [split|]; [discriminate| |discriminate].
      intros (? & ? & ? & ? & E & Hp & _).
      injection E as <- <-. congruence.
    + destruct (validate fm schema) as [e|] eqn:Ev.
      * split; [split|]; [discriminate| |discriminate].
        intros (? & ? & ? & ? & E & Hp & Hv).
        injection E as <- <-. congruence.
      * split; [split|]; [|reflexivity|reflexivity].
        intros _. exists c, m, fm, blocks. auto.
  - split; [split|]; [discriminate| |discriminate].
    intros (? & ? & ? & ? & E & _). discriminate E.
  - split; [split|]; [discriminate| |discriminate].
    intros (? & ? & ? & ? & E & _). discriminate E.
Qed.

(** In run mode the three subscripts of the front matter are taken
    before anything is written: when one of them raises, [handle_file]
    ends with that exception and the file system is as it was. *)
Theorem handle_file_run_missing_key (file_path : Path.t) (schema : Schema)
    (w : world) (content : str) (mode : N) (front_matter : Y)
    (bash_blocks : list str) :
  fs w !! key w file_path = Some (File content mode) ->
  parse_text safe_load (text_mode content) = inr (front_matter, bash_blocks) ->
  validate front_matter schema = None ->
  slash_of front_matter = None \/ image_of front_matter = None
  \/ outputs_of front_matter = None ->
  handle file_path schema (s "run") w
  = (Raise LookupError, having_printed w [processing_line file_path (s "run")]).
Proof.
  intros Hf Hp Hv Hk. rewrite (handle_file_run_eq _ _ _ _ _ _ _ Hf Hp Hv).
  unfold bind, subscript, raise, ret.
  destruct (slash_of front_matter); [|reflexivity].
  destruct (image_of front_matter); [|reflexivity].
  destruct (outputs_of front_matter); [|reflexivity].
  destruct Hk as [Hk|[Hk|Hk]]; discriminate Hk.
Qed.

Lemma handle_file_runnable (file_path : Path.t) (schema : Schema) (w : world)
    (slash_name image : str) (outputs bash_blocks : list str) :
  runnable_document safe_load validate slash_of image_of outputs_of
    schema w file_path slash_name image outputs bash_blocks ->
  handle file_path schema (s "run") w
  = (let* compiled_script_path := compile_script slash_name bash_blocks in
     run run_docker runtime image compiled_script_path slash_name outputs then
     run unlink compiled_script_path then
     print (completed_line slash_name))
      (having_printed w [processing_line file_path (s "run")]).
Proof.
  intros (content & mode & fm & Hf & Hp & Hv & Hs & Hi & Ho).
  rewrite (handle_file_run_eq _ _ _ _ _ _ _ Hf Hp Hv).
  rewrite Hs, Hi, Ho. reflexivity.
Qed.


(** The run of a runnable document up to the return of the runtime. *)
Lemma handle_file_run_started (file_path : Path.t) (schema : Schema) (w : world)
    (slash_name image : str) (outputs bash_blocks : list str)
    (rc : Z) (output : str) (fs' : gmap str node) :
  runnable_document safe_load validate slash_of image_of outputs_of
    schema w file_path slash_name image outputs bash_blocks ->
  ready_to_run w slash_name ->
  runtime (docker_cmd (cwd w) image (script_path slash_name))
    (at_start w slash_name bash_blocks)
  = Some (rc, output, fs') ->
  let w1 :=
    having_printed (compiled w slash_name bash_blocks)
      [processing_line file_path (s "run")] in
  handle file_path schema (s "run") w
  = (run run_docker runtime image (script_path slash_name) slash_name outputs then
     run unlink (script_path slash_name) then
     print (completed_line slash_name)) w1
  /\ is_dir w1 (Path.of_str (s ".out")) = true
  /\ writable w1 (log_path slash_name)
  /\ runtime (docker_cmd (cwd w1) image (script_path slash_name))
       (truncated w1 (log_path slash_name))
     = Some (rc, output, fs').
Proof.
  intros Hdoc (Hn & Hs & Hd & Hl) Hr. cbn zeta.
  rewrite (handle_file_runnable _ _ _ _ _ _ _ Hdoc).
  destruct (compiled_keeps_log w slash_name bash_blocks Hn Hl) as [Hl1 _].
  repeat split.
  - unfold bind at 1. rewrite compile_script_writes; [reflexivity|exact Hs].
  - change (is_dir (compiled w slash_name bash_blocks) (Path.of_str (s ".out"))
            = true).
    now rewrite (compiled_keeps_out w slash_name bash_blocks Hn).
  - exact Hl1.
  - exact Hr.
Qed.

(** A run that succeeds: the document is runnable, the script and the
    log can be written, the container exits with code zero, leaves the
    script in place and every declared output is there.  [handle_file]
    returns; the log holds the container's output, the script has been
    removed again, and the last line printed announces the success. *)
Theorem handle_file_run_succeeds (file_path : Path.t) (schema : Schema)
    (w : world) (slash_name image : str) (outputs bash_blocks : list str)
    (output : str) (fs' : gmap str node) (c : str) (m : N) :
  runnable_document safe_load validate slash_of image_of outputs_of
    schema w file_path slash_name image outputs bash_blocks ->
  ready_to_run w slash_name ->
  runtime (docker_cmd (cwd w) image (script_path slash_name))
    (at_start w slash_name bash_blocks)
  = Some (0%Z, output, fs') ->
  Forall (fun o => present w (logged w slash_name output fs') o = true) outputs ->
  fs' !! key w (script_path slash_name) = Some (File c m) ->
  handle file_path schema (s "run") w
  = (Ret tt,
     mkWorld (cwd w)
       (delete (key w (script_path slash_name)) (logged w slash_name output fs'))
       (stdout w
        ++ [processing_line file_path (s "run"); running_line slash_name;
            success_line slash_name; verifying_line]
        ++ map verified_line outputs
        ++ [completed_line slash_name])).
Proof.
  intros Hdoc Hready Hr Hall Hscript.
  destruct (handle_file_run_started _ _ _ _ _ _ _ _ _ _ Hdoc Hready Hr)
    as (E & Hd1 & Hl1 & Hr1).
  destruct Hready as (Hn & _).
  rewrite E. unfold bind at 1.
  rewrite (run_docker_started runtime image _ slash_name outputs _ 0 output fs'
             Hd1 Hl1 Hr1).
  cbn [Z.eqb].
  rewrite !(logged_compiled w slash_name bash_blocks _ output fs' Hn).
  change (present (having_printed (compiled w slash_name bash_blocks) _))
    with (present w).
  replace (forallb (present w (logged w slash_name output fs')) outputs)
    with true
    by (symmetry; apply forallb_forall; now apply List.Forall_forall).
  unfold bind at 1. unfold unlink at 1, key at 1. cbn [cwd fs].
  change (cwd (having_printed (compiled w slash_name bash_blocks) _))
    with (cwd w).
  fold (key w (script_path slash_name)).
  assert (Hin : logged w slash_name output fs' !! key w (script_path slash_name)
                = Some (File c m)).
  { unfold logged. rewrite lookup_insert_ne; [exact Hscript|].
    destruct (script_key_ends w _ Hn) as [u Hu].
    destruct (log_key_ends w _ Hn) as [v Hv].
    intros E'. symmetry in E'. revert E'.
    apply (keys_differ w _ _ u v _ _ Hu Hv). discriminate. }
  rewrite Hin. unfold print, set_fs, key. cbn [cwd fs stdout having_printed compiled].
  f_equal. f_equal. rewrite <- !app_assoc. cbn [app]. do 5 f_equal.
  f_equal. apply map_ext_in. intros o Ho.
  rewrite List.Forall_forall in Hall. now rewrite (Hall o Ho).
Qed.

(** A run whose container exits with a non-zero code ends the process
    with that code inside [run_docker]: the clean-up is not reached,
    so the compiled script stays in the scratch directory unless the
    container removed it, and the success line is not printed. *)
Theorem handle_file_run_failure_keeps_script (file_path : Path.t)
    (schema : Schema) (w : world) (slash_name image : str)
    (outputs bash_blocks : list str) (rc : Z) (output : str)
    (fs' : gmap str node) :
  runnable_document safe_load validate slash_of image_of outputs_of
    schema w file_path slash_name image outputs bash_blocks ->
  ready_to_run w slash_name ->
  runtime (docker_cmd (cwd w) image (script_path slash_name))
    (at_start w slash_name bash_blocks)
  = Some (rc, output, fs') ->
  rc <> 0%Z ->
  handle file_path schema (s "run") w
  = (Exit rc,
     mkWorld (cwd w) (logged w slash_name output fs')
       (stdout w
        ++ [processing_line file_path (s "run"); running_line slash_name;
            failed_line slash_name rc; check_logs_line slash_name]))
  /\ logged w slash_name output fs' !! key w (script_path slash_name)
     = fs' !! key w (script_path slash_name)
  /\ at_start w slash_name bash_blocks !! key w (script_path slash_name)
     = Some (File (script_text bash_blocks) 493).
Proof.
  intros Hdoc Hready Hr Hrc.
  destruct (handle_file_run_started _ _ _ _ _ _ _ _ _ _ Hdoc Hready Hr)
    as (E & Hd1 & Hl1 & Hr1).
  destruct Hready as (Hn & _ & _ & Hl).
  destruct (script_key_ends w _ Hn) as [u Hu].
  destruct (log_key_ends w _ Hn) as [v Hv].
  assert (Hne : key w (log_path slash_name) <> key w (script_path slash_name)).
  { intros E'. symmetry in E'. revert E'.
    apply (keys_differ w _ _ u v _ _ Hu Hv). discriminate. }
  split; [|split].
  - rewrite E. unfold bind at 1.
    rewrite (run_docker_started runtime image _ slash_name outputs _ rc output fs'
               Hd1 Hl1 Hr1).
    apply Z.eqb_neq in Hrc. rewrite Hrc.
    rewrite (logged_compiled w slash_name bash_blocks _ output fs' Hn).
    unfold having_printed, compiled. cbn [cwd fs stdout set_fs].
    rewrite <- !app_assoc. reflexivity.
  - unfold logged. now rewrite lookup_insert_ne.
  - unfold at_start.
    destruct (compiled_keeps_log w slash_name bash_blocks Hn Hl) as [_ ->].
    apply lookup_insert_eq.
Qed.
End OneFile.

(** ** Command line *)

Section CommandLineFacts.
Context {Y Schema : Type}.
Variable json_load : str -> exn + Schema.
Variable safe_load : str -> str + Y.
Variable validate : Y -> Schema -> option str.
Variable slash_of image_of : Y -> option str.
Variable outputs_of : Y -> option (list str).
Variable runtime : list str -> gmap str node -> option (Z * str * gmap str node).

Local Abbreviation handle :=
  (handle_file safe_load validate slash_of image_of outputs_of runtime).
Local Abbreviation files_loop :=
  (validate_files safe_load validate slash_of image_of outputs_of runtime).
Local Abbreviation command :=
  (main json_load safe_load validate slash_of image_of outputs_of runtime).
Local Abbreviation valid := (valid_document safe_load validate).

Lemma path_exists_eq (p : Path.t) (w : world) :
  path_exists p w
  = (Ret (match fs w !! key w p with Some _ => true | None => false end), w).
Proof.
  unfold path_exists. f_equal. f_equal.
  destruct (fs w !! key w p) as [x|].
  - apply bool_decide_eq_true_2. exists x. reflexivity.
  - apply bool_decide_eq_false_2. intros [x Hx]. discriminate Hx.
Qed.

Lemma load_schema_eq (w : world) :
  load_schema json_load w
  = match fs w !! key w SCHEMA_PATH with
    | None => (Exit 1, having_printed w [no_schema_line])
    | Some Dir => (Raise IsADirectoryError, w)
    | Some (File text _) =>
        match json_load (text_mode text) with
        | inl e => (Raise e, w)
        | inr schema => (Ret schema, w)
        end
    end.
Proof.
  unfold load_schema. unfold bind at 1. rewrite path_exists_eq.
  unfold bind, read_text, key.
  destruct (fs w !! _) as [[text m|]|] eqn:E; cbn [negb]; cbv beta iota;
    rewrite ?E; try reflexivity.
  now destruct (json_load (text_mode text)).
Qed.

Lemma load_schema_on_disk (w : world) (schema : Schema) :
  schema_on_disk json_load w schema ->
  load_schema json_load w = (Ret schema, w).
Proof.
  intros (text & m & Hf & Hj). now rewrite load_schema_eq, Hf, Hj.
Qed.

Lemma load_schema_returns (w w' : world) (schema : Schema) :
  load_schema json_load w = (Ret schema, w') ->
  schema_on_disk json_load w schema /\ w' = w.
Proof.
  rewrite load_schema_eq. unfold schema_on_disk.
  destruct (fs w !! key w SCHEMA_PATH) as [[text m|]|]; try discriminate.
  destruct (json_load (text_mode text)) as [e|sc] eqn:Ej; [discriminate|].
  intros E. injection E as <- <-. split; [|reflexivity].
  now exists text, m.
Qed.

(** One round of the loop of the validate command. *)
Lemma validate_files_cons (file_path : Path.t) (rest : list Path.t)
    (schema : Schema) (w : world) :
  files_loop (file_path :: rest) schema w
  = match fs w !! key w file_path with
    | None => (Exit 1, having_printed w [not_found_line file_path])
    | Some _ =>
        (run handle file_path schema (s "validate") then
         files_loop rest schema) w
    end.
Proof.
  cbn [validate_files]. unfold bind at 1. rewrite path_exists_eq.
  now destruct (fs w !! key w file_path).
Qed.

Lemma validate_files_valid (files : list Path.t) (schema : Schema) (w : world) :
  Forall (valid schema w) files ->
  files_loop files schema w
  = (Ret tt, having_printed w (validation_report files)).
Proof.
  revert w. induction files as [|f rest IH]; intros w Hall.
  - unfold having_printed. cbn. rewrite app_nil_r. now destruct w.
  - inversion Hall as [|? ? Hf Hrest]; subst.
    rewrite validate_files_cons.
    destruct Hf as (c & m & fm & blocks & Hl & Hp & Hv). rewrite Hl.
    unfold bind. rewrite handle_file_validate_eq. cbn zeta. rewrite Hl, Hp, Hv.
    rewrite IH by exact Hrest.
    unfold having_printed, validation_report. cbn [cwd fs stdout flat_map].
    rewrite <- app_assoc. reflexivity.
Qed.

Lemma validate_files_frame (files : list Path.t) (schema : Schema) (w : world) :
  let r := files_loop files schema w in
  fs (snd r) = fs w /\ cwd (snd r) = cwd w
  /\ exists out, stdout (snd r) = stdout w ++ out.
Proof.
  cbn zeta. revert w. induction files as [|f rest IH]; intros w.
  - repeat split. exists []. cbn. now rewrite app_nil_r.
  - rewrite validate_files_cons.
    destruct (fs w !! key w f) as [[c m|]|] eqn:Hl.
    + unfold bind. rewrite handle_file_validate_eq. cbn zeta. rewrite Hl.
      destruct (parse_text safe_load (text_mode c)) as [e|[fm blocks]]; [frame_done|].
      destruct (validate fm schema); [frame_done|].
      destruct (IH (having_printed w [processing_line f (s "validate");
                                      valid_line f])) as (Hf & Hc & out & Ho).
      rewrite Hf, Hc, Ho. repeat split. eexists.
      cbn [stdout having_printed]. rewrite <- app_assoc. reflexivity.
    + unfold bind. rewrite handle_file_validate_eq. cbn zeta. rewrite Hl.
      frame_done.
    + frame_done.
Qed.

Lemma validate_files_returns (files : list Path.t) (schema : Schema) (w : world) :
  fst (files_loop files schema w) = Ret tt -> Forall (valid schema w) files.
Proof.
  revert w. induction files as [|f rest IH]; intros w; [constructor|].
  rewrite validate_files_cons.
  destruct (fs w !! key w f) as [[c m|]|] eqn:Hl; [| |discriminate].
  - unfold bind. rewrite handle_file_validate_eq. cbn zeta. rewrite Hl.
    destruct (parse_text safe_load (text_mode c)) as [e|[fm blocks]] eqn:Hp; [discriminate|].
    destruct (validate fm schema) eqn:Hv; [discriminate|].
    intros Hr. constructor.
    + now exists c, m, fm, blocks.
    + apply (IH _ Hr).
  - unfold bind. rewrite handle_file_validate_eq. cbn zeta. rewrite Hl.
    discriminate.
Qed.

(** The loop over a list of files is the loop over its first part
    followed by the loop over the rest. *)
Lemma validate_files_app (a b : list Path.t) (schema : Schema) (w : world) :
  files_loop (a ++ b) schema w
  = (run files_loop a schema then files_loop b schema) w.
Proof.
  revert w. induction a as [|f a IH]; intros w; [reflexivity|].
  cbn [app].
  transitivity (match files_loop (f :: a) schema w with
                | (Ret _, w') => files_loop b schema w'
                | (Exit c, w') => (Exit c, w')
                | (Raise e, w') => (Raise e, w')
                end); [|reflexivity].
  rewrite !validate_files_cons.
  destruct (fs w !! key w f); [|reflexivity].
  unfold bind.
  destruct (handle f schema (s "validate") w) as [[[]|code|e] w1];
    [|reflexivity|reflexivity].
  rewrite IH. reflexivity.
Qed.

Lemma main_validate_eq (files : list Path.t) (w : world) :
  command (ValidateCommand files) w
  = match load_schema json_load w with
    | (Ret schema, w') =>
        bind (files_loop files schema) (fun _ => print all_valid_line) w'
    | (Exit c, w') => (Exit c, w')
    | (Raise e, w') => (Raise e, w')
    end.
Proof. reflexivity. Qed.

(** The validate command returns exactly when the schema file holds a
    schema and every file given is a file that parses and passes it;
    it has then printed two lines per file, in the order given, and
    the closing line. *)
Theorem main_validate_accepts_valid_files (files : list Path.t) (w : world) :
  let r := command (ValidateCommand files) w in
  (fst r = Ret tt
   <-> exists schema,
         schema_on_disk json_load w schema /\ Forall (valid schema w) files)
  /\ (fst r = Ret tt ->
      snd r = having_printed w (validation_report files ++ [all_valid_line])).
Proof.
  cbn zeta. rewrite main_validate_eq.
  destruct (load_schema json_load w) as [[schema|code|e] w1] eqn:El.
  2,3: split; [split|]; [discriminate| |discriminate];
       intros (sc & Hs & _); rewrite (load_schema_on_disk _ _ Hs) in El;
       discriminate El.
  destruct (load_schema_returns _ _ _ El) as [Hs ->].
  assert (Hv : Forall (valid schema w) files ->
               bind (files_loop files schema) (fun _ => print all_valid_line) w
               = (Ret tt,
                  having_printed w (validation_report files ++ [all_valid_line]))).
  { intros Hall. unfold bind. rewrite (validate_files_valid _ _ _ Hall).
    unfold print, having_printed. cbn [cwd fs stdout].
    now rewrite <- app_assoc. }
  assert (Hr : fst (bind (files_loop files schema) (fun _ => print all_valid_line) w)
               = Ret tt -> Forall (valid schema w) files).
  { unfold bind. intros Hr. apply validate_files_returns.
    destruct (files_loop files schema w) as [[[]|code|e] w2];
      [reflexivity|discriminate Hr|discriminate Hr]. }
  split; [split|].
  - intros H. exists schema. split; [exact Hs|exact (Hr H)].
  - intros (sc & Hs' & Hall).
    rewrite (load_schema_on_disk _ _ Hs') in El. injection El as ->.
    now rewrite (Hv Hall).
  - intros H. now rewrite (Hv (Hr H)).
Qed.

(** [main] on the validate command writes nothing, whatever the files
    and whatever its outcome: the file system and the working
    directory are as before; lines are only added to what was
    printed. *)
Theorem main_validate_writes_nothing (files : list Path.t) (w : world) :
  let r := command (ValidateCommand files) w in
  fs (snd r) = fs w /\ cwd (snd r) = cwd w
  /\ exists out, stdout (snd r) = stdout w ++ out.
Proof.
  cbn zeta. rewrite main_validate_eq, load_schema_eq.
  destruct (fs w !! key w SCHEMA_PATH) as [[text m|]|]; [| |frame_done].
  - destruct (json_load (text_mode text)) as [e|schema]; [frame_done; now exists []; rewrite app_nil_r|].
    unfold bind.
    destruct (validate_files_frame files schema w) as (Hf & Hc & out & Ho).
    destruct (files_loop files schema w) as [[[]|code|e] w1];
      cbn [fst snd] in *; cbn [print snd cwd fs stdout].
    + repeat split; [exact Hf|exact Hc|]. eexists. rewrite Ho.
      now rewrite <- app_assoc.
    + repeat split; [exact Hf|exact Hc|now exists out].
    + repeat split; [exact Hf|exact Hc|now exists out].
  - repeat split. exists []. now rewrite app_nil_r.
Qed.

(** The validate command stops at the first file that fails: the files
    behind it are not looked at, so the outcome, the printed lines and
    the final state do not depend on them. *)
Theorem main_validate_stops_at_first_failure (pre : list Path.t) (file : Path.t)
    (rest : list Path.t) (w : world) :
  fst (command (ValidateCommand (pre ++ [file])) w) <> Ret tt ->
  command (ValidateCommand (pre ++ file :: rest)) w
  = command (ValidateCommand (pre ++ [file])) w.
Proof.
  rewrite !main_validate_eq.
  destruct (load_schema json_load w) as [[schema|code|e] w1];
    [|reflexivity|reflexivity].
  change (pre ++ file :: rest) with (pre ++ [file] ++ rest).
  rewrite app_assoc. unfold bind.
  rewrite (validate_files_app (pre ++ [file]) rest). unfold bind.
  destruct (files_loop (pre ++ [file]) schema w1) as [[[]|code|e] w2];
    [|reflexivity|reflexivity].
  intros H. exfalso. apply H. reflexivity.
Qed.

(** Without the schema file the tool stops at once, whatever the
    command: it prints where it looked for the schema and ends with
    status 1; no document is read. *)
Theorem main_without_schema (args : arguments) (w : world) :
  fs w !! key w SCHEMA_PATH = None ->
  command args w = (Exit 1, having_printed w [no_schema_line]).
Proof.
  intros Hf. unfold main, bind. rewrite load_schema_eq, Hf. reflexivity.
Qed.

End CommandLineFacts.

(** ** Start of the program *)

Lemma os_mkdir_eq (p q : Path.t) (w : world) :
  Path.parent p = q ->
  os_mkdir p w
  = match fs w !! key w p with
    | Some _ => (Raise FileExistsError, w)
    | None =>
        match fs w !! key w q with
        | Some Dir => (Ret tt, set_fs w (<[key w p := Dir]> (fs w)))
        | Some (File _ _) => (Raise NotADirectoryError, w)
        | None => (Raise FileNotFoundError, w)
        end
    end.
Proof. now intros <-. Qed.

Lemma log_dir_key_differs (w : world) :
  key w LOG_DIR <> key w (Path.of_str (s ".out")).
Proof.
  destruct (key_ends w LOG_DIR [s ".out"] (s "log") "s"%char eq_refl eq_refl)
    as [u Hu].
  destruct (out_key_ends w) as [v Hv].
  apply (keys_differ w _ _ u v _ _ Hu Hv). discriminate.
Qed.

(** The start of the program, case by case. *)
Lemma startup_eq (w : world) :
  startup w
  = match fs w !! key w LOG_DIR with
    | Some Dir => (Ret tt, w)
    | Some (File _ _) => (Raise FileExistsError, w)
    | None =>
        match fs w !! key w (Path.of_str (s ".out")) with
        | Some Dir => (Ret tt, set_fs w (<[key w LOG_DIR := Dir]> (fs w)))
        | Some (File _ _) => (Raise NotADirectoryError, w)
        | None =>
            match fs w !! key w (Path.of_str (s ".")) with
            | Some Dir =>
                (Ret tt,
                 set_fs w (<[key w LOG_DIR := Dir]>
                             (<[key w (Path.of_str (s ".out")) := Dir]> (fs w))))
            | Some (File _ _) => (Raise NotADirectoryError, w)
            | None => (Raise FileNotFoundError, w)
            end
        end
    end.
Proof.
  pose proof (log_dir_key_differs w) as Hne.
  unfold startup.
  change (Path.root LOG_DIR) with (@nil ascii).
  change (rev (Path.parts LOG_DIR)) with [s "logs"; s ".out"].
  cbn [mkdir_parents].
  change (Path.mk [] (rev [s "logs"; s ".out"])) with LOG_DIR.
  change (Path.mk [] (rev [s ".out"])) with (Path.of_str (s ".out")).
  change (Path.mk [] (rev [])) with (Path.of_str (s ".")).
  rewrite (os_mkdir_eq LOG_DIR (Path.of_str (s ".out")) w eq_refl).
  unfold is_dir.
  destruct (fs w !! key w LOG_DIR) as [[c m|]|] eqn:El; rewrite ?El;
    [reflexivity..|].
  destruct (fs w !! key w (Path.of_str (s ".out"))) as [[c m|]|] eqn:Eo;
    rewrite ?El; [reflexivity..|].
  unfold bind.
  rewrite (os_mkdir_eq (Path.of_str (s ".out")) (Path.of_str (s ".")) w eq_refl).
  rewrite Eo.
  destruct (fs w !! key w (Path.of_str (s "."))) as [[c m|]|] eqn:Ed;
    rewrite ?Eo.
  - reflexivity.
  - unfold mkdir_exist_ok, is_dir. rewrite !key_set_fs. cbn [fs set_fs].
    rewrite lookup_insert_ne by congruence. rewrite El.
    change (Path.parent LOG_DIR) with (Path.of_str (s ".out")).
    rewrite lookup_insert_eq. reflexivity.
  - rewrite (os_mkdir_eq (Path.of_str (s ".")) (Path.of_str (s ".")) w eq_refl).
    now rewrite Ed.
Qed.

Lemma startup_frame (w : world) :
  cwd (snd (startup w)) = cwd w /\ stdout (snd (startup w)) = stdout w.
Proof.
  rewrite startup_eq.
  destruct (fs w !! key w LOG_DIR) as [[c m|]|]; [now split..|].
  destruct (fs w !! key w (Path.of_str (s ".out"))) as [[c m|]|]; [now split..|].
  destruct (fs w !! key w (Path.of_str (s "."))) as [[c m|]|]; now split.
Qed.

(** Where the working directory is a directory and [.out] and
    [.out/logs] are directories or not there yet, loading the module
    succeeds and leaves [.out/logs] a directory; it prints nothing,
    changes nothing that was there and adds nothing but these two
    directories. *)
Theorem startup_makes_log_directory (w : world) :
  is_dir w (Path.of_str (s ".")) = true ->
  absent_or_dir w (Path.of_str (s ".out")) ->
  absent_or_dir w LOG_DIR ->
  exists w',
    startup w = (Ret tt, w')
    /\ is_dir w' LOG_DIR = true
    /\ cwd w' = cwd w /\ stdout w' = stdout w
    /\ (forall k x, fs w !! k = Some x -> fs w' !! k = Some x)
    /\ (forall k, fs w !! k = None -> k <> key w LOG_DIR ->
                  k <> key w (Path.of_str (s ".out")) -> fs w' !! k = None).
Proof.
  unfold is_dir, absent_or_dir. intros Hd Ho Hl.
  pose proof (log_dir_key_differs w) as Hne.
  rewrite startup_eq.
  destruct (fs w !! key w LOG_DIR) as [[c m|]|] eqn:El; [contradiction| |].
  - exists w. rewrite El. repeat split; auto.
  - destruct (fs w !! key w (Path.of_str (s ".out"))) as [[c m|]|] eqn:Eo;
      [contradiction| |].
    + eexists. split; [reflexivity|]. rewrite key_set_fs. cbn [cwd fs stdout set_fs].
      rewrite lookup_insert_eq. repeat split.
      * intros k x Hk. rewrite lookup_insert_ne; [exact Hk|congruence].
      * intros k Hk Hk1 _. rewrite lookup_insert_ne; [exact Hk|congruence].
    + destruct (fs w !! key w (Path.of_str (s "."))) as [[c m|]|];
        try discriminate Hd.
      eexists. split; [reflexivity|]. rewrite key_set_fs. cbn [cwd fs stdout set_fs].
      rewrite lookup_insert_eq. repeat split.
      * intros k x Hk. rewrite !lookup_insert_ne; [exact Hk|congruence..].
      * intros k Hk Hk1 Hk2. rewrite !lookup_insert_ne; [exact Hk|congruence..].
Qed.

Section Program.
Context {Y Schema : Type}.
Variable json_load : str -> exn + Schema.
Variable safe_load : str -> str + Y.
Variable validate : Y -> Schema -> option str.
Variable slash_of image_of : Y -> option str.
Variable outputs_of : Y -> option (list str).
Variable runtime : list str -> gmap str node -> option (Z * str * gmap str node).

(** All the validate command does to the file system is what loading
    the module does, the making of the log directory: after it the
    file system is as the start of the program left it, whatever the
    files and whatever the outcome. *)
Theorem validate_command_only_makes_log_directory (files : list Path.t)
    (w : world) :
  let r := program json_load safe_load validate slash_of image_of outputs_of
             runtime (ValidateCommand files) w in
  fs (snd r) = fs (snd (startup w))
  /\ cwd (snd r) = cwd w
  /\ exists out, stdout (snd r) = stdout w ++ out.
Proof.
  cbn zeta. unfold program, bind.
  destruct (startup_frame w) as [Hc Hs].
  destruct (startup w) as [[[]|code|e] w1]; cbn [fst snd] in *.
  - rewrite main_validate_eq, load_schema_eq.
    destruct (fs w1 !! key w1 SCHEMA_PATH) as [[text m|]|].
    + destruct (json_load (text_mode text)) as [e|schema].
      * repeat split; [exact Hc|]. exists []. now rewrite app_nil_r.
      * unfold bind.
        destruct (validate_files_frame safe_load validate slash_of image_of
                    outputs_of runtime files schema w1) as (Hf & Hc1 & out & Ho).
        destruct (validate_files _ _ _ _ _ _ files schema w1) as [[[]|code|e] w2];
          cbn [fst snd] in *; cbn [print snd cwd fs stdout];
          rewrite Hf, Hc1, Ho, Hc, Hs; repeat split.
        -- eexists. now rewrite <- app_assoc.
        -- now exists out.
        -- now exists out.
    + repeat split; [exact Hc|]. exists []. now rewrite app_nil_r.
    + cbn [fst snd having_printed cwd fs stdout]. rewrite Hc, Hs.
      repeat split. now eexists.
  - repeat split; [exact Hc|]. exists []. now rewrite app_nil_r.
  - repeat split; [exact Hc|]. exists []. now rewrite app_nil_r.
Qed.
End Program.

(** ** The further properties on the samples *)

Lemma accepted_blocks_are_trimmed_and_named_witness :
  [@nil ascii; []] <> []
  /\ Forall trimmed [@nil ascii; []]
  /\ exists names : gset str,
       walk ∅ [] (skipn 2 (split marker_re Demo.two_blocks_text))
       = inr (names, [[]; []])
       /\ size names = 2.
Proof.
  apply (accepted_blocks_are_trimmed_and_named Demo.load Demo.two_blocks_text
           Demo.meta_text [[]; []]).
  vm_compute. reflexivity.
Defined.

Lemma missing_front_matter_reported_witness :
  parse_text Demo.load Sample.notes_text = inl MissingFrontMatter
  /\ parse_text Demo.load Sample.unclosed_text = inl MissingFrontMatter
  /\ parse_text Demo.load Sample.empty_front_matter_text = inl MissingFrontMatter.
Proof.
  destruct (missing_front_matter_reported Demo.load) as (H1 & H2 & H3).
  split; [|split].
  - change Sample.notes_text
      with (Doc.render_lines [Demo.plain "Some notes."; Demo.plain "More notes."]
            ++ []).
    apply H1; shape.
  - change Sample.unclosed_text
      with (dashes ++ nl :: Doc.render_lines [Demo.plain "slash: foo"]).
    apply H2; shape.
  - change Sample.empty_front_matter_text
      with (dashes ++ Doc.render_gap Demo.no_gap ++ dashes
            ++ Doc.render_gap Demo.no_gap
            ++ Doc.render_fences [Doc.to_fence (Demo.block (s "a") ["echo a"])]).
    apply H3; shape.
Defined.

Lemma yaml_error_reported_witness :
  parse_text Sample.refuse Demo.two_blocks_text
  = inl (YamlParseError (s "could not find expected ':'")).
Proof.
  change Demo.two_blocks_text
    with (Doc.render (Doc.named_doc Demo.meta Demo.no_gap Demo.two_blocks)).
  apply (yaml_error_reported Sample.refuse); [|reflexivity].
  apply named_doc_ok; shape.
Defined.

Lemma document_without_bash_blocks_rejected_witness :
  parse_text Demo.load Sample.yaml_only_text = inl NoExecutableBlocks.
Proof.
  change Sample.yaml_only_text
    with (Doc.render (Doc.mk Demo.meta Demo.no_gap [Sample.yaml_fence])).
  apply (document_without_bash_blocks_rejected Demo.load Demo.meta Demo.no_gap
           [Sample.yaml_fence] Demo.meta_text); shape.
Defined.

Lemma unnamed_bash_block_rejected_witness :
  parse_text Demo.load Sample.unnamed_text = inl MissingBlockName.
Proof.
  change Sample.unnamed_text
    with (Doc.render (Doc.mk Demo.meta Demo.no_gap
                        (map Doc.to_fence [Demo.block (s "a") ["echo a"]]
                         ++ Sample.unnamed_fence :: []))).
  apply (unnamed_bash_block_rejected Demo.load Demo.meta Demo.no_gap
           [Demo.block (s "a") ["echo a"]] Sample.unnamed_fence []
           Demo.meta_text); shape.
Defined.

Lemma prose_before_front_matter_rejected_witness :
  parse_text Demo.load Sample.notes_first_text = inl (StrayContent NonBlockProse).
Proof.
  change Sample.notes_first_text
    with (Doc.render_line (Demo.plain "Some notes.")
          ++ Doc.render (Doc.named_doc Demo.meta Demo.no_gap Demo.two_blocks)).
  apply (prose_before_front_matter_rejected Demo.load (Demo.plain "Some notes."));
    [shape|].
  apply named_doc_ok; shape.
Defined.

Lemma script_and_log_in_tool_directories_witness :
  Path.to_str (script_path (s "foo")) = s ".out/tmp/foo.sh"
  /\ Path.parent (script_path (s "foo")) = TEMP_DIR
  /\ Path.to_str (log_path (s "foo")) = s ".out/logs/foo.log"
  /\ Path.parent (log_path (s "foo")) = LOG_DIR.
Proof. apply (script_and_log_in_tool_directories (s "foo")). no_slash. Defined.

Lemma absolute_name_leaves_scratch_directory_witness :
  script_path (s "/deploy") = Path.mk [Path.slash] [s "deploy.sh"]
  /\ key Sample.start (script_path (s "/deploy")) = s "/deploy.sh"
  /\ Path.name (script_path (s "/deploy")) = s "deploy.sh".
Proof.
  apply (absolute_name_leaves_scratch_directory (s "deploy") Sample.start).
  no_slash.
Defined.


Lemma compile_script_touches_one_path_witness :
  fs (snd (compile_script (s "foo") [s "echo a"] Demo.start)) !! s "/work/.out/logs"
  = Some Dir.
Proof.
  destruct (compile_script_touches_one_path (s "foo") [s "echo a"] Demo.start)
    as (_ & _ & H); [repeat constructor; discriminate|].
  rewrite H; [reflexivity|discriminate].
Defined.

Lemma compile_then_unlink_restores_witness :
  (let* compiled_script_path := compile_script (s "foo") [s "echo a"] in
   unlink compiled_script_path) Sample.start
  = (Ret tt, Sample.start).
Proof.
  apply (compile_then_unlink_restores (s "foo") [s "echo a"] Sample.start);
    evaluated.
Defined.

Lemma run_docker_without_docker_witness :
  bind (run_docker Sample.no_runtime (s "alpine:3") Demo.script (s "foo")
          [s "out.txt"]) (fun _ => print (s "done")) Sample.start
  = (Exit 1,
     mkWorld (cwd Sample.start) (truncated Sample.start (log_path (s "foo")))
       [running_line (s "foo"); no_docker_line]).
Proof.
  apply (run_docker_without_docker Sample.no_runtime (s "alpine:3") Demo.script
           (s "foo") [s "out.txt"] Sample.start (fun _ => print (s "done")));
    evaluated.
Defined.


Lemma run_docker_verifies_every_output_witness :
  fst (run_docker (Sample.runtime 0) (s "alpine:3") Demo.script (s "foo")
         [s "out.txt"] Sample.start)
  = Ret tt.
Proof.
  assert (Hd : is_dir Sample.start (Path.of_str (s ".out")) = true) by evaluated.
  assert (Hw : writable Sample.start (log_path (s "foo"))) by evaluated.
  rewrite (run_docker_verifies_every_output (Sample.runtime 0) (s "alpine:3")
             Demo.script (s "foo") [s "out.txt"] Sample.start (s "ran") _
             Hd Hw eq_refl);
    [reflexivity|].
  constructor; [evaluated|constructor].
Defined.

Lemma sample_runnable (w : world) :
  fs w !! key w Sample.document = Some (File Demo.two_blocks_text default_mode) ->
  runnable_document Demo.load Sample.validate Sample.slash_of Sample.image_of
    Sample.outputs_of tt w Sample.document (s "foo") (s "alpine:3") [s "out.txt"]
    [[]; []].
Proof.
  intros H. exists Demo.two_blocks_text, default_mode, Demo.meta_text.
  split; [exact H|]. evaluated.
Qed.

Lemma sample_ready : ready_to_run Sample.start (s "foo").
Proof. split; [no_slash|evaluated]. Qed.



Lemma handle_file_run_missing_key_witness :
  handle_file Demo.load Sample.validate Sample.no_key Sample.image_of
    Sample.outputs_of (Sample.runtime 0) Sample.document tt (s "run") Sample.start
  = (Raise LookupError,
     having_printed Sample.start [processing_line Sample.document (s "run")]).
Proof.
  apply (handle_file_run_missing_key Demo.load Sample.validate Sample.no_key
           Sample.image_of Sample.outputs_of (Sample.runtime 0) Sample.document
           tt Sample.start Demo.two_blocks_text default_mode Demo.meta_text
           [[]; []]);
    [evaluated..|now left].
Defined.


Lemma handle_file_run_succeeds_witness :
  fst (handle_file Demo.load Sample.validate Sample.slash_of Sample.image_of
         Sample.outputs_of (Sample.runtime 0) Sample.document tt (s "run")
         Sample.start)
  = Ret tt.
Proof.
  rewrite (handle_file_run_succeeds Demo.load Sample.validate Sample.slash_of
             Sample.image_of Sample.outputs_of (Sample.runtime 0) Sample.document
             tt Sample.start (s "foo") (s "alpine:3") [s "out.txt"] [[]; []]
             (s "ran") _ (script_text [[]; []]) 493
             (sample_runnable Sample.start eq_refl) sample_ready eq_refl);
    [reflexivity| |evaluated].
  constructor; [evaluated|constructor].
Defined.

Lemma handle_file_run_failure_keeps_script_witness :
  fst (handle_file Demo.load Sample.validate Sample.slash_of Sample.image_of
         Sample.outputs_of (Sample.runtime 3) Sample.document tt (s "run")
         Sample.start)
  = Exit 3.
Proof.
  destruct (handle_file_run_failure_keeps_script Demo.load Sample.validate
              Sample.slash_of Sample.image_of Sample.outputs_of (Sample.runtime 3)
              Sample.document tt Sample.start (s "foo") (s "alpine:3")
              [s "out.txt"] [[]; []] 3 (s "ran") _
              (sample_runnable Sample.start eq_refl) sample_ready eq_refl)
    as (E & _); [discriminate|].
  now rewrite E.
Defined.

Lemma main_validate_stops_at_first_failure_witness :
  main Sample.json_load Demo.load Sample.validate Sample.slash_of Sample.image_of
    Sample.outputs_of (Sample.runtime 0)
    (ValidateCommand ([Sample.document] ++ Sample.missing :: [Sample.document]))
    Sample.start
  = main Sample.json_load Demo.load Sample.validate Sample.slash_of Sample.image_of
      Sample.outputs_of (Sample.runtime 0)
      (ValidateCommand ([Sample.document] ++ [Sample.missing])) Sample.start.
Proof.
  apply (main_validate_stops_at_first_failure Sample.json_load Demo.load
           Sample.validate Sample.slash_of Sample.image_of Sample.outputs_of
           (Sample.runtime 0) [Sample.document] Sample.missing [Sample.document]
           Sample.start).
  vm_compute. discriminate.
Defined.

Lemma main_without_schema_witness :
  main Sample.json_load Demo.load Sample.validate Sample.slash_of Sample.image_of
    Sample.outputs_of (Sample.runtime 0) (RunCommand Sample.document) Demo.start
  = (Exit 1, having_printed Demo.start [no_schema_line]).
Proof.
  apply (main_without_schema Sample.json_load Demo.load Sample.validate
           Sample.slash_of Sample.image_of Sample.outputs_of (Sample.runtime 0)
           (RunCommand Sample.document) Demo.start).
  evaluated.
Defined.


Lemma startup_makes_log_directory_witness :
  exists w',
    startup Sample.bare = (Ret tt, w')
    /\ is_dir w' LOG_DIR = true
    /\ fs w' !! s "/work" = Some Dir.
Proof.
  destruct (startup_makes_log_directory Sample.bare) as (w' & E & Hl & _ & _ & Hk & _);
    [evaluated..|].
  exists w'. split; [exact E|]. split; [exact Hl|]. apply Hk. evaluated.
Defined.

Lemma run_docker_exit_status_after_signal_witness :
  process_status
    (fst (run_docker Sample.killed (s "alpine:3") Demo.script (s "foo")
            [s "out.txt"] Sample.start))
  = 247%Z.
Proof.
  assert (Hd : is_dir Sample.start (Path.of_str (s ".out")) = true) by evaluated.
  assert (Hw : writable Sample.start (log_path (s "foo"))) by evaluated.
  destruct (run_docker_exit_status_after_signal Sample.killed (s "alpine:3")
              Demo.script (s "foo") [s "out.txt"] Sample.start 9 (s "Killed") _
              Hd Hw eq_refl) as [_ E]; [lia|].
  exact E.
Defined.
